(** * Reed-Solomon erasure coding over GF(2^8): the package [rs] (rs.go)

    A shallow embedding of the Go package: bytes ([uint8]) are integers
    in [0, 256), [uint16] values are integers in [0, 65536), slices and
    arrays are lists, and a Go panic is a value of the error monad
    [res]. *)

From Stdlib Require Import ZArith Lia Bool List Field.
From stdpp Require Import base option list.

Local Open Scope Z_scope.

(** ** Machine integers *)

Definition u8 (z : Z) : Z := z mod 256.
Definition u16 (z : Z) : Z := z mod 65536.

Definition is_byte (z : Z) : bool := (0 <=? z) && (z <? 256).

Definition bytes_ok (l : list Z) : bool := forallb is_byte l.
Definition rows_ok (m : list (list Z)) : bool := forallb bytes_ok m.

(** Every value of type [uint8], in increasing order. *)
Definition all_bytes : list Z := map Z.of_nat (seq 0 256).

(** ** Faults

    [ShapeMismatch], [RaggedInput] and [IndexOutOfRange] are the three
    [panic(fmt.Errorf(...))] sites of [Code] and [Update];
    [RuntimeIndex] is the Go runtime's own "index out of range" panic. *)

Inductive fault : Type :=
| ShapeMismatch
| RaggedInput
| IndexOutOfRange
| RuntimeIndex.

Inductive res (A : Type) : Type :=
| Ok (a : A)
| Panic (f : fault).
Arguments Ok {A} a.
Arguments Panic {A} f.

Definition rbind {A B : Type} (m : res A) (k : A -> res B) : res B :=
  match m with
  | Ok a => k a
  | Panic f => Panic f
  end.

Notation "'do' x <- m ; k" := (rbind m (fun x => k))
  (at level 10, x name, m at level 100, k at level 200).

(** A checked slice read [t[i]]. *)
Definition aget {A : Type} (t : list A) (i : nat) : res A :=
  match t !! i with
  | Some v => Ok v
  | None => Panic RuntimeIndex
  end.

(** A loop over indices whose body updates a store [S] in place and may
    panic: the result is the store as the loop leaves it, together with
    the panic that stopped it, if any. *)
Fixpoint for_each {S : Type} (l : list nat)
    (body : nat -> S -> S * option fault) (s : S) : S * option fault :=
  match l with
  | [] => (s, None)
  | i :: l' =>
      match body i s with
      | (s', None) => for_each l' body s'
      | (s', Some f) => (s', Some f)
      end
  end.

(** ** The field GF(2^8) *)

Module GF.

(** [cp_84320 = 1<<8 | 1<<4 | 1<<3 | 1<<2 | 1<<0] *)
Definition cp_84320 : Z :=
  Z.lor (Z.shiftl 1 8)
    (Z.lor (Z.shiftl 1 4) (Z.lor (Z.shiftl 1 3) (Z.lor (Z.shiftl 1 2) (Z.shiftl 1 0)))).

(** First loop of [galois_multiply]:
    [for ; a != 0; a >>= 1 { if a&1 != 0 { p ^= b }; b <<= 1 }].
    [a] is a [uint16], so sixteen rounds of fuel always suffice. *)
Fixpoint gm_product (fuel : nat) (a b p : Z) : option Z :=
  if a =? 0 then Some p
  else
    match fuel with
    | O => None
    | S fuel' =>
        let p' := if negb (Z.land a 1 =? 0) then Z.lxor p b else p in
        gm_product fuel' (Z.shiftr a 1) (u16 (Z.shiftl b 1)) p'
    end.

(** Second loop of [galois_multiply]:
    [for i := 1 << 15; i >= 1<<8; i >>= 1 { if p&uint16(i) != 0 { p ^= c }; c >>= 1 }]. *)
Fixpoint gm_reduce (fuel : nat) (i p c : Z) : option Z :=
  if i >=? Z.shiftl 1 8 then
    match fuel with
    | O => None
    | S fuel' =>
        let p' := if negb (Z.land p (u16 i) =? 0) then Z.lxor p c else p in
        gm_reduce fuel' (Z.shiftr i 1) p' (Z.shiftr c 1)
    end
  else Some p.

Definition galois_multiply (aa bb : Z) : option Z :=
  let a := u16 aa in
  let b := u16 bb in
  let c := u16 (Z.shiftl cp_84320 7) in
  match gm_product 16 a b 0 with
  | None => None
  | Some p =>
      match gm_reduce 16 (Z.shiftl 1 15) p c with
      | None => None
      | Some p' => Some (u8 p')
      end
  end.

(** The package-level arrays [exp [255]uint8], [log [256]uint8] and
    [inv [256]uint8]. *)
Record tables : Type := Tables {
  t_exp : list Z;
  t_log : list Z;
  t_inv : list Z
}.

(** A checked array read and a checked array store: [None] is the
    runtime's index-out-of-range panic. *)
Definition tget (t : list Z) (i : Z) : option Z :=
  if i <? 0 then None else t !! Z.to_nat i.

Definition tset (t : list Z) (i : Z) (v : Z) : option (list Z) :=
  if (0 <=? i) && (i <? Z.of_nat (length t)) then Some (<[Z.to_nat i := v]> t)
  else None.

(** [for i := range exp { exp[i] = a; log[a] = uint8(i); a = galois_multiply(a, 2) }] *)
Fixpoint init_exp_log (idxs : list nat) (st : list Z * list Z * Z)
  : option (list Z * list Z * Z) :=
  match idxs with
  | [] => Some st
  | i :: idxs' =>
      let '(e, l, a) := st in
      match tset e (Z.of_nat i) a with
      | None => None
      | Some e' =>
          match tset l a (u8 (Z.of_nat i)) with
          | None => None
          | Some l' =>
              match galois_multiply a 2 with
              | None => None
              | Some a' => init_exp_log idxs' (e', l', a')
              end
          end
      end
  end.

(** [for i := 2; i < 256; i++ { idx := 255 - int(log[i]); inv[i] = exp[idx] }] *)
Fixpoint init_inv (idxs : list nat) (e l v : list Z) : option (list Z) :=
  match idxs with
  | [] => Some v
  | i :: idxs' =>
      match tget l (Z.of_nat i) with
      | None => None
      | Some li =>
          let idx := 255 - li in
          match tget e idx with
          | None => None
          | Some x =>
              match tset v (Z.of_nat i) x with
              | None => None
              | Some v' => init_inv idxs' e l v'
              end
          end
      end
  end.

Definition init : option tables :=
  match init_exp_log (seq 0 255) (replicate 255 0, replicate 256 0, 1) with
  | None => None
  | Some (e, l, _) =>
      match tset (replicate 256 0) 0 0 with
      | None => None
      | Some v0 =>
          match tset v0 1 1 with
          | None => None
          | Some v1 =>
              match init_inv (seq 2 254) e l v1 with
              | None => None
              | Some v => Some (Tables e l v)
              end
          end
      end
  end.

(** The arrays as [init] leaves them. *)
Definition the_tables : tables :=
  Eval vm_compute in
    match init with
    | Some t => t
    | None => Tables [] [] []
    end.

Definition exp : list Z := t_exp the_tables.
Definition log : list Z := t_log the_tables.
Definition inv : list Z := t_inv the_tables.

(** An array read [t[i]] at an index that is in range. *)
Definition rd (t : list Z) (i : Z) : Z := nth (Z.to_nat i) t 0.

Definition mult (a b : Z) : Z :=
  if (a =? 0) || (b =? 0) then 0
  else
    let idx := rd log a + rd log b in
    let idx := if idx >=? 255 then idx - 255 else idx in
    rd exp idx.

(** [mult] with every array read checked against the array bounds. *)
Definition mult_checked (a b : Z) : option Z :=
  if (a =? 0) || (b =? 0) then Some 0
  else
    match tget log a, tget log b with
    | Some la, Some lb =>
        let idx := la + lb in
        let idx := if idx >=? 255 then idx - 255 else idx in
        tget exp idx
    | _, _ => None
    end.

End GF.

(** ** The erasure coder *)

Module RS.
Import GF.

Record ErasureCoder : Type := { interp : list (list Z) }.

Abbreviation matrix := (list (list Z)).

Definition makeMatrix (x y : nat) : matrix := replicate x (replicate y 0).

(** [for k, xk := range in_x { if k == i { continue }; f := ...; r = mult(r, f) }].
    The reads [in_x[i]] and [inv[...]] are in range: [lagrange] is only
    called with [i] ranging over [in_x], and [inv] has an entry for
    every [uint8]. *)
Definition lagrange (in_x : list Z) (i : nat) (xj : Z) : Z :=
  fold_left
    (fun r '(k, xk) =>
       if (k =? i)%nat then r
       else
         let f := mult (Z.lxor xj xk) (rd inv (Z.lxor (nth i in_x 0) xk)) in
         mult r f)
    (combine (seq 0 (length in_x)) in_x) 1.

(** [lagrange] with every slice and array read checked against its
    bounds: [None] is a runtime panic. *)
Definition lagrange_checked (in_x : list Z) (i : nat) (xj : Z) : option Z :=
  fold_left
    (fun r '(k, xk) =>
       if (k =? i)%nat then r
       else
         match r, in_x !! i with
         | Some rv, Some xi =>
             match tget inv (Z.lxor xi xk) with
             | Some v =>
                 match mult_checked (Z.lxor xj xk) v with
                 | Some f => mult_checked rv f
                 | None => None
                 end
             | None => None
             end
         | _, _ => None
         end)
    (combine (seq 0 (length in_x)) in_x) (Some 1).

(** The store [m[i][j] = v]; both indices are in range wherever it is used. *)
Definition set_at (m : matrix) (i j : nat) (v : Z) : matrix :=
  alter (fun row => <[j := v]> row) i m.

Definition NewErasureCoder (in_x out_x : list Z) : ErasureCoder :=
  let m0 := makeMatrix (length in_x) (length out_x) in
  {| interp :=
       fold_left
         (fun m i =>
            fold_left
              (fun m j => set_at m i j (lagrange in_x i (nth j out_x 0)))
              (seq 0 (length out_x)) m)
         (seq 0 (length in_x)) m0 |}.

Definition Degree (p : ErasureCoder) : nat := length (interp p).

Definition NumOutputs (p : ErasureCoder) : res nat :=
  do r0 <- aget (interp p) 0; Ok (length r0).

(** [out[k][j] ^= v] *)
Definition xor_at (out : matrix) (k j : nat) (v : Z) : matrix * option fault :=
  match out !! k with
  | None => (out, Some RuntimeIndex)
  | Some row =>
      match row !! j with
      | None => (out, Some RuntimeIndex)
      | Some x => (<[k := <[j := Z.lxor x v]> row]> out, None)
      end
  end.

(** [for k := 0; k < len(coef); k++ { out[k][j] ^= mult(src[j], coef[k]) }] *)
Definition xor_column (src coef : list Z) (j : nat) (out : matrix)
  : matrix * option fault :=
  for_each (seq 0 (length coef))
    (fun k out =>
       match aget src j, aget coef k with
       | Ok a, Ok c => xor_at out k j (mult a c)
       | _, _ => (out, Some RuntimeIndex)
       end) out.

Definition Code (p : ErasureCoder) (inp : matrix) : res matrix :=
  if negb (length inp =? Degree p)%nat then Panic ShapeMismatch
  else
    match
      for_each (seq 0 (length inp))
        (fun i u =>
           match aget inp i, aget inp 0 with
           | Ok ri, Ok r0 =>
               if negb (length ri =? length r0)%nat then (u, Some RaggedInput)
               else (u, None)
           | _, _ => (u, Some RuntimeIndex)
           end) tt
    with
    | (_, Some f) => Panic f
    | (_, None) =>
        do p0 <- aget (interp p) 0;
        do in0 <- aget inp 0;
        let out := makeMatrix (length p0) (length in0) in
        match
          for_each (seq 0 (length inp))
            (fun i out =>
               match aget inp i with
               | Ok ini =>
                   for_each (seq 0 (length ini))
                     (fun j out =>
                        match aget (interp p) i with
                        | Ok pi => xor_column ini pi j out
                        | Panic f => (out, Some f)
                        end) out
               | Panic f => (out, Some f)
               end) out
        with
        | (out, None) => Ok out
        | (_, Some f) => Panic f
        end
    end.

(** [Update] writes into the caller's [out]; the result is [out] as the
    call leaves it and the panic that ended the call, if any.  The rows
    of [out] are taken to be distinct buffers, as they are in a matrix
    returned by [Code]. *)
Definition Update (p : ErasureCoder) (idx : Z) (in_delta : list Z) (out : matrix)
  : matrix * option fault :=
  if idx >=? u8 (Z.of_nat (length (interp p))) then (out, Some IndexOutOfRange)
  else
    match aget (interp p) 0 with
    | Panic f => (out, Some f)
    | Ok p0 =>
        if negb (length out =? length p0)%nat then (out, Some ShapeMismatch)
        else
          match
            for_each (seq 0 (length out))
              (fun i u =>
                 match aget out i with
                 | Ok oi =>
                     if negb (length in_delta =? length oi)%nat
                     then (u, Some RaggedInput)
                     else (u, None)
                 | Panic f => (u, Some f)
                 end) tt
          with
          | (_, Some f) => (out, Some f)
          | (_, None) =>
              for_each (seq 0 (length in_delta))
                (fun j out =>
                   match aget (interp p) (Z.to_nat idx) with
                   | Ok pi => xor_column in_delta pi j out
                   | Panic f => (out, Some f)
                   end) out
          end
    end.

(** *** Vocabulary of the specification *)

(** The element [m[k][j]] of a matrix. *)
Definition entry (m : matrix) (k j : nat) : Z := nth j (nth k m []) 0.

(** [m] has [r] rows, each of length [c]. *)
Definition shaped (m : matrix) (r c : nat) : bool :=
  (length m =? r)%nat && forallb (fun row => (length row =? c)%nat) m.

(** Some row of [m] has a length other than [c]. *)
Definition ragged (m : matrix) (c : nat) : bool :=
  existsb (fun row => negb (length row =? c)%nat) m.

(** XOR over all [i < n] of [f i], accumulated in increasing order of [i]. *)
Definition xor_sum (f : nat -> Z) (n : nat) : Z :=
  fold_left (fun acc i => Z.lxor acc (f i)) (seq 0 n) 0.

(** Pairwise distinct abscissae. *)
Fixpoint distinct (l : list Z) : bool :=
  match l with
  | [] => true
  | x :: l' => forallb (fun y => negb (x =? y)) l' && distinct l'
  end.

(** The Lagrange basis value as the specification writes it: the product,
    over the input indices [k] other than [i], of
    [(x ⊕ x_in[k]) · inv(x_in[i] ⊕ x_in[k])]. *)
Definition gf_prod (l : list Z) : Z := fold_right mult 1 l.

Definition lagrange_basis (in_x : list Z) (i : nat) (x : Z) : Z :=
  gf_prod
    (map (fun k => mult (Z.lxor x (nth k in_x 0))
                     (rd inv (Z.lxor (nth i in_x 0) (nth k in_x 0))))
       (filter (fun k => k <> i) (seq 0 (length in_x)))).

(** The defining formula of the inverse, read off the tables:
    [inv[a] = exp[255 - log[a]]], the read of [exp] being in bounds. *)
Definition inv_by_formula (a : Z) : Prop :=
  tget exp (255 - rd log a) = Some (rd inv a).

End RS.

(** ** Exhaustive case analysis over [uint8] *)

Lemma is_byte_range (a : Z) : is_byte a = true <-> 0 <= a < 256.
Proof. unfold is_byte. rewrite andb_true_iff, Z.leb_le, Z.ltb_lt. tauto. Qed.

Lemma in_all_bytes (a : Z) : is_byte a = true -> In a all_bytes.
Proof.
  intros H. apply is_byte_range in H. unfold all_bytes.
  apply in_map_iff. exists (Z.to_nat a). split; [lia|].
  apply in_seq. lia.
Qed.

Lemma byte_cases (P : Z -> bool) :
  forallb P all_bytes = true -> forall a, is_byte a = true -> P a = true.
Proof.
  intros H a Ha. rewrite forallb_forall in H. apply H, in_all_bytes, Ha.
Qed.

Lemma byte_cases2 (P : Z -> Z -> bool) :
  forallb (fun a => forallb (P a) all_bytes) all_bytes = true ->
  forall a b, is_byte a = true -> is_byte b = true -> P a b = true.
Proof.
  intros H a b Ha Hb.
  apply (byte_cases (P a)); [|exact Hb].
  apply (byte_cases (fun a => forallb (P a) all_bytes) H a Ha).
Qed.

Lemma bytes_ok_lookup (l : list Z) (i : nat) (x : Z) :
  bytes_ok l = true -> l !! i = Some x -> is_byte x = true.
Proof.
  unfold bytes_ok. rewrite forallb_forall. intros H Hi.
  apply H, list_elem_of_In, list_elem_of_lookup. eauto.
Qed.

Lemma rows_ok_lookup (m : list (list Z)) (i : nat) (r : list Z) :
  rows_ok m = true -> m !! i = Some r -> bytes_ok r = true.
Proof.
  unfold rows_ok. rewrite forallb_forall. intros H Hi.
  apply H, list_elem_of_In, list_elem_of_lookup. eauto.
Qed.

Lemma lxor_byte (a b : Z) :
  is_byte a = true -> is_byte b = true -> is_byte (Z.lxor a b) = true.
Proof.
  apply (byte_cases2 (fun a b => is_byte (Z.lxor a b))). vm_compute. reflexivity.
Qed.

Lemma lxor_eq_0 (a b : Z) : Z.lxor a b = 0 <-> a = b.
Proof. apply Z.lxor_eq_0_iff. Qed.

(** ** Laws of the table-driven multiplication *)

Module GFLaws.
Import GF.

Lemma init_ok : init = Some the_tables.
Proof. vm_compute. reflexivity. Qed.

Lemma exp_length : length exp = 255%nat.
Proof. reflexivity. Qed.

Lemma log_length : length log = 256%nat.
Proof. reflexivity. Qed.

Lemma inv_length : length inv = 256%nat.
Proof. reflexivity. Qed.

Lemma rd_exp_byte (i : Z) : is_byte (rd exp i) = true.
Proof.
  unfold rd.
  assert (H : forallb is_byte exp = true) by (vm_compute; reflexivity).
  rewrite forallb_forall in H.
  destruct (nth_in_or_default (Z.to_nat i) exp 0) as [Hin | ->]; [auto | reflexivity].
Qed.

Lemma rd_inv_byte (i : Z) : is_byte (rd inv i) = true.
Proof.
  unfold rd.
  assert (H : forallb is_byte inv = true) by (vm_compute; reflexivity).
  rewrite forallb_forall in H.
  destruct (nth_in_or_default (Z.to_nat i) inv 0) as [Hin | ->]; [auto | reflexivity].
Qed.

Lemma mult_byte (a b : Z) : is_byte (mult a b) = true.
Proof.
  unfold mult. destruct ((a =? 0) || (b =? 0)); [reflexivity | apply rd_exp_byte].
Qed.

Lemma mult_0_l (a : Z) : mult 0 a = 0.
Proof. reflexivity. Qed.

Lemma mult_0_r (a : Z) : mult a 0 = 0.
Proof. unfold mult. rewrite orb_true_r. reflexivity. Qed.

Lemma mult_comm (a b : Z) : mult a b = mult b a.
Proof. unfold mult. rewrite orb_comm, Z.add_comm. reflexivity. Qed.

(** [log] maps the nonzero bytes into [0, 255) and [exp] undoes it. *)
Lemma log_spec (a : Z) :
  is_byte a = true -> a <> 0 ->
  0 <= rd log a < 255 /\ rd exp (rd log a) = a.
Proof.
  intros Ha Hnz.
  pose proof (byte_cases
    (fun a => (a =? 0) ||
              ((0 <=? rd log a) && (rd log a <? 255) && (rd exp (rd log a) =? a)))
    ltac:(vm_compute; reflexivity) a Ha) as H.
  cbv beta in H. apply orb_true_iff in H. destruct H as [H | H]; [lia|].
  rewrite !andb_true_iff in H. lia.
Qed.

(** [exp] maps [0, 255) into the nonzero bytes and [log] undoes it. *)
Lemma exp_spec (i : Z) :
  0 <= i < 255 ->
  is_byte (rd exp i) = true /\ rd exp i <> 0 /\ rd log (rd exp i) = i.
Proof.
  intros Hi.
  assert (Hb : is_byte i = true) by (apply is_byte_range; lia).
  pose proof (byte_cases
    (fun i => (255 <=? i) ||
              (negb (rd exp i =? 0) && (rd log (rd exp i) =? i)))
    ltac:(vm_compute; reflexivity) i Hb) as H.
  cbv beta in H. apply orb_true_iff in H. destruct H as [H | H]; [lia|].
  rewrite andb_true_iff, negb_true_iff in H.
  split; [apply rd_exp_byte | lia].
Qed.

Lemma mult_nz (a b : Z) :
  is_byte a = true -> is_byte b = true -> a <> 0 -> b <> 0 ->
  mult a b = rd exp ((rd log a + rd log b) mod 255).
Proof.
  intros Ha Hb Hza Hzb. unfold mult.
  destruct (log_spec a Ha Hza) as [Hla _], (log_spec b Hb Hzb) as [Hlb _].
  replace ((a =? 0) || (b =? 0)) with false by (symmetry; apply orb_false_iff; lia).
  f_equal. destruct (Z.geb_spec (rd log a + rd log b) 255).
  - replace (rd log a + rd log b) with
      ((rd log a + rd log b - 255) + 1 * 255) at 2 by ring.
    rewrite Z.mod_add by lia. rewrite Z.mod_small; lia.
  - rewrite Z.mod_small; lia.
Qed.

Lemma mult_nz_neq_0 (a b : Z) :
  is_byte a = true -> is_byte b = true -> a <> 0 -> b <> 0 -> mult a b <> 0.
Proof.
  intros Ha Hb Hza Hzb. rewrite mult_nz by assumption.
  apply exp_spec, Z.mod_pos_bound. lia.
Qed.

Lemma log_mult (a b : Z) :
  is_byte a = true -> is_byte b = true -> a <> 0 -> b <> 0 ->
  rd log (mult a b) = (rd log a + rd log b) mod 255.
Proof.
  intros Ha Hb Hza Hzb. rewrite mult_nz by assumption.
  apply exp_spec, Z.mod_pos_bound. lia.
Qed.

Lemma mult_assoc (a b c : Z) :
  is_byte a = true -> is_byte b = true -> is_byte c = true ->
  mult a (mult b c) = mult (mult a b) c.
Proof.
  intros Ha Hb Hc.
  destruct (Z.eq_dec a 0) as [-> | Hza]; [reflexivity|].
  destruct (Z.eq_dec b 0) as [-> | Hzb];
    [rewrite mult_0_l, mult_0_r; reflexivity|].
  destruct (Z.eq_dec c 0) as [-> | Hzc]; [rewrite !mult_0_r; reflexivity|].
  rewrite (mult_nz a (mult b c)), (mult_nz (mult a b) c);
    auto using mult_byte, mult_nz_neq_0.
  rewrite !log_mult by assumption.
  f_equal. rewrite Z.add_mod_idemp_l, Z.add_mod_idemp_r by lia.
  f_equal. ring.
Qed.

Lemma mult_1_l (a : Z) : is_byte a = true -> mult 1 a = a.
Proof.
  intros Ha.
  pose proof (byte_cases (fun a => mult 1 a =? a) ltac:(vm_compute; reflexivity) a Ha).
  cbv beta in *. lia.
Qed.

Lemma mult_1_r (a : Z) : is_byte a = true -> mult a 1 = a.
Proof. intros Ha. rewrite mult_comm. apply mult_1_l, Ha. Qed.

Lemma mult_inv_r (a : Z) :
  is_byte a = true -> a <> 0 -> mult a (rd inv a) = 1.
Proof.
  intros Ha Hnz.
  pose proof (byte_cases (fun a => (a =? 0) || (mult a (rd inv a) =? 1))
    ltac:(vm_compute; reflexivity) a Ha) as H.
  cbv beta in H. apply orb_true_iff in H. lia.
Qed.

(** Multiplication by [a] is GF(2)-linear in its second argument: the
    product is the XOR of the products with the bits of [b]. *)
Definition bit_terms (ms : list Z) (b : Z) : Z :=
  fold_right (fun '(i, m) acc => Z.lxor (if Z.testbit b (Z.of_nat i) then m else 0) acc)
    0 (combine (seq 0 (length ms)) ms).

Definition basis_products (a : Z) : list Z :=
  map (fun i => mult a (Z.shiftl 1 (Z.of_nat i))) (seq 0 8).

Lemma mult_bits (a b : Z) :
  is_byte a = true -> is_byte b = true ->
  mult a b = bit_terms (basis_products a) b.
Proof.
  intros Ha Hb.
  pose proof (byte_cases
    (fun a => let ms := basis_products a in
              forallb (fun b => mult a b =? bit_terms ms b) all_bytes)
    ltac:(vm_compute; reflexivity) a Ha) as H.
  cbv beta zeta in H.
  pose proof (byte_cases (fun b => mult a b =? bit_terms (basis_products a) b) H b Hb).
  cbv beta in *. lia.
Qed.

Lemma lxor_swap4 (a b c d : Z) :
  Z.lxor (Z.lxor a b) (Z.lxor c d) = Z.lxor (Z.lxor a c) (Z.lxor b d).
Proof.
  rewrite !Z.lxor_assoc. f_equal.
  rewrite <- !Z.lxor_assoc. f_equal. apply Z.lxor_comm.
Qed.

Lemma bit_terms_lxor (ms : list Z) (b c : Z) :
  bit_terms ms (Z.lxor b c) = Z.lxor (bit_terms ms b) (bit_terms ms c).
Proof.
  unfold bit_terms. induction (combine (seq 0 (length ms)) ms) as [| [i m] l IH].
  - reflexivity.
  - simpl. rewrite IH, Z.lxor_spec, <- lxor_swap4. f_equal.
    destruct (Z.testbit b (Z.of_nat i)), (Z.testbit c (Z.of_nat i)); simpl;
      auto using Z.lxor_nilpotent, Z.lxor_0_r, Z.lxor_0_l.
Qed.

Lemma mult_lxor_r (a b c : Z) :
  is_byte a = true -> is_byte b = true -> is_byte c = true ->
  mult a (Z.lxor b c) = Z.lxor (mult a b) (mult a c).
Proof.
  intros Ha Hb Hc.
  rewrite !mult_bits by auto using lxor_byte. apply bit_terms_lxor.
Qed.

Lemma mult_lxor_l (a b c : Z) :
  is_byte a = true -> is_byte b = true -> is_byte c = true ->
  mult (Z.lxor a b) c = Z.lxor (mult a c) (mult b c).
Proof.
  intros. rewrite !(mult_comm _ c). apply mult_lxor_r; assumption.
Qed.

(** No array read of [mult] is out of bounds on bytes. *)
Lemma mult_checked_ok (a b : Z) :
  is_byte a = true -> is_byte b = true -> mult_checked a b = Some (mult a b).
Proof.
  intros Ha Hb.
  pose proof (byte_cases2 (fun a b =>
    match mult_checked a b with Some v => v =? mult a b | None => false end)
    ltac:(vm_compute; reflexivity) a b Ha Hb) as H.
  cbv beta in H. destruct (mult_checked a b); [f_equal; lia | discriminate].
Qed.

End GFLaws.

(** ** GF(2^8) as a field on a carrier of bytes *)

Module GFField.
Import GF GFLaws.

Record gf : Type := Gf { gval : Z; gval_ok : is_byte gval = true }.

Lemma gf_eq (a b : gf) : gval a = gval b -> a = b.
Proof.
  destruct a as [a Ha], b as [b Hb]. simpl. intros ->.
  f_equal. apply Eqdep_dec.UIP_dec, Bool.bool_dec.
Qed.

Definition gzero : gf := Gf 0 eq_refl.
Definition gone : gf := Gf 1 eq_refl.
Definition gadd (a b : gf) : gf :=
  Gf (Z.lxor (gval a) (gval b)) (lxor_byte _ _ (gval_ok a) (gval_ok b)).
Definition gsub (a b : gf) : gf := gadd a b.
Definition gopp (a : gf) : gf := a.
Definition gmul (a b : gf) : gf := Gf (mult (gval a) (gval b)) (mult_byte _ _).
Definition ginv (a : gf) : gf := Gf (rd inv (gval a)) (rd_inv_byte _).
Definition gdiv (a b : gf) : gf := gmul a (ginv b).

Lemma gf_field : field_theory gzero gone gadd gmul gsub gopp gdiv ginv eq.
Proof.
  constructor; [constructor | | |].
  - intros x. apply gf_eq. apply Z.lxor_0_l.
  - intros x y. apply gf_eq. apply Z.lxor_comm.
  - intros x y z. apply gf_eq. simpl. symmetry. apply Z.lxor_assoc.
  - intros x. apply gf_eq. apply mult_1_l, gval_ok.
  - intros x y. apply gf_eq. apply mult_comm.
  - intros x y z. apply gf_eq. apply mult_assoc; apply gval_ok.
  - intros x y z. apply gf_eq. apply mult_lxor_l; apply gval_ok.
  - reflexivity.
  - intros x. apply gf_eq. apply Z.lxor_nilpotent.
  - discriminate.
  - reflexivity.
  - intros p Hp. apply gf_eq. simpl. rewrite mult_comm. apply mult_inv_r.
    + apply gval_ok.
    + intros H. apply Hp, gf_eq, H.
Qed.

Add Field gf_field_tac : gf_field.

Lemma gsub_neq_0 (a b : gf) : a <> b -> gsub a b <> gzero.
Proof.
  intros Hab H. apply Hab, gf_eq, lxor_eq_0.
  exact (f_equal gval H).
Qed.

(** The Lagrange basis over three nodes. *)
Definition basis3 (n0 n1 n2 : gf) (i : nat) (x : gf) : gf :=
  match i with
  | 0%nat => gmul (gmul gone (gdiv (gsub x n1) (gsub n0 n1))) (gdiv (gsub x n2) (gsub n0 n2))
  | 1%nat => gmul (gmul gone (gdiv (gsub x n0) (gsub n1 n0))) (gdiv (gsub x n2) (gsub n1 n2))
  | _ => gmul (gmul gone (gdiv (gsub x n0) (gsub n2 n0))) (gdiv (gsub x n1) (gsub n2 n1))
  end.

Definition interp3 (n0 n1 n2 d0 d1 d2 x : gf) : gf :=
  gadd (gadd (gadd gzero (gmul d0 (basis3 n0 n1 n2 0 x))) (gmul d1 (basis3 n0 n1 n2 1 x)))
       (gmul d2 (basis3 n0 n1 n2 2 x)).

Lemma interp3_reinterp (a0 a1 a2 b0 b1 b2 d0 d1 d2 y : gf) :
  a0 <> a1 -> a0 <> a2 -> a1 <> a2 ->
  b0 <> b1 -> b0 <> b2 -> b1 <> b2 ->
  interp3 b0 b1 b2
    (interp3 a0 a1 a2 d0 d1 d2 b0)
    (interp3 a0 a1 a2 d0 d1 d2 b1)
    (interp3 a0 a1 a2 d0 d1 d2 b2) y
  = interp3 a0 a1 a2 d0 d1 d2 y.
Proof.
  intros. unfold interp3, basis3.
  field.
  repeat split; apply gsub_neq_0; congruence.
Qed.

End GFField.

(** ** Loops *)

Section Loops.
Context {S : Type}.

Lemma for_each_app (l1 l2 : list nat) (body : nat -> S -> S * option fault) (s : S) :
  for_each (l1 ++ l2) body s =
  match for_each l1 body s with
  | (s', None) => for_each l2 body s'
  | (s', Some f) => (s', Some f)
  end.
Proof.
  revert s. induction l1 as [| i l1 IH]; intros s; simpl.
  - reflexivity.
  - destruct (body i s) as [s' [f |]]; [reflexivity | apply IH].
Qed.

(** The loop rule for a body that never panics while the invariant holds. *)
Lemma for_each_seq_inv (I : nat -> S -> Prop) (body : nat -> S -> S * option fault)
    (n : nat) (s : S) :
  I 0%nat s ->
  (forall i s, (i < n)%nat -> I i s -> exists s', body i s = (s', None) /\ I (Datatypes.S i) s') ->
  exists s', for_each (seq 0 n) body s = (s', None) /\ I n s'.
Proof.
  intros H0 Hstep. induction n as [| n IH].
  - exists s. split; [reflexivity | exact H0].
  - destruct IH as (s1 & Hrun & HI).
    { intros i s0 Hi. apply Hstep. lia. }
    destruct (Hstep n s1 ltac:(lia) HI) as (s2 & Hb & HI2).
    exists s2. rewrite seq_S, for_each_app, Hrun. simpl. rewrite Hb. auto.
Qed.

Lemma fold_seq_inv (I : nat -> S -> Prop) (f : S -> nat -> S) (n : nat) (s : S) :
  I 0%nat s ->
  (forall i s, (i < n)%nat -> I i s -> I (Datatypes.S i) (f s i)) ->
  I n (fold_left f (seq 0 n) s).
Proof.
  intros H0 Hstep. induction n as [| n IH].
  - exact H0.
  - rewrite seq_S, fold_left_app. simpl. apply Hstep; [lia|].
    apply IH. intros i s0 Hi. apply Hstep. lia.
Qed.

End Loops.

(** ** Matrices *)

Module Matrix.
Import RS.

Definition shape (m : matrix) (r c : nat) : Prop :=
  length m = r /\ forall k row, m !! k = Some row -> length row = c.

Lemma shaped_shape (m : matrix) (r c : nat) : shaped m r c = true <-> shape m r c.
Proof.
  unfold shaped, shape. rewrite andb_true_iff, Nat.eqb_eq, forallb_forall.
  split; intros [Hl Hr]; (split; [exact Hl|]).
  - intros k row Hk. apply Nat.eqb_eq, Hr, list_elem_of_In, list_elem_of_lookup. eauto.
  - intros row Hin. apply list_elem_of_In, list_elem_of_lookup in Hin as [k Hk].
    apply Nat.eqb_eq. eauto.
Qed.

Lemma shape_row (m : matrix) (r c k : nat) :
  shape m r c -> (k < r)%nat -> exists row, m !! k = Some row /\ length row = c.
Proof.
  intros [Hl Hr] Hk. destruct (lookup_lt_is_Some_2 m k) as [row Hrow]; [lia|].
  exists row. eauto.
Qed.

Lemma entry_lookup (m : matrix) (k j : nat) (row : list Z) :
  m !! k = Some row -> entry m k j = nth j row 0.
Proof. intros H. unfold entry. rewrite (nth_lookup_Some _ _ _ _ H). reflexivity. Qed.

Lemma entry_nth (m : matrix) (k j : nat) : entry m k j = nth j (nth k m []) 0.
Proof. reflexivity. Qed.

Lemma row_ext (l l' : list Z) (c : nat) :
  length l = c -> length l' = c ->
  (forall j, (j < c)%nat -> nth j l 0 = nth j l' 0) -> l = l'.
Proof.
  intros Hl Hl' H. apply (nth_ext _ _ 0 0); [congruence|].
  intros j Hj. apply H. rewrite <- Hl. exact Hj.
Qed.

Lemma matrix_ext (m m' : matrix) (r c : nat) :
  shape m r c -> shape m' r c ->
  (forall k j, (k < r)%nat -> (j < c)%nat -> entry m k j = entry m' k j) ->
  m = m'.
Proof.
  intros Hm Hm' H. apply list_eq_same_length with r; try apply Hm; try apply Hm'.
  intros k row row' Hk Hrow Hrow'.
  apply (row_ext _ _ c).
  - eapply Hm, Hrow.
  - eapply Hm', Hrow'.
  - intros j Hj. specialize (H k j Hk Hj).
    rewrite (entry_lookup _ _ _ _ Hrow), (entry_lookup _ _ _ _ Hrow') in H. exact H.
Qed.

Lemma shape_makeMatrix (r c : nat) : shape (makeMatrix r c) r c.
Proof.
  split; [apply length_replicate|].
  intros k row H. apply lookup_replicate in H as [-> _]. apply length_replicate.
Qed.

Lemma nth_replicate_0 (c j : nat) : nth j (replicate c 0) 0 = 0.
Proof.
  rewrite nth_lookup. destruct (replicate c 0 !! j) eqn:E; [|reflexivity].
  apply lookup_replicate in E as [-> _]. reflexivity.
Qed.

Lemma entry_makeMatrix (r c k j : nat) : entry (makeMatrix r c) k j = 0.
Proof.
  unfold entry, makeMatrix. rewrite (nth_lookup (replicate r _)).
  destruct (replicate r (replicate c 0) !! k) eqn:E; simpl.
  - apply lookup_replicate in E as [-> _]. apply nth_replicate_0.
  - destruct j; reflexivity.
Qed.

(** The effect of a store into row [k], column [j]. *)
Lemma store_shape (m : matrix) (r c k j : nat) (row : list Z) (v : Z) :
  shape m r c -> m !! k = Some row -> shape (<[k := <[j := v]> row]> m) r c.
Proof.
  intros [Hl Hr] Hrow. split; [rewrite length_insert; exact Hl|].
  intros k' row' H. rewrite list_lookup_insert in H. case_decide.
  - injection H as <-. rewrite length_insert. eauto.
  - eauto.
Qed.

Lemma store_entry (m : matrix) (r c k j : nat) (row : list Z) (v : Z) (k' j' : nat) :
  shape m r c -> m !! k = Some row -> (j < c)%nat ->
  entry (<[k := <[j := v]> row]> m) k' j' =
  if decide (k' = k /\ j' = j) then v else entry m k' j'.
Proof.
  intros [Hl Hr] Hrow Hj.
  assert (Hk : (k < length m)%nat) by (eapply lookup_lt_Some, Hrow).
  assert (Hc : length row = c) by eauto.
  unfold entry. rewrite (nth_lookup (<[k := _]> m)), list_lookup_insert.
  rewrite (nth_lookup m k').
  destruct (decide (k = k')) as [<- | Hne].
  - rewrite decide_True by auto. rewrite Hrow. simpl.
    rewrite !nth_lookup, list_lookup_insert.
    destruct (decide (j = j')) as [<- | Hne].
    + rewrite !decide_True by (auto with lia). reflexivity.
    + rewrite !decide_False by (intros [? ?]; congruence). reflexivity.
  - rewrite !decide_False by (intros [? ?]; congruence). reflexivity.
Qed.

End Matrix.

(** ** The loops of the coder *)

Module RSLoops.
Import GF GFLaws RS Matrix.

Ltac index_cases :=
  repeat case_decide;
  try (exfalso; lia);
  repeat match goal with H : _ /\ _ |- _ => destruct H end;
  subst; try reflexivity.

Lemma aget_ok {A : Type} (l : list A) (i : nat) (d : A) :
  (i < length l)%nat -> aget l i = Ok (nth i l d).
Proof.
  intros Hi. unfold aget.
  destruct (lookup_lt_is_Some_2 l i Hi) as [x Hx].
  rewrite Hx, (nth_lookup_Some _ _ _ _ Hx). reflexivity.
Qed.

Lemma aget_row (m : matrix) (r c k : nat) :
  shape m r c -> (k < r)%nat ->
  exists row, aget m k = Ok row /\ length row = c /\
    forall j, nth j row 0 = entry m k j.
Proof.
  intros Hs Hk. destruct (shape_row _ _ _ _ Hs Hk) as (row & Hrow & Hlen).
  exists row. unfold aget. rewrite Hrow. repeat split; [exact Hlen|].
  intros j. symmetry. apply entry_lookup, Hrow.
Qed.

Lemma xor_sum_S (f : nat -> Z) (n : nat) :
  xor_sum f (S n) = Z.lxor (xor_sum f n) (f n).
Proof. unfold xor_sum. rewrite seq_S, fold_left_app. reflexivity. Qed.

Lemma xor_at_ok (out : matrix) (r c k j : nat) (v : Z) :
  shape out r c -> (k < r)%nat -> (j < c)%nat ->
  exists out', xor_at out k j v = (out', None) /\ shape out' r c /\
    forall k' j', entry out' k' j' =
      if decide (k' = k /\ j' = j) then Z.lxor (entry out k j) v else entry out k' j'.
Proof.
  intros Hs Hk Hj. destruct (shape_row _ _ _ _ Hs Hk) as (row & Hrow & Hlen).
  destruct (lookup_lt_is_Some_2 row j) as [x Hx]; [lia|].
  unfold xor_at. rewrite Hrow, Hx. eexists. split; [reflexivity|]. split.
  - eapply store_shape; eauto.
  - intros k' j'. rewrite (store_entry _ r c) by auto.
    rewrite (entry_lookup _ _ _ _ Hrow), (nth_lookup_Some _ _ _ _ Hx). reflexivity.
Qed.

(** One column: the [k] loop. *)
Lemma xor_column_ok (src coef : list Z) (j : nat) (out : matrix) (r c : nat) :
  shape out r c -> length coef = r -> length src = c -> (j < c)%nat ->
  exists out', xor_column src coef j out = (out', None) /\ shape out' r c /\
    forall k' j', (k' < r)%nat ->
      entry out' k' j' =
      if decide (j' = j)
      then Z.lxor (entry out k' j') (mult (nth j src 0) (nth k' coef 0))
      else entry out k' j'.
Proof.
  intros Hs Hcoef Hsrc Hj. unfold xor_column. rewrite Hcoef.
  destruct (for_each_seq_inv
    (fun k st => shape st r c /\
       forall k' j', entry st k' j' =
         if decide (j' = j /\ (k' < k)%nat)
         then Z.lxor (entry out k' j') (mult (nth j src 0) (nth k' coef 0))
         else entry out k' j')
    (fun k out =>
       match aget src j, aget coef k with
       | Ok a, Ok c => xor_at out k j (mult a c)
       | _, _ => (out, Some RuntimeIndex)
       end) r out) as (out' & Hrun & Hsh & Hent).
  - split; [exact Hs|]. intros k' j'. rewrite decide_False by lia. reflexivity.
  - intros k st Hk [Hst Hent].
    rewrite (aget_ok src j 0), (aget_ok coef k 0) by lia.
    destruct (xor_at_ok st r c k j (mult (nth j src 0) (nth k coef 0)) Hst Hk Hj)
      as (st' & Hx & Hst' & Hent').
    exists st'. split; [exact Hx|]. split; [exact Hst'|].
    intros k' j'. rewrite Hent', !Hent.
    index_cases.
  - exists out'. split; [exact Hrun|]. split; [exact Hsh|].
    intros k' j' Hk'. rewrite Hent.
    index_cases.
Qed.

(** All columns: the [j] loop around the [k] loop. *)
Lemma xor_rows_ok (src coef : list Z) (out : matrix) (r c : nat)
    (body : nat -> matrix -> matrix * option fault) :
  (forall j o, body j o = xor_column src coef j o) ->
  shape out r c -> length coef = r -> length src = c ->
  exists out', for_each (seq 0 c) body out = (out', None) /\ shape out' r c /\
    forall k j, (k < r)%nat -> (j < c)%nat ->
      entry out' k j = Z.lxor (entry out k j) (mult (nth j src 0) (nth k coef 0)).
Proof.
  intros Hbody Hs Hcoef Hsrc.
  destruct (for_each_seq_inv
    (fun j st => shape st r c /\
       forall k' j', (k' < r)%nat ->
         entry st k' j' =
         if decide (j' < j)%nat
         then Z.lxor (entry out k' j') (mult (nth j' src 0) (nth k' coef 0))
         else entry out k' j')
    body c out) as (out' & Hrun & Hsh & Hent).
  - split; [exact Hs|]. intros k' j' _. rewrite decide_False by lia. reflexivity.
  - intros j st Hj [Hst Hent]. rewrite Hbody.
    destruct (xor_column_ok src coef j st r c Hst Hcoef Hsrc Hj)
      as (st' & Hx & Hst' & Hent').
    exists st'. split; [exact Hx|]. split; [exact Hst'|].
    intros k' j' Hk'. rewrite Hent', !Hent by exact Hk'.
    index_cases.
  - exists out'. split; [exact Hrun|]. split; [exact Hsh|].
    intros k j Hk Hj. rewrite Hent by exact Hk. rewrite decide_True by exact Hj.
    reflexivity.
Qed.

(** The closed form of [Code] on a coder whose matrix is rectangular. *)
Lemma Code_closed (p : ErasureCoder) (inp : matrix) (n r c : nat) :
  shape (interp p) n r -> shape inp n c -> (0 < n)%nat ->
  exists out, Code p inp = Ok out /\ shape out r c /\
    forall k j, (k < r)%nat -> (j < c)%nat ->
      entry out k j = xor_sum (fun i => mult (entry inp i j) (entry (interp p) i k)) n.
Proof.
  intros Hp Hin Hn. unfold Code, Degree.
  rewrite (proj1 Hin), (proj1 Hp), Nat.eqb_refl. simpl.
  destruct (aget_row _ _ _ 0%nat Hin Hn) as (in0 & Hin0 & Hlen0 & _).
  destruct (aget_row _ _ _ 0%nat Hp Hn) as (p0 & Hp0 & Hlp0 & _).
  destruct (for_each_seq_inv (fun _ _ => True)
    (fun i (u : unit) =>
       match aget inp i, aget inp 0 with
       | Ok ri, Ok r0 =>
           if negb (length ri =? length r0)%nat then (u, Some RaggedInput)
           else (u, None)
       | _, _ => (u, Some RuntimeIndex)
       end) n tt I) as (u & -> & _).
  { intros i s Hi _. destruct (aget_row _ _ _ i Hin Hi) as (ri & Hri & Hlen & _).
    rewrite Hri, Hin0, Hlen, Hlen0, Nat.eqb_refl. simpl. eauto. }
  rewrite Hp0, Hin0. simpl. rewrite Hlp0, Hlen0.
  destruct (for_each_seq_inv
    (fun i st => shape st r c /\
       forall k j, (k < r)%nat -> (j < c)%nat ->
         entry st k j = xor_sum (fun i => mult (entry inp i j) (entry (interp p) i k)) i)
    (fun i out =>
       match aget inp i with
       | Ok ini =>
           for_each (seq 0 (length ini))
             (fun j out =>
                match aget (interp p) i with
                | Ok pi => xor_column ini pi j out
                | Panic f => (out, Some f)
                end) out
       | Panic f => (out, Some f)
       end) n (makeMatrix r c)) as (out & -> & Hsh & Hent).
  - split; [apply shape_makeMatrix|]. intros k j _ _. apply entry_makeMatrix.
  - intros i st Hi [Hst Hent].
    destruct (aget_row _ _ _ i Hin Hi) as (ini & -> & Hlen & Hini).
    destruct (aget_row _ _ _ i Hp Hi) as (pi & Hpi & Hlpi & Hpie).
    rewrite Hlen.
    destruct (xor_rows_ok ini pi st r c
      (fun j out => match aget (interp p) i with
                    | Ok pi => xor_column ini pi j out
                    | Panic f => (out, Some f)
                    end)) as (st' & Hrun & Hst' & Hent'); auto.
    { intros j o. rewrite Hpi. reflexivity. }
    exists st'. split; [exact Hrun|]. split; [exact Hst'|].
    intros k j Hk Hj. rewrite Hent', Hent, xor_sum_S, Hini, Hpie by assumption.
    reflexivity.
  - exists out. auto.
Qed.

End RSLoops.

(** ** The coefficient matrix *)

Module RSMatrix.
Import GF GFLaws RS Matrix RSLoops.

Lemma set_at_store (m : matrix) (i j : nat) (v : Z) (row : list Z) :
  m !! i = Some row -> set_at m i j v = <[i := <[j := v]> row]> m.
Proof.
  intros Hrow. unfold set_at. apply list_eq. intros k.
  rewrite list_lookup_alter, list_lookup_insert.
  assert ((i < length m)%nat) by (eapply lookup_lt_Some, Hrow).
  destruct (decide (i = k)) as [<- | Hne].
  - rewrite decide_True by auto. rewrite Hrow. reflexivity.
  - rewrite decide_False by tauto. reflexivity.
Qed.

(** One row of the matrix: the [j] loop of [NewErasureCoder]. *)
Lemma fill_row (g : nat -> Z) (m : matrix) (r c i : nat) :
  shape m r c -> (i < r)%nat ->
  let m' := fold_left (fun m j => set_at m i j (g j)) (seq 0 c) m in
  shape m' r c /\
  (forall i' j', i' <> i -> entry m' i' j' = entry m i' j') /\
  (forall j', (j' < c)%nat -> entry m' i j' = g j').
Proof.
  intros Hs Hi.
  apply (fold_seq_inv
    (fun j st => shape st r c /\
       (forall i' j', i' <> i -> entry st i' j' = entry m i' j') /\
       (forall j', (j' < j)%nat -> entry st i j' = g j'))).
  - split; [exact Hs|]. split; [reflexivity | intros; lia].
  - intros j st Hj (Hst & Hother & Hrow).
    destruct (shape_row _ _ _ _ Hst Hi) as (row & Hr & Hlen).
    rewrite (set_at_store _ _ _ _ _ Hr). split; [|split].
    + eapply store_shape; eauto.
    + intros i' j' Hne. rewrite (store_entry _ r c) by auto.
      rewrite decide_False by tauto. apply Hother, Hne.
    + intros j' Hj'. rewrite (store_entry _ r c) by auto.
      destruct (decide (j' = j)) as [-> | Hne].
      * rewrite decide_True by auto. reflexivity.
      * rewrite decide_False by tauto. apply Hrow. lia.
Qed.

Lemma NewErasureCoder_spec (in_x out_x : list Z) :
  shape (interp (NewErasureCoder in_x out_x)) (length in_x) (length out_x) /\
  forall i j, (i < length in_x)%nat -> (j < length out_x)%nat ->
    entry (interp (NewErasureCoder in_x out_x)) i j = lagrange in_x i (nth j out_x 0).
Proof.
  unfold NewErasureCoder. simpl.
  apply (fold_seq_inv
    (fun i st => shape st (length in_x) (length out_x) /\
       forall i' j, (i' < i)%nat -> (j < length out_x)%nat ->
         entry st i' j = lagrange in_x i' (nth j out_x 0))).
  - split; [apply shape_makeMatrix | intros; lia].
  - intros i st Hi [Hst Hent].
    destruct (fill_row (fun j => lagrange in_x i (nth j out_x 0)) st _ _ i Hst Hi)
      as (Hs' & Hother & Hrow).
    split; [exact Hs'|]. intros i' j Hi' Hj.
    destruct (decide (i' = i)) as [-> | Hne].
    + apply Hrow, Hj.
    + rewrite Hother by exact Hne. apply Hent; [lia | exact Hj].
Qed.

Lemma NewErasureCoder_shape (in_x out_x : list Z) :
  shape (interp (NewErasureCoder in_x out_x)) (length in_x) (length out_x).
Proof. apply NewErasureCoder_spec. Qed.

Lemma NewErasureCoder_entry (in_x out_x : list Z) (i j : nat) :
  (i < length in_x)%nat -> (j < length out_x)%nat ->
  entry (interp (NewErasureCoder in_x out_x)) i j = lagrange in_x i (nth j out_x 0).
Proof. apply NewErasureCoder_spec. Qed.

Lemma Degree_NewErasureCoder (in_x out_x : list Z) :
  Degree (NewErasureCoder in_x out_x) = length in_x.
Proof. apply NewErasureCoder_shape. Qed.

Lemma NumOutputs_NewErasureCoder (in_x out_x : list Z) :
  in_x <> [] -> NumOutputs (NewErasureCoder in_x out_x) = Ok (length out_x).
Proof.
  intros Hne. unfold NumOutputs.
  destruct (aget_row _ _ _ 0%nat (NewErasureCoder_shape in_x out_x)) as (r0 & -> & Hl & _).
  - destruct in_x; [congruence | simpl; lia].
  - simpl. rewrite Hl. reflexivity.
Qed.

(** *** The Lagrange products *)

Definition lagrange_step (in_x : list Z) (i : nat) (xj : Z) (r : Z) (kx : nat * Z) : Z :=
  let '(k, xk) := kx in
  if (k =? i)%nat then r
  else mult r (mult (Z.lxor xj xk) (rd inv (Z.lxor (nth i in_x 0) xk))).

Lemma lagrange_fold (in_x : list Z) (i : nat) (xj : Z) :
  lagrange in_x i xj =
  fold_left (lagrange_step in_x i xj) (combine (seq 0 (length in_x)) in_x) 1.
Proof.
  unfold lagrange. f_equal.
Qed.

Lemma in_enumerate (l : list Z) (k : nat) (x : Z) :
  In (k, x) (combine (seq 0 (length l)) l) <-> l !! k = Some x.
Proof.
  rewrite <- list_elem_of_In, list_elem_of_lookup. split.
  - intros [n Hn]. 
    assert (Hlen : (n < length l)%nat).
    { apply lookup_lt_Some in Hn. rewrite length_combine, length_seq in Hn. lia. }
    destruct (lookup_lt_is_Some_2 l n Hlen) as [y Hy].
    assert (combine (seq 0 (length l)) l !! n = Some (n, y)) as E.
    { unfold combine. fold (zip (seq 0 (length l)) l).
      apply lookup_zip_with_Some. exists n, y. split; [reflexivity|].
      split; [apply lookup_seq_lt; lia | exact Hy]. }
    rewrite E in Hn. injection Hn as <- <-. exact Hy.
  - intros Hk. exists k. 
    apply lookup_zip_with_Some. exists k, x. split; [reflexivity|].
    split; [apply lookup_seq_lt; eapply lookup_lt_Some, Hk | exact Hk].
Qed.

End RSMatrix.

Module Lagrange.
Import GF GFLaws RS Matrix RSLoops RSMatrix.

Lemma enumerate_map (l : list Z) :
  combine (seq 0 (length l)) l = map (fun k => (k, nth k l 0)) (seq 0 (length l)).
Proof.
  apply list_eq. intros n.
  change (combine (seq 0 (length l)) l) with (zip_with pair (seq 0 (length l)) l).
  rewrite lookup_zip_with, list_lookup_fmap.
  destruct (decide (n < length l)%nat) as [Hn | Hn].
  - rewrite lookup_seq_lt by exact Hn. simpl.
    destruct (lookup_lt_is_Some_2 l n Hn) as [x Hx].
    rewrite Hx, (nth_lookup_Some _ _ _ _ Hx). reflexivity.
  - rewrite lookup_seq_ge by lia. reflexivity.
Qed.

Definition factor (in_x : list Z) (i : nat) (x : Z) (k : nat) : Z :=
  mult (Z.lxor x (nth k in_x 0)) (rd inv (Z.lxor (nth i in_x 0) (nth k in_x 0))).

Lemma lagrange_indices (in_x : list Z) (i : nat) (x : Z) :
  lagrange in_x i x =
  fold_left (fun r k => if (k =? i)%nat then r else mult r (factor in_x i x k))
    (seq 0 (length in_x)) 1.
Proof.
  rewrite lagrange_fold, enumerate_map.
  generalize (seq 0 (length in_x)) 1. intros ks.
  induction ks as [| k ks IH]; intros r; simpl; [reflexivity | apply IH].
Qed.

Lemma gf_prod_byte (l : list Z) : is_byte (gf_prod l) = true.
Proof. destruct l; simpl; [reflexivity | apply mult_byte]. Qed.

(** The loop of [lagrange] computes the product the specification writes. *)
Lemma lagrange_is_basis (in_x : list Z) (i : nat) (x : Z) :
  lagrange in_x i x = lagrange_basis in_x i x.
Proof.
  rewrite lagrange_indices. unfold lagrange_basis.
  change (fun k => mult (Z.lxor x (nth k in_x 0))
                     (rd inv (Z.lxor (nth i in_x 0) (nth k in_x 0))))
    with (factor in_x i x).
  assert (H : forall ks r, is_byte r = true ->
    fold_left (fun r k => if (k =? i)%nat then r else mult r (factor in_x i x k)) ks r
    = mult r (gf_prod (map (factor in_x i x) (filter (fun k => k <> i) ks)))).
  { induction ks as [| k ks IH]; intros r Hr; simpl.
    - symmetry. apply mult_1_r, Hr.
    - rewrite filter_cons. destruct (Nat.eqb_spec k i) as [-> | Hne].
      + rewrite decide_False by tauto. apply IH, Hr.
      + rewrite decide_True by exact Hne. rewrite IH by apply mult_byte.
        simpl. symmetry.
        apply mult_assoc; auto using mult_byte, gf_prod_byte; apply mult_byte. }
  rewrite H by reflexivity. apply mult_1_l, gf_prod_byte.
Qed.

Lemma lagrange_byte (in_x : list Z) (i : nat) (x : Z) :
  is_byte (lagrange in_x i x) = true.
Proof. rewrite lagrange_is_basis. apply gf_prod_byte. Qed.

Lemma fold_zero (in_x : list Z) (i : nat) (x : Z) (ks : list nat) :
  fold_left (fun r k => if (k =? i)%nat then r else mult r (factor in_x i x k)) ks 0 = 0.
Proof.
  induction ks as [| k ks IH]; simpl; [reflexivity|].
  destruct (k =? i)%nat; [apply IH | rewrite mult_0_l; apply IH].
Qed.

(** A zero factor annihilates the product. *)
Lemma lagrange_zero_factor (in_x : list Z) (i k : nat) (x : Z) :
  (k < length in_x)%nat -> k <> i -> factor in_x i x k = 0 ->
  lagrange in_x i x = 0.
Proof.
  intros Hk Hne Hf. rewrite lagrange_indices.
  assert (Hin : In k (seq 0 (length in_x))) by (apply in_seq; lia).
  generalize 1. induction (seq 0 (length in_x)) as [| k' ks IH]; intros r;
    [destruct Hin|]. simpl.
  destruct Hin as [-> | Hin].
  - destruct (Nat.eqb_spec k i); [contradiction|].
    rewrite Hf, mult_0_r. apply fold_zero.
  - apply IH, Hin.
Qed.

Lemma distinct_NoDup (l : list Z) : distinct l = true -> NoDup l.
Proof.
  induction l as [| x l IH]; simpl; [constructor|].
  rewrite andb_true_iff, forallb_forall. intros [Hx Hl]. constructor; [|auto].
  intros Hin. apply list_elem_of_In, Hx in Hin.
  rewrite Z.eqb_refl in Hin. discriminate.
Qed.

Lemma distinct_nth (l : list Z) (i k : nat) :
  distinct l = true -> (i < length l)%nat -> (k < length l)%nat -> i <> k ->
  nth i l 0 <> nth k l 0.
Proof.
  intros Hd Hi Hk Hne Heq.
  destruct (lookup_lt_is_Some_2 l i Hi) as [x Hx].
  destruct (lookup_lt_is_Some_2 l k Hk) as [y Hy].
  rewrite (nth_lookup_Some _ _ _ _ Hx), (nth_lookup_Some _ _ _ _ Hy) in Heq. subst y.
  apply Hne. eapply NoDup_lookup; eauto using distinct_NoDup.
Qed.

Lemma bytes_ok_nth (l : list Z) (i : nat) : bytes_ok l = true -> is_byte (nth i l 0) = true.
Proof.
  intros Hl. rewrite nth_lookup. destruct (l !! i) eqn:E; [|reflexivity].
  eapply bytes_ok_lookup; eauto.
Qed.

Lemma factor_at_own_node (in_x : list Z) (i k : nat) :
  distinct in_x = true -> bytes_ok in_x = true ->
  (i < length in_x)%nat -> (k < length in_x)%nat -> k <> i ->
  factor in_x i (nth i in_x 0) k = 1.
Proof.
  intros Hd Hb Hi Hk Hne. unfold factor. apply mult_inv_r.
  - apply lxor_byte; apply bytes_ok_nth, Hb.
  - rewrite lxor_eq_0. apply distinct_nth; auto.
Qed.

(** The basis polynomial of node [i] is 1 at node [i] and 0 at the others. *)
Lemma lagrange_at_node (in_x : list Z) (i k : nat) :
  distinct in_x = true -> bytes_ok in_x = true ->
  (i < length in_x)%nat -> (k < length in_x)%nat ->
  lagrange in_x i (nth k in_x 0) = if decide (i = k) then 1 else 0.
Proof.
  intros Hd Hb Hi Hk. case_decide as Hik.
  - subst k. rewrite lagrange_indices.
    assert (H : forall ks, (forall k, In k ks -> (k < length in_x)%nat) ->
      fold_left (fun r k => if (k =? i)%nat then r
                            else mult r (factor in_x i (nth i in_x 0) k)) ks 1 = 1).
    { induction ks as [| k ks IH]; intros Hks; cbn [fold_left]; [reflexivity|].
      assert (Hk' : (k < length in_x)%nat) by (apply Hks; left; reflexivity).
      assert (Hks' : forall k, In k ks -> (k < length in_x)%nat)
        by (intros; apply Hks; right; assumption).
      destruct (Nat.eqb_spec k i) as [-> | Hne]; [apply IH, Hks'|].
      rewrite factor_at_own_node by assumption. apply IH, Hks'. }
    apply H. intros k Hin. apply in_seq in Hin. lia.
  - apply (lagrange_zero_factor in_x i k); auto.
    unfold factor. rewrite Z.lxor_nilpotent. apply mult_0_l.
Qed.

(** When the abscissa of node [i] occurs a second time, every value of
    its basis polynomial is 0: the factor of the colliding node is
    [mult _ inv[0]] and [inv[0]] is 0. *)
Lemma lagrange_collision (in_x : list Z) (i k : nat) (x : Z) :
  (i < length in_x)%nat -> (k < length in_x)%nat -> i <> k ->
  nth i in_x 0 = nth k in_x 0 ->
  lagrange in_x i x = 0.
Proof.
  intros Hi Hk Hne Heq. apply (lagrange_zero_factor in_x i k); auto.
  unfold factor. rewrite Heq, Z.lxor_nilpotent. apply mult_0_r.
Qed.

(** *** XOR sums *)

Lemma xor_sum_zero (f : nat -> Z) (n : nat) :
  (forall i, (i < n)%nat -> f i = 0) -> xor_sum f n = 0.
Proof.
  induction n as [| n IH]; intros H; [reflexivity|].
  rewrite xor_sum_S, IH, H by auto with lia. reflexivity.
Qed.

Lemma xor_sum_single (f : nat -> Z) (n k : nat) :
  (k < n)%nat -> (forall i, (i < n)%nat -> i <> k -> f i = 0) -> xor_sum f n = f k.
Proof.
  induction n as [| n IH]; intros Hk H; [lia|].
  rewrite xor_sum_S. destruct (decide (k = n)) as [-> | Hne].
  - rewrite xor_sum_zero by (intros; apply H; lia). apply Z.lxor_0_l.
  - rewrite IH, (H n) by auto with lia. apply Z.lxor_0_r.
Qed.

Lemma xor_sum_ext (f g : nat -> Z) (n : nat) :
  (forall i, (i < n)%nat -> f i = g i) -> xor_sum f n = xor_sum g n.
Proof.
  induction n as [| n IH]; intros H; [reflexivity|].
  rewrite !xor_sum_S, IH, H by auto with lia. reflexivity.
Qed.

Lemma xor_sum_update (f g : nat -> Z) (n k : nat) (e : Z) :
  (k < n)%nat -> (forall i, (i < n)%nat -> i <> k -> g i = f i) ->
  g k = Z.lxor (f k) e ->
  xor_sum g n = Z.lxor (xor_sum f n) e.
Proof.
  induction n as [| n IH]; intros Hk H He; [lia|].
  rewrite !xor_sum_S. destruct (decide (k = n)) as [-> | Hne].
  - rewrite (xor_sum_ext g f) by (intros; apply H; lia).
    rewrite He. symmetry. apply Z.lxor_assoc.
  - rewrite IH, (H n) by auto with lia.
    rewrite !Z.lxor_assoc. f_equal. apply Z.lxor_comm.
Qed.

End Lagrange.

(** ** The precondition checks and the outcome of every call *)

Module Outcome.
Import GF GFLaws RS Matrix RSLoops RSMatrix.

Lemma check_loop (m : matrix) (bad : list Z -> bool)
    (body : nat -> unit -> unit * option fault) :
  (forall i u row, m !! i = Some row ->
     body i u = (u, if bad row then Some RaggedInput else None)) ->
  for_each (seq 0 (length m)) body tt =
  (tt, if existsb bad m then Some RaggedInput else None).
Proof.
  intros Hbody.
  assert (H : forall m2 m1, m = m1 ++ m2 ->
    for_each (seq (length m1) (length m2)) body tt =
    (tt, if existsb bad m2 then Some RaggedInput else None)).
  { induction m2 as [| row m2 IH]; intros m1 Hm; [reflexivity|].
    cbn [length seq for_each existsb].
    rewrite (Hbody (length m1) tt row) by (rewrite Hm; apply list_lookup_middle; reflexivity).
    destruct (bad row); [reflexivity|]. simpl.
    specialize (IH (m1 ++ [row])). rewrite length_app, Nat.add_1_r in IH.
    apply IH. rewrite <- app_assoc. exact Hm. }
  apply (H m []). reflexivity.
Qed.

Lemma ragged_shape (m : matrix) (c : nat) :
  ragged m c = false <-> shape m (length m) c.
Proof.
  rewrite <- shaped_shape. unfold shaped, ragged. rewrite Nat.eqb_refl. simpl.
  induction m as [| row m IH]; simpl; [tauto|].
  destruct (length row =? c)%nat; simpl; [exact IH | split; discriminate].
Qed.

Lemma ragged_row (m : matrix) (c : nat) :
  ragged m c = true <-> exists i row, m !! i = Some row /\ length row <> c.
Proof.
  unfold ragged. rewrite existsb_exists. split.
  - intros (row & Hin & Hlen). apply list_elem_of_In, list_elem_of_lookup in Hin as [i Hi].
    exists i, row. split; [exact Hi|].
    apply negb_true_iff, Nat.eqb_neq in Hlen. exact Hlen.
  - intros (i & row & Hi & Hlen). exists row. split.
    + apply list_elem_of_In, list_elem_of_lookup. eauto.
    + apply negb_true_iff, Nat.eqb_neq. exact Hlen.
Qed.

(** What [Code] does, case by case, on a coder with a rectangular matrix. *)
Lemma Code_outcome (p : ErasureCoder) (inp : matrix) (n r : nat) :
  shape (interp p) n r ->
  Code p inp =
  if negb (length inp =? n)%nat then Panic ShapeMismatch
  else if ragged inp (length (nth 0 inp [])) then Panic RaggedInput
  else if (n =? 0)%nat then Panic RuntimeIndex
  else Code p inp.
Proof.
  intros Hp. destruct (Nat.eqb_spec (length inp) n) as [Hlen | Hlen]; simpl.
  - destruct (ragged inp _) eqn:Hr.
    + unfold Code, Degree. rewrite (proj1 Hp), Hlen, Nat.eqb_refl. simpl.
      rewrite <- Hlen.
      rewrite (check_loop inp (fun row => negb (length row =? length (nth 0 inp []))%nat)).
      * fold (ragged inp (length (nth 0 inp []))). rewrite Hr. reflexivity.
      * intros i u row Hi. unfold aget. rewrite Hi.
        destruct inp as [| r0 inp']; [discriminate Hi|]. simpl.
        destruct (negb _); reflexivity.
    + destruct (Nat.eqb_spec n 0) as [-> | Hn]; [|reflexivity].
      destruct inp; [|discriminate Hlen].
      unfold Code, Degree. rewrite (proj1 Hp). simpl.
      destruct (interp p) eqn:E; [reflexivity|].
      destruct Hp as [Hp _]. discriminate Hp.
  - unfold Code, Degree. rewrite (proj1 Hp).
    destruct (Nat.eqb_spec (length inp) n); [contradiction | reflexivity].
Qed.

(** The closed form of [Update] once its three checks pass. *)
Lemma Update_closed (p : ErasureCoder) (idx : Z) (d : list Z) (out : matrix)
    (n r c : nat) :
  shape (interp p) n r -> 0 <= idx < u8 (Z.of_nat n) ->
  shape out r c -> length d = c ->
  exists out', Update p idx d out = (out', None) /\ shape out' r c /\
    forall k j, (k < r)%nat -> (j < c)%nat ->
      entry out' k j =
      Z.lxor (entry out k j) (mult (nth j d 0) (entry (interp p) (Z.to_nat idx) k)).
Proof.
  intros Hp Hidx Hout Hd. unfold Update. rewrite (proj1 Hp).
  assert (Hu : u8 (Z.of_nat n) <= Z.of_nat n).
  { unfold u8. apply Z.mod_le; lia. }
  assert (Hi : (Z.to_nat idx < n)%nat) by lia.
  assert (Hn : (0 < n)%nat) by lia.
  destruct (Z.geb_spec idx (u8 (Z.of_nat n))); [lia|].
  destruct (aget_row _ _ _ 0%nat Hp Hn) as (p0 & -> & Hlp0 & _).
  rewrite Hlp0.
  replace (length out =? r)%nat with true by (symmetry; apply Nat.eqb_eq, Hout).
  simpl.
  rewrite (check_loop out (fun row => negb (length row =? length d)%nat)).
  - replace (existsb _ out) with false.
    + destruct (aget_row _ _ _ _ Hp Hi) as (pi & Hpi & Hlpi & Hpie).
      rewrite Hd.
      destruct (xor_rows_ok d pi out r c
        (fun j out => match aget (interp p) (Z.to_nat idx) with
                      | Ok pi => xor_column d pi j out
                      | Panic f => (out, Some f)
                      end)) as (out' & Hrun & Hsh & Hent); auto.
      { intros j o. rewrite Hpi. reflexivity. }
      exists out'. split; [exact Hrun|]. split; [exact Hsh|].
      intros k j Hk Hj. rewrite Hent, Hpie by assumption. reflexivity.
    + symmetry. apply not_true_is_false. rewrite existsb_exists.
      intros (row & Hin & Hbad).
      apply list_elem_of_In, list_elem_of_lookup in Hin as [i Hin].
      apply (proj2 Hout) in Hin. rewrite Hin, Hd, Nat.eqb_refl in Hbad. discriminate.
  - intros i u row Hrow. unfold aget. rewrite Hrow, (Nat.eqb_sym (length d)).
    destruct (negb (length row =? length d)%nat); reflexivity.
Qed.

(** What [Update] does, case by case, on a coder with a rectangular matrix. *)
Lemma Update_outcome (p : ErasureCoder) (idx : Z) (d : list Z) (out : matrix)
    (n r : nat) :
  shape (interp p) n r -> 0 <= idx ->
  Update p idx d out =
  if idx >=? u8 (Z.of_nat n) then (out, Some IndexOutOfRange)
  else if negb (length out =? r)%nat then (out, Some ShapeMismatch)
  else if ragged out (length d) then (out, Some RaggedInput)
  else Update p idx d out.
Proof.
  intros Hp Hidx.
  destruct (Z.geb_spec idx (u8 (Z.of_nat n))) as [Hge | Hlt].
  { unfold Update. rewrite (proj1 Hp).
    destruct (Z.geb_spec idx (u8 (Z.of_nat n))); [reflexivity | lia]. }
  assert (Hu : u8 (Z.of_nat n) <= Z.of_nat n).
  { unfold u8. apply Z.mod_le; lia. }
  assert (Hn : (0 < n)%nat) by lia.
  destruct (aget_row _ _ _ 0%nat Hp Hn) as (p0 & Hp0 & Hlp0 & _).
  destruct (negb (length out =? r)%nat) eqn:Hr.
  { unfold Update. rewrite (proj1 Hp), Hp0, Hlp0, Hr.
    destruct (Z.geb_spec idx (u8 (Z.of_nat n))); [lia | reflexivity]. }
  destruct (ragged out (length d)) eqn:Hrag; [|reflexivity].
  unfold Update. rewrite (proj1 Hp), Hp0, Hlp0, Hr.
  destruct (Z.geb_spec idx (u8 (Z.of_nat n))); [lia|].
  rewrite (check_loop out (fun row => negb (length row =? length d)%nat)).
  - fold (ragged out (length d)). rewrite Hrag. reflexivity.
  - intros i u row Hrow. unfold aget. rewrite Hrow, (Nat.eqb_sym (length d)).
    destruct (negb (length row =? length d)%nat); reflexivity.
Qed.

End Outcome.

(** ** The field tables (claims C8, C9) *)

Module FieldClaims.
Import GF GFLaws RS.

(** C8. Field sanity: for bytes [a], [b], [c]: if [a] is nonzero then
    [mult a inv[a] = 1] and [exp[log[a]] = a], the read of [exp] being
    at an index in [0, 255); [mult a 0 = 0] and [mult 0 a = 0];
    [mult] is commutative; and [mult] distributes over XOR. *)
Theorem field_sanity (a b c : Z) :
  is_byte a = true -> is_byte b = true -> is_byte c = true ->
  (a <> 0 ->
     mult a (rd inv a) = 1 /\ 0 <= rd log a < 255 /\ rd exp (rd log a) = a) /\
  mult a 0 = 0 /\ mult 0 a = 0 /\
  mult a b = mult b a /\
  mult a (Z.lxor b c) = Z.lxor (mult a b) (mult a c).
Proof.
  intros Ha Hb Hc. split; [|split; [|split; [|split]]].
  - intros Hnz. split; [apply mult_inv_r; assumption | apply log_spec; assumption].
  - apply mult_0_r.
  - apply mult_0_l.
  - apply mult_comm.
  - apply mult_lxor_r; assumption.
Qed.

Lemma field_sanity_witness :
  (3 <> 0 -> mult 3 (rd inv 3) = 1 /\ 0 <= rd log 3 < 255 /\ rd exp (rd log 3) = 3) /\
  mult 3 0 = 0 /\ mult 0 3 = 0 /\
  mult 3 200 = mult 200 3 /\
  mult 3 (Z.lxor 200 77) = Z.lxor (mult 3 200) (mult 3 77).
Proof. apply (field_sanity 3 200 77); reflexivity. Defined.

(** X1. The table-driven product is the carry-less product reduced
    modulo the characteristic polynomial: [galois_multiply] returns on
    every pair of bytes, and [mult] computes the same product. *)
Lemma mult_is_galois_multiply (a b : Z) :
  is_byte a = true -> is_byte b = true -> galois_multiply a b = Some (mult a b).
Proof.
  intros Ha Hb.
  pose proof (byte_cases2 (fun a b =>
    match galois_multiply a b with Some v => v =? mult a b | None => false end)
    ltac:(vm_compute; reflexivity) a b Ha Hb) as H.
  cbv beta in H. destruct (galois_multiply a b); [f_equal; lia | discriminate].
Qed.

(** At [a = 1] the formula [exp[255 - log[a]]] reads [exp[255]], one
    past the end of the 255-entry array. *)
Lemma inv_by_formula_fails_at_1 : ~ inv_by_formula 1.
Proof. unfold inv_by_formula. vm_compute. discriminate. Qed.

(** C9, as the code has it. For every byte [a >= 2] the stored inverse
    is [exp[255 - log[a]]]; [inv[1]] is stored directly as 1, because
    [log[1] = 0] and [exp] has no index 255. *)
Theorem inv_formula_from_2 (a : Z) :
  is_byte a = true -> a <> 0 ->
  (2 <= a -> inv_by_formula a) /\
  (a = 1 -> rd inv a = 1 /\ rd log a = 0 /\ tget exp (255 - rd log a) = None).
Proof.
  intros Ha Hnz. split.
  - intros H2. unfold inv_by_formula.
    pose proof (byte_cases (fun a => (a <? 2) ||
      match tget exp (255 - rd log a) with Some v => v =? rd inv a | None => false end)
      ltac:(vm_compute; reflexivity) a Ha) as H.
    cbv beta in H. apply orb_true_iff in H. destruct H as [H | H]; [lia|].
    destruct (tget exp (255 - rd log a)); [f_equal; lia | discriminate].
  - intros ->. vm_compute. auto.
Qed.

Lemma inv_formula_from_2_witness :
  (2 <= 2 -> inv_by_formula 2) /\
  (2 = 1 -> rd inv 2 = 1 /\ rd log 2 = 0 /\ tget exp (255 - rd log 2) = None).
Proof. apply (inv_formula_from_2 2); [reflexivity | lia]. Defined.

End FieldClaims.

(** ** Construction of the coder (claims C5, C6) *)

Module BuildClaims.
Import GF GFLaws RS Matrix RSLoops RSMatrix Lagrange Outcome.

Lemma tget_inv (a : Z) : is_byte a = true -> tget inv a = Some (rd inv a).
Proof.
  intros Ha.
  pose proof (byte_cases (fun a =>
    match tget inv a with Some v => v =? rd inv a | None => false end)
    ltac:(vm_compute; reflexivity) a Ha) as H.
  cbv beta in H. destruct (tget inv a); [f_equal; lia | discriminate].
Qed.

(** No read of [lagrange] is out of bounds. *)
Lemma lagrange_checked_ok (in_x : list Z) (i : nat) (xj : Z) :
  bytes_ok in_x = true -> is_byte xj = true -> (i < length in_x)%nat ->
  lagrange_checked in_x i xj = Some (lagrange in_x i xj).
Proof.
  intros Hb Hx Hi. unfold lagrange_checked, lagrange.
  destruct (lookup_lt_is_Some_2 in_x i Hi) as [xi Hxi].
  rewrite Hxi, (nth_lookup_Some _ _ _ _ Hxi).
  assert (Hxib : is_byte xi = true) by (eapply bytes_ok_lookup; eauto).
  assert (Hall : forall k xk, In (k, xk) (combine (seq 0 (length in_x)) in_x) ->
                   is_byte xk = true).
  { intros k xk Hin. apply in_enumerate in Hin. eapply bytes_ok_lookup; eauto. }
  assert (H1 : is_byte 1 = true) by reflexivity.
  revert Hall H1. generalize 1. generalize (combine (seq 0 (length in_x)) in_x).
  induction l as [| [k xk] l IH]; intros r Hall Hr; [reflexivity|].
  cbn [fold_left].
  assert (Hxk : is_byte xk = true) by (apply (Hall k); left; reflexivity).
  assert (Hall' : forall k xk, In (k, xk) l -> is_byte xk = true)
    by (intros; eapply Hall; right; eassumption).
  destruct (k =? i)%nat; [apply IH; assumption|].
  rewrite tget_inv by (apply lxor_byte; assumption).
  rewrite !mult_checked_ok by auto using lxor_byte, rd_inv_byte, mult_byte.
  apply IH; [assumption | apply mult_byte].
Qed.

(** Two equal input abscissae: no read faults, the constructor returns,
    and the two coefficient rows are silently zero; the coder then
    encodes without error and ignores those two input rows. *)
Lemma collision_is_silent :
  let in_x := [1; 1; 2] in
  let out_x := [0; 1; 2; 3] in
  distinct in_x = false /\
  tget inv 0 = Some 0 /\
  Forall (fun i => Forall (fun xj => is_Some (lagrange_checked in_x i xj)) out_x)
    [0; 1; 2]%nat /\
  interp (NewErasureCoder in_x out_x) = [[0; 0; 0; 0]; [0; 0; 0; 0]; [167; 0; 1; 166]] /\
  Code (NewErasureCoder in_x out_x) [[10]; [20]; [30]] = Ok [[6]; [0]; [30]; [24]].
Proof.
  cbv zeta. split; [reflexivity|]. split; [reflexivity|].
  split; [| split; vm_compute; reflexivity].
  repeat constructor; vm_compute; eauto.
Qed.

(** C5, as the code has it. When input abscissa [i] equals input
    abscissa [k] for [k <> i], every read made while building
    coefficient [i][j] is in bounds ([inv[0]] is the table entry 0),
    the constructor returns, and the coefficient is 0: the whole row
    [i] of the matrix is zero. *)
Theorem collision_gives_zero_row (in_x out_x : list Z) (i k j : nat) :
  bytes_ok in_x = true -> bytes_ok out_x = true ->
  (i < length in_x)%nat -> (k < length in_x)%nat -> i <> k ->
  nth i in_x 0 = nth k in_x 0 ->
  (j < length out_x)%nat ->
  tget inv 0 = Some 0 /\
  lagrange_checked in_x i (nth j out_x 0) = Some 0 /\
  entry (interp (NewErasureCoder in_x out_x)) i j = 0.
Proof.
  intros Hbi Hbo Hi Hk Hne Heq Hj.
  pose proof (lagrange_collision in_x i k (nth j out_x 0) Hi Hk Hne Heq) as H0.
  split; [reflexivity|]. split.
  - rewrite lagrange_checked_ok by auto using bytes_ok_nth. rewrite H0. reflexivity.
  - rewrite NewErasureCoder_entry by assumption. exact H0.
Qed.

Lemma collision_gives_zero_row_witness :
  tget inv 0 = Some 0 /\
  lagrange_checked [1; 1; 2] 0 (nth 3 [0; 1; 2; 3] 0) = Some 0 /\
  entry (interp (NewErasureCoder [1; 1; 2] [0; 1; 2; 3])) 0 3 = 0.
Proof.
  apply (collision_gives_zero_row [1; 1; 2] [0; 1; 2; 3] 0 1 3);
    try reflexivity; simpl; lia.
Defined.

Lemma NewErasureCoder_no_outputs (in_x : list Z) :
  interp (NewErasureCoder in_x []) = replicate (length in_x) [].
Proof.
  apply (matrix_ext _ _ (length in_x) 0).
  - apply (NewErasureCoder_shape in_x []).
  - apply (shape_makeMatrix (length in_x) 0).
  - intros k j _ Hj. lia.
Qed.

(** An empty output sequence: the constructor returns a coder that
    works, with no outputs. *)
Lemma empty_outputs_build_a_usable_coder :
  let p := NewErasureCoder [0; 1; 2] [] in
  Degree p = 3%nat /\ NumOutputs p = Ok 0%nat /\
  Code p [[1; 2]; [3; 4]; [5; 6]] = Ok [] /\
  Update p 1 [7; 8] [] = ([], None).
Proof. vm_compute. auto. Qed.

(** C6, as the code has it. [NewErasureCoder] has no failure path.
    With no input abscissae it returns the coder with the empty matrix,
    on which [NumOutputs], [Code] and [Update] all panic.  With input
    abscissae and no output abscissae it returns a coder of that degree
    with zero outputs, whose [Code] returns the empty matrix on every
    well-shaped input and whose [Update] accepts the empty matrix. *)
Theorem NewErasureCoder_degenerate (in_x out_x : list Z) :
  (in_x = [] ->
     interp (NewErasureCoder in_x out_x) = [] /\
     NumOutputs (NewErasureCoder in_x out_x) = Panic RuntimeIndex /\
     (forall inp, Code (NewErasureCoder in_x out_x) inp =
                  if negb (length inp =? 0)%nat then Panic ShapeMismatch
                  else Panic RuntimeIndex) /\
     (forall idx d out, 0 <= idx ->
        Update (NewErasureCoder in_x out_x) idx d out = (out, Some IndexOutOfRange))) /\
  (in_x <> [] -> out_x = [] ->
     Degree (NewErasureCoder in_x out_x) = length in_x /\
     NumOutputs (NewErasureCoder in_x out_x) = Ok 0%nat /\
     (forall inp c, shaped inp (length in_x) c = true ->
        Code (NewErasureCoder in_x out_x) inp = Ok []) /\
     (forall idx d, 0 <= idx < u8 (Z.of_nat (length in_x)) ->
        Update (NewErasureCoder in_x out_x) idx d [] = ([], None))).
Proof.
  split.
  - intros ->. split; [reflexivity|]. split; [reflexivity|]. split.
    + intros inp. destruct inp; reflexivity.
    + intros idx d out Hidx. unfold Update. simpl.
      change (u8 (Z.of_nat 0)) with 0.
      destruct (Z.geb_spec idx 0) as [_ | H]; [reflexivity | lia].
  - intros Hne ->.
    assert (Hn : (0 < length in_x)%nat) by (destruct in_x; [congruence | simpl; lia]).
    pose proof (NewErasureCoder_shape in_x []
                  : shape (interp (NewErasureCoder in_x [])) (length in_x) 0) as Hp.
    split; [apply Degree_NewErasureCoder|].
    split; [apply (NumOutputs_NewErasureCoder in_x [] Hne)|]. split.
    + intros inp c Hin. apply shaped_shape in Hin.
      destruct (Code_closed _ inp _ _ c Hp Hin Hn) as (out & -> & [Hlen _] & _).
      destruct out; [reflexivity | discriminate Hlen].
    + intros idx d Hidx.
      destruct (Update_closed _ idx d [] _ _ (length d) Hp Hidx) as (out' & -> & [Hlen _] & _).
      * split; [reflexivity | intros k row H; discriminate H].
      * reflexivity.
      * destruct out'; [reflexivity | discriminate Hlen].
Qed.

Lemma NewErasureCoder_degenerate_witness :
  interp (NewErasureCoder [] [3; 4]) = [] /\
  Degree (NewErasureCoder [0; 1; 2] []) = 3%nat /\
  Code (NewErasureCoder [0; 1; 2] []) [[1]; [2]; [3]] = Ok [].
Proof.
  split; [|split].
  - apply (proj1 (NewErasureCoder_degenerate [] [3; 4])). reflexivity.
  - apply (proj2 (NewErasureCoder_degenerate [0; 1; 2] [])); [discriminate | reflexivity].
  - apply (proj2 (NewErasureCoder_degenerate [0; 1; 2] []) ltac:(discriminate) eq_refl)
      with (c := 1%nat). reflexivity.
Defined.

End BuildClaims.

(** ** Encoding (claims C1, C2) *)

Module CodeClaims.
Import GF GFLaws RS Matrix RSLoops RSMatrix Lagrange Outcome.

(** C1. For the coder built from [in_x] and [out_x] and an input matrix
    with at least one row, [Degree] rows and all rows as long as the
    first, [Code] returns a matrix of [NumOutputs] rows, each as long
    as [inp[0]], with [out[k][j]] the XOR over all [i] of
    [mult inp[i][j] M[i][k]], where the coefficient [M[i][k]] held by the
    coder is the Lagrange basis value: the product over [k' <> i] of
    [(out_x[k] xor in_x[k']) * inv[in_x[i] xor in_x[k']]]. *)
Theorem Code_is_lagrange_xor (in_x out_x : list Z) (inp : matrix) :
  let p := NewErasureCoder in_x out_x in
  let c := length (nth 0 inp []) in
  (0 < length inp)%nat ->
  shaped inp (Degree p) c = true ->
  exists out,
    Code p inp = Ok out /\
    NumOutputs p = Ok (length out) /\
    length out = length out_x /\
    shaped out (length out_x) c = true /\
    (forall i k, (i < length in_x)%nat -> (k < length out_x)%nat ->
       entry (interp p) i k = lagrange_basis in_x i (nth k out_x 0)) /\
    (forall k j, (k < length out_x)%nat -> (j < c)%nat ->
       entry out k j =
       xor_sum (fun i => mult (entry inp i j) (lagrange_basis in_x i (nth k out_x 0)))
         (length in_x)).
Proof.
  intros p c Hrows Hin. subst p.
  rewrite Degree_NewErasureCoder in Hin. apply shaped_shape in Hin.
  assert (Hn : (0 < length in_x)%nat) by (rewrite <- (proj1 Hin); exact Hrows).
  destruct (Code_closed _ inp _ _ c (NewErasureCoder_shape in_x out_x) Hin Hn)
    as (out & Hrun & Hsh & Hent).
  exists out. split; [exact Hrun|].
  split; [|split; [apply Hsh|]; split; [apply shaped_shape, Hsh|]; split].
  - rewrite (proj1 Hsh). apply NumOutputs_NewErasureCoder.
    intros ->. simpl in Hn. lia.
  - intros i k Hi Hk. rewrite NewErasureCoder_entry by assumption.
    apply lagrange_is_basis.
  - intros k j Hk Hj. rewrite Hent by assumption.
    apply xor_sum_ext. intros i Hi.
    rewrite NewErasureCoder_entry, lagrange_is_basis by assumption. reflexivity.
Qed.

Lemma Code_is_lagrange_xor_witness :
  exists out,
    Code (NewErasureCoder [0; 1; 2] [0; 1; 2; 3; 4])
      [[1; 2; 3; 4; 5]; [41; 42; 43; 44; 45]; [11; 22; 33; 44; 55]] = Ok out /\
    length out = 5%nat.
Proof.
  destruct (Code_is_lagrange_xor [0; 1; 2] [0; 1; 2; 3; 4]
              [[1; 2; 3; 4; 5]; [41; 42; 43; 44; 45]; [11; 22; 33; 44; 55]])
    as (out & Hrun & _ & Hlen & _).
  - simpl. lia.
  - reflexivity.
  - exists out. split; [exact Hrun | exact Hlen].
Defined.

Lemma nth_take (l : list Z) (n k : nat) :
  (k < n)%nat -> nth k (take n l) 0 = nth k l 0.
Proof. intros Hk. rewrite !nth_lookup, lookup_take_lt by exact Hk. reflexivity. Qed.

Lemma entry_take (m : matrix) (n k j : nat) :
  (k < n)%nat -> entry (take n m) k j = entry m k j.
Proof.
  intros Hk. unfold entry. rewrite (nth_lookup (take n m)), (nth_lookup m).
  rewrite lookup_take_lt by exact Hk. reflexivity.
Qed.

Lemma shape_take (m : matrix) (n r c : nat) :
  shape m r c -> (n <= r)%nat -> shape (take n m) n c.
Proof.
  intros [Hl Hr] Hn. split.
  - rewrite length_take. lia.
  - intros k row Hk. apply lookup_take_Some in Hk as [Hk _]. eauto.
Qed.

Lemma entry_byte (m : matrix) (k j : nat) : rows_ok m = true -> is_byte (entry m k j) = true.
Proof.
  intros Hm. unfold entry. rewrite (nth_lookup m).
  destruct (m !! k) as [row |] eqn:E; simpl.
  - apply bytes_ok_nth. eapply rows_ok_lookup; eauto.
  - destruct j; reflexivity.
Qed.

(** The first [length in_x] rows of the output, when the first output
    abscissae are the distinct input abscissae. *)
Lemma Code_first_rows (in_x out_x : list Z) (inp : matrix) (c : nat) :
  bytes_ok in_x = true -> distinct in_x = true ->
  take (length in_x) out_x = in_x ->
  (0 < length in_x)%nat ->
  shape inp (length in_x) c -> rows_ok inp = true ->
  exists out,
    Code (NewErasureCoder in_x out_x) inp = Ok out /\ take (length in_x) out = inp.
Proof.
  intros Hb Hd Htake Hn Hin Hbytes.
  set (n := length in_x) in *.
  assert (Hle : (n <= length out_x)%nat).
  { pose proof (f_equal length Htake) as H. rewrite length_take in H. fold n in H. lia. }
  destruct (Code_closed _ inp _ _ c (NewErasureCoder_shape in_x out_x) Hin Hn)
    as (out & Hrun & Hsh & Hent).
  exists out. split; [exact Hrun|].
  apply (matrix_ext _ _ n c); [eapply shape_take; eauto | exact Hin |].
  intros k j Hk Hj. rewrite entry_take, Hent by (assumption || lia).
  rewrite (xor_sum_single _ n k Hk).
  - rewrite NewErasureCoder_entry by (fold n; lia).
    rewrite <- (nth_take out_x n k Hk), Htake.
    rewrite lagrange_at_node, decide_True by auto.
    apply mult_1_r, entry_byte, Hbytes.
  - intros i Hi Hne. rewrite NewErasureCoder_entry by (fold n; lia).
    rewrite <- (nth_take out_x n k Hk), Htake.
    rewrite lagrange_at_node, decide_False by auto.
    apply mult_0_r.
Qed.

(** C2. Systematic identity: when the input abscissae are pairwise
    distinct and the first [Degree] output abscissae are the input
    abscissae in the same order, the first [Degree] rows of [Code inp]
    are [inp], for every well-shaped matrix of bytes [inp], whatever
    the row length. *)
Theorem systematic_identity (in_x out_x : list Z) (inp : matrix) :
  let p := NewErasureCoder in_x out_x in
  bytes_ok in_x = true ->
  distinct in_x = true ->
  take (Degree p) out_x = in_x ->
  (0 < length inp)%nat ->
  shaped inp (Degree p) (length (nth 0 inp [])) = true ->
  rows_ok inp = true ->
  exists out, Code p inp = Ok out /\ take (Degree p) out = inp.
Proof.
  intros p Hb Hd Htake Hrows Hin Hbytes. subst p.
  rewrite Degree_NewErasureCoder in *. apply shaped_shape in Hin.
  apply (Code_first_rows in_x out_x inp (length (nth 0 inp []))); try assumption.
  rewrite <- (proj1 Hin). exact Hrows.
Qed.

Lemma systematic_identity_witness :
  exists out,
    Code (NewErasureCoder [0; 1; 2] [0; 1; 2; 3; 4])
      [[1; 2; 3; 4; 5]; [41; 42; 43; 44; 45]; [11; 22; 33; 44; 55]] = Ok out /\
    take 3 out = [[1; 2; 3; 4; 5]; [41; 42; 43; 44; 45]; [11; 22; 33; 44; 55]].
Proof.
  apply (systematic_identity [0; 1; 2] [0; 1; 2; 3; 4]
           [[1; 2; 3; 4; 5]; [41; 42; 43; 44; 45]; [11; 22; 33; 44; 55]]);
    try reflexivity.
  simpl. lia.
Defined.

End CodeClaims.

(** ** Incremental update (claims C4, C7, C10) *)

Module UpdateClaims.
Import GF GFLaws RS Matrix RSLoops RSMatrix Lagrange Outcome CodeClaims.

(** The input matrix with row [i] XORed with [d]. *)
Definition xor_row (inp : matrix) (i : nat) (d : list Z) : matrix :=
  <[i := zip_with Z.lxor (nth i inp []) d]> inp.

Lemma nth_zip_lxor (l d : list Z) (j : nat) :
  length d = length l ->
  nth j (zip_with Z.lxor l d) 0 = Z.lxor (nth j l 0) (nth j d 0).
Proof.
  intros Hlen. rewrite !nth_lookup, lookup_zip_with.
  destruct (l !! j) as [x |] eqn:El; simpl.
  - destruct (lookup_lt_is_Some_2 d j) as [y Hy].
    { rewrite Hlen. eapply lookup_lt_Some, El. }
    rewrite Hy. reflexivity.
  - apply lookup_ge_None_1 in El.
    rewrite (lookup_ge_None_2 d j) by lia. reflexivity.
Qed.

Lemma xor_row_shape (inp : matrix) (n c i : nat) (d : list Z) :
  shape inp n c -> (i < n)%nat -> length d = c -> shape (xor_row inp i d) n c.
Proof.
  intros Hin Hi Hd. destruct (shape_row _ _ _ _ Hin Hi) as (row & Hrow & Hlen).
  unfold xor_row. split; [rewrite length_insert; apply Hin|].
  intros k r Hk. rewrite list_lookup_insert in Hk. case_decide.
  - injection Hk as <-. rewrite (nth_lookup_Some _ _ _ _ Hrow).
    rewrite length_zip_with. lia.
  - eapply Hin, Hk.
Qed.

Lemma xor_row_entry (inp : matrix) (n c i : nat) (d : list Z) (k j : nat) :
  shape inp n c -> (i < n)%nat -> length d = c ->
  entry (xor_row inp i d) k j =
  if decide (k = i) then Z.lxor (entry inp i j) (nth j d 0) else entry inp k j.
Proof.
  intros Hin Hi Hd. destruct (shape_row _ _ _ _ Hin Hi) as (row & Hrow & Hlen).
  unfold xor_row, entry. rewrite (nth_lookup (<[i := _]> inp)), list_lookup_insert.
  rewrite (nth_lookup inp k). destruct (decide (k = i)) as [-> | Hne].
  - rewrite decide_True by (split; [reflexivity | rewrite (proj1 Hin); exact Hi]).
    simpl. rewrite (nth_lookup_Some _ _ _ _ Hrow).
    apply nth_zip_lxor. congruence.
  - rewrite decide_False by (intros [? _]; congruence). reflexivity.
Qed.

(** X16. Linearity for every coder of degree below 256: [Code] of the matrix
    with row [i] XORed with [d] is [Update i d] applied to [Code] of the
    matrix. *)
Lemma Update_is_linear (in_x out_x : list Z) (inp : matrix) (i : nat) (d : list Z) :
  let p := NewErasureCoder in_x out_x in
  let c := length (nth 0 inp []) in
  (Degree p < 256)%nat ->
  shaped inp (Degree p) c = true -> rows_ok inp = true ->
  (i < Degree p)%nat ->
  length d = c -> bytes_ok d = true ->
  exists out out',
    Code p inp = Ok out /\
    Update p (Z.of_nat i) d out = (out', None) /\
    Code p (xor_row inp i d) = Ok out'.
Proof.
  intros p c Hdeg Hin Hbytes Hi Hd Hdb. subst p.
  rewrite Degree_NewErasureCoder in *. apply shaped_shape in Hin.
  set (n := length in_x) in *.
  assert (Hn : (0 < n)%nat) by lia.
  pose proof (NewErasureCoder_shape in_x out_x) as Hp. fold n in Hp.
  destruct (Code_closed _ inp _ _ c Hp Hin Hn) as (out & Hrun & Hsh & Hent).
  destruct (Update_closed _ (Z.of_nat i) d out _ _ c Hp) as (out' & Hup & Hsh' & Hent');
    auto.
  { unfold u8. rewrite Z.mod_small; lia. }
  destruct (Code_closed _ (xor_row inp i d) _ _ c Hp (xor_row_shape _ _ _ _ _ Hin Hi Hd) Hn)
    as (out2 & Hrun2 & Hsh2 & Hent2).
  exists out, out'. split; [exact Hrun|]. split; [exact Hup|].
  rewrite Hrun2. f_equal. apply (matrix_ext _ _ _ c Hsh2 Hsh').
  intros k j Hk Hj. rewrite Hent2, Hent', Hent by assumption.
  rewrite Nat2Z.id.
  apply (xor_sum_update _ _ n i); [exact Hi | |].
  - intros i' Hi' Hne. rewrite (xor_row_entry _ n c) by assumption.
    rewrite decide_False by exact Hne. reflexivity.
  - rewrite (xor_row_entry _ n c) by assumption. rewrite decide_True by reflexivity.
    apply mult_lxor_l.
    + apply entry_byte, Hbytes.
    + apply bytes_ok_nth, Hdb.
    + rewrite NewErasureCoder_entry by (fold n; lia). apply lagrange_byte.
Qed.

(** The index check of [Update] at degree 256: [uint8(256)] is 0. *)
Lemma Update_degree_256_rejects_all_at (in_x out_x : list Z) (idx : Z)
    (d : list Z) (out : matrix) :
  length in_x = 256%nat -> is_byte idx = true ->
  Update (NewErasureCoder in_x out_x) idx d out = (out, Some IndexOutOfRange).
Proof.
  intros Hlen Hidx. apply is_byte_range in Hidx.
  unfold Update. rewrite (proj1 (NewErasureCoder_shape in_x out_x)), Hlen.
  change (u8 (Z.of_nat 256)) with 0.
  destruct (Z.geb_spec idx 0); [reflexivity | lia].
Qed.

(** C10. [Update] compares the index with the degree truncated to
    [uint8]: for a coder of degree 256 every index is a valid row index,
    and every call of [Update] panics with the index fault, leaving
    [out] as it was. *)
Theorem Update_degree_256_rejects_all (in_x out_x : list Z) (idx : Z)
    (d : list Z) (out : matrix) :
  length in_x = 256%nat -> is_byte idx = true ->
  (Z.to_nat idx < Degree (NewErasureCoder in_x out_x))%nat /\
  Update (NewErasureCoder in_x out_x) idx d out = (out, Some IndexOutOfRange).
Proof.
  intros Hlen Hidx. split.
  - apply is_byte_range in Hidx. rewrite Degree_NewErasureCoder. lia.
  - apply Update_degree_256_rejects_all_at; assumption.
Qed.

Lemma Update_degree_256_rejects_all_witness :
  (Z.to_nat 7 < Degree (NewErasureCoder all_bytes [0%Z]))%nat /\
  Update (NewErasureCoder all_bytes [0]) 7 [1] [[0]] = ([[0]], Some IndexOutOfRange).
Proof.
  apply (Update_degree_256_rejects_all all_bytes [0] 7 [1] [[0]]); reflexivity.
Defined.

(** C4 at degree 256. The coder built from all 256 abscissae, the
    single output abscissa 0, input row [i] holding the byte [i], and
    the delta [[1]] for row 0: [Code] of the updated matrix is [[[1]]],
    but [Update] applied to [Code] of the original matrix panics and
    leaves it at [[[0]]]. *)
Theorem Update_not_linear_at_degree_256 :
  let p := NewErasureCoder all_bytes [0] in
  let inp := map (fun b => [b]) all_bytes in
  Degree p = 256%nat /\
  shaped inp (Degree p) 1 = true /\ rows_ok inp = true /\
  Code p inp = Ok [[0]] /\
  Code p (xor_row inp 0 [1]) = Ok [[1]] /\
  Update p 0 [1] [[0]] = ([[0]], Some IndexOutOfRange).
Proof. vm_compute. repeat split; reflexivity. Qed.

End UpdateClaims.

Module FaultClaims.
Import GF GFLaws RS Matrix RSLoops RSMatrix Lagrange Outcome CodeClaims UpdateClaims.

(** Shape validation for every coder of degree below 256: each fault is
    raised exactly on its condition, and a faulting [Update] leaves
    [out] as it was. *)
Lemma shape_validation (in_x out_x : list Z) (inp : matrix) (idx : Z) (d : list Z)
    (out : matrix) :
  let p := NewErasureCoder in_x out_x in
  (length in_x < 256)%nat -> is_byte idx = true ->
  (Code p inp = Panic ShapeMismatch <-> length inp <> Degree p) /\
  (Code p inp = Panic RaggedInput <->
     length inp = Degree p /\ ragged inp (length (nth 0 inp [])) = true) /\
  (snd (Update p idx d out) = Some IndexOutOfRange <-> (Degree p <= Z.to_nat idx)%nat) /\
  (snd (Update p idx d out) = Some ShapeMismatch <->
     (Z.to_nat idx < Degree p)%nat /\ length out <> length out_x) /\
  (snd (Update p idx d out) = Some RaggedInput <->
     (Z.to_nat idx < Degree p)%nat /\ length out = length out_x /\
     ragged out (length d) = true) /\
  (snd (Update p idx d out) <> None -> fst (Update p idx d out) = out).
Proof.
  intros p Hdeg Hidx. subst p. apply is_byte_range in Hidx.
  rewrite Degree_NewErasureCoder.
  pose proof (NewErasureCoder_shape in_x out_x) as Hp.
  set (p := NewErasureCoder in_x out_x) in *.
  set (n := length in_x) in *. set (r := length out_x) in *.
  assert (Hu : u8 (Z.of_nat n) = Z.of_nat n) by (unfold u8; apply Z.mod_small; lia).
  split; [|split].
  - rewrite (Code_outcome p inp n r Hp).
    destruct (Nat.eqb_spec (length inp) n) as [Hlen | Hlen]; simpl; [|tauto].
    split; [|tauto]. intros H. exfalso.
    destruct (ragged inp _) eqn:Hr; [discriminate|].
    destruct (Nat.eqb_spec n 0) as [Hn | Hn]; [discriminate|].
    apply ragged_shape in Hr. rewrite Hlen in Hr.
    destruct (Code_closed p inp n r _ Hp Hr ltac:(lia)) as (o & Ho & _). congruence.
  - rewrite (Code_outcome p inp n r Hp).
    destruct (Nat.eqb_spec (length inp) n) as [Hlen | Hlen]; simpl.
    + destruct (ragged inp _) eqn:Hr; [tauto|].
      split; [|intros [_ H]; discriminate]. intros H. exfalso.
      destruct (Nat.eqb_spec n 0) as [Hn | Hn]; [discriminate|].
      apply ragged_shape in Hr. rewrite Hlen in Hr.
      destruct (Code_closed p inp n r _ Hp Hr ltac:(lia)) as (o & Ho & _). congruence.
    + split; [discriminate | tauto].
  - rewrite (Update_outcome p idx d out n r Hp) by lia. rewrite Hu.
    destruct (Z.geb_spec idx (Z.of_nat n)) as [Hge | Hlt]; simpl.
    { repeat split; try discriminate; try tauto; try lia. }
    destruct (Nat.eqb_spec (length out) r) as [Hlen | Hlen]; simpl.
    2: { repeat split; try discriminate; try tauto; try lia. }
    destruct (ragged out (length d)) eqn:Hr; simpl.
    { repeat split; try discriminate; try tauto; try lia. }
    apply ragged_shape in Hr. rewrite Hlen in Hr.
    destruct (Update_closed p idx d out n r _ Hp ltac:(lia) Hr eq_refl)
      as (o & Ho & _).
    rewrite Ho. simpl.
    repeat split; try discriminate; try tauto; try lia.
Qed.

(** C7 at degree 256. The coder built from all 256 abscissae has degree
    256, index 0 is below the degree, [out] has [NumOutputs] rows of the
    length of [delta]; [Update] panics with the index fault all the
    same. *)
Theorem Update_rejects_valid_index_at_degree_256 :
  let p := NewErasureCoder all_bytes [0] in
  Degree p = 256%nat /\ (Z.to_nat 0 < Degree p)%nat /\
  NumOutputs p = Ok 1%nat /\
  Update p 0 [5] [[9]] = ([[9]], Some IndexOutOfRange).
Proof.
  cbv zeta. rewrite Degree_NewErasureCoder.
  split; [reflexivity|]. split; [simpl; lia|]. split.
  - apply NumOutputs_NewErasureCoder. discriminate.
  - apply (Update_degree_256_rejects_all_at all_bytes [0] 0 [5] [[9]]); reflexivity.
Qed.

End FaultClaims.

(** ** Recovery (claim C3) *)

Module RoundTrip.
Import GF GFLaws GFField RS Matrix RSLoops RSMatrix Lagrange Outcome CodeClaims.

(** The value at [x] of the polynomial through the three points
    [(xs[i], ds[i])], as [Code] computes it. *)
Definition eval3 (xs ds : list Z) (x : Z) : Z :=
  xor_sum (fun i => mult (nth i ds 0) (lagrange xs i x)) 3.

(** What [lagrange] and [Code] compute on three nodes, written out. *)
Definition zbasis3 (n0 n1 n2 : Z) (i : nat) (x : Z) : Z :=
  match i with
  | 0%nat => mult (mult 1 (mult (Z.lxor x n1) (rd inv (Z.lxor n0 n1))))
               (mult (Z.lxor x n2) (rd inv (Z.lxor n0 n2)))
  | 1%nat => mult (mult 1 (mult (Z.lxor x n0) (rd inv (Z.lxor n1 n0))))
               (mult (Z.lxor x n2) (rd inv (Z.lxor n1 n2)))
  | _ => mult (mult 1 (mult (Z.lxor x n0) (rd inv (Z.lxor n2 n0))))
           (mult (Z.lxor x n1) (rd inv (Z.lxor n2 n1)))
  end.

Definition zinterp3 (n0 n1 n2 d0 d1 d2 x : Z) : Z :=
  Z.lxor (Z.lxor (Z.lxor 0 (mult d0 (zbasis3 n0 n1 n2 0 x)))
                 (mult d1 (zbasis3 n0 n1 n2 1 x)))
         (mult d2 (zbasis3 n0 n1 n2 2 x)).

Lemma gval_basis3 (n0 n1 n2 : gf) (i : nat) (x : gf) :
  gval (basis3 n0 n1 n2 i x) = zbasis3 (gval n0) (gval n1) (gval n2) i (gval x).
Proof. destruct i as [| [| i]]; reflexivity. Qed.

Lemma gval_interp3 (n0 n1 n2 d0 d1 d2 x : gf) :
  gval (interp3 n0 n1 n2 d0 d1 d2 x) =
  zinterp3 (gval n0) (gval n1) (gval n2) (gval d0) (gval d1) (gval d2) (gval x).
Proof.
  unfold interp3, zinterp3. cbn [gval gadd gmul gzero].
  rewrite !gval_basis3. reflexivity.
Qed.

Lemma lagrange3_zbasis (n0 n1 n2 : Z) (i : nat) (x : Z) :
  (i < 3)%nat -> lagrange [n0; n1; n2] i x = zbasis3 n0 n1 n2 i x.
Proof.
  intros Hi. destruct i as [| [| [| i]]]; [reflexivity | reflexivity | reflexivity | lia].
Qed.

Lemma eval3_zinterp (n0 n1 n2 d0 d1 d2 x : Z) :
  eval3 [n0; n1; n2] [d0; d1; d2] x = zinterp3 n0 n1 n2 d0 d1 d2 x.
Proof.
  unfold eval3, xor_sum, zinterp3. cbn [seq fold_left nth].
  rewrite !lagrange3_zbasis by lia. reflexivity.
Qed.

(** Interpolating a polynomial of degree below 3 through three of its
    own points gives the polynomial back. *)
Lemma reinterp3_z (a0 a1 a2 b0 b1 b2 d0 d1 d2 y : Z) :
  bytes_ok [a0; a1; a2] = true -> bytes_ok [b0; b1; b2] = true ->
  bytes_ok [d0; d1; d2] = true -> is_byte y = true ->
  distinct [a0; a1; a2] = true -> distinct [b0; b1; b2] = true ->
  zinterp3 b0 b1 b2
    (zinterp3 a0 a1 a2 d0 d1 d2 b0)
    (zinterp3 a0 a1 a2 d0 d1 d2 b1)
    (zinterp3 a0 a1 a2 d0 d1 d2 b2) y
  = zinterp3 a0 a1 a2 d0 d1 d2 y.
Proof.
  intros Ha Hb Hd Hy Hda Hdb.
  cbn [bytes_ok forallb] in Ha, Hb, Hd. rewrite !andb_true_iff in Ha, Hb, Hd.
  destruct Ha as (Ha0 & Ha1 & Ha2 & _), Hb as (Hb0 & Hb1 & Hb2 & _),
           Hd as (Hd0 & Hd1 & Hd2 & _).
  cbn [distinct forallb] in Hda, Hdb.
  rewrite !andb_true_iff, !negb_true_iff, !Z.eqb_neq in Hda, Hdb.
  destruct Hda as ((Ha01 & Ha02 & _) & (Ha12 & _) & _).
  destruct Hdb as ((Hb01 & Hb02 & _) & (Hb12 & _) & _).
  assert (Hne : forall u v (Hu : is_byte u = true) (Hv : is_byte v = true),
            u <> v -> Gf u Hu <> Gf v Hv).
  { intros u v Hu Hv Huv E. apply Huv. exact (f_equal gval E). }
  pose proof (interp3_reinterp
    (Gf a0 Ha0) (Gf a1 Ha1) (Gf a2 Ha2) (Gf b0 Hb0) (Gf b1 Hb1) (Gf b2 Hb2)
    (Gf d0 Hd0) (Gf d1 Hd1) (Gf d2 Hd2) (Gf y Hy)
    (Hne _ _ _ _ Ha01) (Hne _ _ _ _ Ha02) (Hne _ _ _ _ Ha12)
    (Hne _ _ _ _ Hb01) (Hne _ _ _ _ Hb02) (Hne _ _ _ _ Hb12)) as H.
  apply (f_equal gval) in H. rewrite !gval_interp3 in H. exact H.
Qed.

Lemma bytes_ok3 (x y z : Z) :
  is_byte x = true -> is_byte y = true -> is_byte z = true -> bytes_ok [x; y; z] = true.
Proof. intros Hx Hy Hz. cbn [bytes_ok forallb]. rewrite Hx, Hy, Hz. reflexivity. Qed.

Lemma nth_row_shape (m : matrix) (r c k : nat) :
  shape m r c -> (k < r)%nat -> length (nth k m []) = c.
Proof.
  intros Hm Hk. destruct (shape_row _ _ _ _ Hm Hk) as (row & Hrow & Hlen).
  rewrite (nth_lookup_Some _ _ _ _ Hrow). exact Hlen.
Qed.

Lemma shape_rows3 (x y z : list Z) (c : nat) :
  length x = c -> length y = c -> length z = c -> shape [x; y; z] 3 c.
Proof.
  intros Hx Hy Hz. split; [reflexivity|].
  intros [| [| [| k]]] row H; simpl in H; try discriminate; congruence.
Qed.

Lemma shape_rows2 (x y : list Z) (c : nat) :
  length x = c -> length y = c -> shape [x; y] 2 c.
Proof.
  intros Hx Hy. split; [reflexivity|].
  intros [| [| k]] row H; simpl in H; try discriminate; congruence.
Qed.

(** Every row of what the three-input coder produces is the
    interpolating polynomial evaluated at that row's abscissa. *)
Lemma Code3_rows (a0 a1 a2 : Z) (ys : list Z) (r0 r1 r2 : list Z) (c : nat) :
  shape [r0; r1; r2] 3 c ->
  exists out,
    Code (NewErasureCoder [a0; a1; a2] ys) [r0; r1; r2] = Ok out /\
    shape out (length ys) c /\
    forall k j, (k < length ys)%nat -> (j < c)%nat ->
      entry out k j =
      zinterp3 a0 a1 a2 (nth j r0 0) (nth j r1 0) (nth j r2 0) (nth k ys 0).
Proof.
  intros Hin.
  destruct (Code_closed _ [r0; r1; r2] 3 (length ys) c
              (NewErasureCoder_shape [a0; a1; a2] ys) Hin ltac:(lia))
    as (out & Hrun & Hsh & Hent).
  exists out. split; [exact Hrun|]. split; [exact Hsh|].
  intros k j Hk Hj. rewrite (Hent k j Hk Hj).
  unfold xor_sum, zinterp3. cbn [seq fold_left].
  rewrite !NewErasureCoder_entry by (cbn [length]; lia).
  rewrite !lagrange3_zbasis by lia. reflexivity.
Qed.

(** C3. Round-trip recovery. Coder A has the distinct input abscissae
    [a0, a1, a2] and the output abscissae [a0 .. a4]; it encodes three
    rows of bytes of equal length. Coder B takes as input abscissae the
    output abscissae of A at any three positions [s0, s1, s2] (pairwise
    distinct abscissae, as the inputs of a coder are) and as output
    abscissae those at any two positions [m0, m1], in particular the
    two positions left over. Fed rows [s0, s1, s2] of A's output, B
    returns rows [m0] and [m1] of A's output; and rows 0 to 2 of A's
    output are the original rows. *)
Theorem round_trip_recovery (a0 a1 a2 a3 a4 : Z) (r0 r1 r2 : list Z)
    (s0 s1 s2 m0 m1 : nat) :
  let xs := [a0; a1; a2] in
  let ys := [a0; a1; a2; a3; a4] in
  let bs := [nth s0 ys 0; nth s1 ys 0; nth s2 ys 0] in
  let ms := [nth m0 ys 0; nth m1 ys 0] in
  bytes_ok ys = true -> distinct xs = true ->
  rows_ok [r0; r1; r2] = true -> shaped [r0; r1; r2] 3 (length r0) = true ->
  (s0 < 5)%nat -> (s1 < 5)%nat -> (s2 < 5)%nat -> (m0 < 5)%nat -> (m1 < 5)%nat ->
  distinct bs = true ->
  exists outA,
    Code (NewErasureCoder xs ys) [r0; r1; r2] = Ok outA /\
    length outA = 5%nat /\
    take 3 outA = [r0; r1; r2] /\
    Code (NewErasureCoder bs ms) [nth s0 outA []; nth s1 outA []; nth s2 outA []] =
      Ok [nth m0 outA []; nth m1 outA []].
Proof.
  intros xs ys bs ms Hys Hxs Hrows Hin Hs0 Hs1 Hs2 Hm0 Hm1 Hbs.
  apply shaped_shape in Hin. set (c := length r0) in *.
  assert (Hxb : bytes_ok xs = true).
  { subst xs ys. cbn [bytes_ok forallb] in Hys |- *.
    rewrite !andb_true_iff in Hys |- *. tauto. }
  destruct (Code3_rows a0 a1 a2 ys r0 r1 r2 c Hin) as (outA & HrunA & HshA & HentA).
  change (length ys) with 5%nat in HshA, HentA.
  exists outA. split; [exact HrunA|]. split; [apply HshA|]. split.
  - destruct (Code_first_rows xs ys [r0; r1; r2] c Hxb Hxs eq_refl) as (out & Hrun & Htake);
      [subst xs; cbn [length]; lia | exact Hin | exact Hrows |].
    fold xs ys in HrunA. rewrite HrunA in Hrun. injection Hrun as <-. exact Htake.
  - assert (Hlen : forall k, (k < 5)%nat -> length (nth k outA []) = c)
      by (intros k Hk; apply (nth_row_shape _ _ _ _ HshA Hk)).
    assert (HinB : shape [nth s0 outA []; nth s1 outA []; nth s2 outA []] 3 c)
      by (apply shape_rows3; auto).
    destruct (Code3_rows (nth s0 ys 0) (nth s1 ys 0) (nth s2 ys 0) ms _ _ _ c HinB)
      as (outB & HrunB & HshB & HentB).
    fold bs in HrunB. rewrite HrunB. f_equal.
    change (length ms) with 2%nat in HshB, HentB.
    apply (matrix_ext _ _ 2 c HshB); [apply shape_rows2; auto|].
    intros k j Hk Hj. rewrite (HentB k j Hk Hj).
    assert (Hy : forall s, is_byte (nth s ys 0) = true)
      by (intros s; apply bytes_ok_nth, Hys).
    assert (Hd : forall i, is_byte (entry [r0; r1; r2] i j) = true)
      by (intros i; apply entry_byte, Hrows).
    assert (Hrow : forall s, (s < 5)%nat ->
              nth j (nth s outA []) 0 =
              zinterp3 a0 a1 a2 (nth j r0 0) (nth j r1 0) (nth j r2 0) (nth s ys 0))
      by (intros s Hs; apply (HentA s j Hs Hj)).
    rewrite !Hrow by assumption.
    assert (Hgoal : forall m, (m < 5)%nat ->
              zinterp3 (nth s0 ys 0) (nth s1 ys 0) (nth s2 ys 0)
                (zinterp3 a0 a1 a2 (nth j r0 0) (nth j r1 0) (nth j r2 0) (nth s0 ys 0))
                (zinterp3 a0 a1 a2 (nth j r0 0) (nth j r1 0) (nth j r2 0) (nth s1 ys 0))
                (zinterp3 a0 a1 a2 (nth j r0 0) (nth j r1 0) (nth j r2 0) (nth s2 ys 0))
                (nth m ys 0)
              = entry outA m j).
    { intros m Hm. rewrite (HentA m j Hm Hj). apply reinterp3_z.
      - exact Hxb.
      - apply bytes_ok3; apply Hy.
      - apply bytes_ok3; [apply (Hd 0%nat) | apply (Hd 1%nat) | apply (Hd 2%nat)].
      - apply Hy.
      - exact Hxs.
      - exact Hbs. }
    destruct k as [| [| k]]; [apply (Hgoal m0 Hm0) | apply (Hgoal m1 Hm1) | lia].
Qed.

Lemma round_trip_recovery_witness :
  exists outA,
    Code (NewErasureCoder [0; 1; 2] [0; 1; 2; 3; 4])
      [[1; 2; 3; 4; 5]; [41; 42; 43; 44; 45]; [11; 22; 33; 44; 55]] = Ok outA /\
    length outA = 5%nat /\
    take 3 outA = [[1; 2; 3; 4; 5]; [41; 42; 43; 44; 45]; [11; 22; 33; 44; 55]] /\
    Code (NewErasureCoder [0; 3; 4] [1; 2])
      [nth 0 outA []; nth 3 outA []; nth 4 outA []] =
      Ok [nth 1 outA []; nth 2 outA []].
Proof.
  apply (round_trip_recovery 0 1 2 3 4
           [1; 2; 3; 4; 5] [41; 42; 43; 44; 45] [11; 22; 33; 44; 55] 0 3 4 1 2);
    try reflexivity; lia.
Defined.

End RoundTrip.

(** ** Further properties of the field tables *)

Module FieldProps.
Import GF GFLaws RS.

(** [galois_multiply], the bit-by-bit product kept for testing, returns
    on every pair of bytes, and [mult] computes the same product. *)
Lemma mult_is_galois_multiply_witness :
  galois_multiply 87 131 = Some (mult 87 131).
Proof. apply (FieldClaims.mult_is_galois_multiply 87 131); reflexivity. Defined.

(** X2. [mult] is associative on bytes and 1 is its identity. *)
Theorem mult_monoid (a b c : Z) :
  is_byte a = true -> is_byte b = true -> is_byte c = true ->
  mult a (mult b c) = mult (mult a b) c /\ mult 1 a = a /\ mult a 1 = a.
Proof.
  intros Ha Hb Hc. split; [apply mult_assoc; assumption|].
  split; [apply mult_1_l | apply mult_1_r]; assumption.
Qed.

Lemma mult_monoid_witness :
  mult 7 (mult 200 91) = mult (mult 7 200) 91 /\ mult 1 7 = 7 /\ mult 7 1 = 7.
Proof. apply (mult_monoid 7 200 91); reflexivity. Defined.

(** X3. A product of bytes is 0 exactly when one of the factors is 0. *)
Theorem mult_no_zero_divisors (a b : Z) :
  is_byte a = true -> is_byte b = true ->
  (mult a b = 0 <-> a = 0 \/ b = 0).
Proof.
  intros Ha Hb. split.
  - intros H. destruct (Z.eq_dec a 0) as [| Hza]; [left; assumption|].
    destruct (Z.eq_dec b 0) as [| Hzb]; [right; assumption|].
    exfalso. exact (mult_nz_neq_0 a b Ha Hb Hza Hzb H).
  - intros [-> | ->]; [apply mult_0_l | apply mult_0_r].
Qed.

Lemma mult_no_zero_divisors_witness : mult 29 0 = 0 <-> 29 = 0 \/ 0 = 0.
Proof. apply (mult_no_zero_divisors 29 0); reflexivity. Defined.

(** X4. On bytes every array read of [mult] is within the bounds of [log]
    and [exp], also after the conditional subtraction of 255, and the
    product is a byte. *)
Theorem mult_reads_in_bounds (a b : Z) :
  is_byte a = true -> is_byte b = true ->
  mult_checked a b = Some (mult a b) /\ is_byte (mult a b) = true.
Proof.
  intros Ha Hb. split; [apply mult_checked_ok; assumption | apply mult_byte].
Qed.

Lemma mult_reads_in_bounds_witness :
  mult_checked 255 255 = Some (mult 255 255) /\ is_byte (mult 255 255) = true.
Proof. apply (mult_reads_in_bounds 255 255); reflexivity. Defined.

(** X5. [init] fills [exp] with the 255 powers of the generator 2: they are
    nonzero bytes, pairwise different, and [log] maps each back to its
    exponent. *)
Theorem exp_enumerates_nonzero (i j : Z) :
  0 <= i < 255 -> 0 <= j < 255 ->
  tget exp i = Some (rd exp i) /\
  is_byte (rd exp i) = true /\ rd exp i <> 0 /\
  rd log (rd exp i) = i /\
  (rd exp i = rd exp j -> i = j).
Proof.
  intros Hi Hj.
  destruct (exp_spec i Hi) as (Hb & Hnz & Hlog).
  destruct (exp_spec j Hj) as (_ & _ & Hlogj).
  split; [|split; [exact Hb | split; [exact Hnz | split; [exact Hlog|]]]].
  - unfold tget, rd. destruct (Z.ltb_spec i 0); [lia|].
    destruct (lookup_lt_is_Some_2 exp (Z.to_nat i)) as [x Hx].
    { rewrite exp_length. lia. }
    rewrite Hx, (nth_lookup_Some _ _ _ _ Hx). reflexivity.
  - intros E. rewrite <- Hlog, <- Hlogj, E. reflexivity.
Qed.

Lemma exp_enumerates_nonzero_witness :
  tget exp 8 = Some (rd exp 8) /\
  is_byte (rd exp 8) = true /\ rd exp 8 <> 0 /\
  rd log (rd exp 8) = 8 /\
  (rd exp 8 = rd exp 254 -> 8 = 254).
Proof. apply (exp_enumerates_nonzero 8 254); lia. Defined.

(** X6. For a nonzero byte [a], [inv[a]] is the one byte whose product with
    [a] is 1; it is nonzero and its own inverse is [a]. *)
Theorem inv_is_the_inverse (a b : Z) :
  is_byte a = true -> is_byte b = true -> a <> 0 ->
  (mult a b = 1 <-> b = rd inv a) /\
  rd inv a <> 0 /\ rd inv (rd inv a) = a.
Proof.
  intros Ha Hb Hnz.
  assert (Huniq : forall x y, is_byte x = true -> is_byte y = true -> x <> 0 ->
            mult x y = 1 -> y = rd inv x).
  { intros x y Hx Hy Hxz H.
    rewrite <- (mult_1_l y Hy), <- (mult_inv_r x Hx Hxz), (mult_comm x), <- mult_assoc
      by auto using rd_inv_byte.
    rewrite H. apply mult_1_r, rd_inv_byte. }
  assert (Hinv : mult a (rd inv a) = 1) by (apply mult_inv_r; assumption).
  assert (Hnz' : rd inv a <> 0).
  { intros E. rewrite E, mult_0_r in Hinv. discriminate. }
  split; [split|split; [exact Hnz'|]].
  - apply Huniq; assumption.
  - intros ->. exact Hinv.
  - symmetry. apply Huniq; auto using rd_inv_byte.
    rewrite mult_comm. exact Hinv.
Qed.

Lemma inv_is_the_inverse_witness :
  (mult 2 142 = 1 <-> 142 = rd inv 2) /\
  rd inv 2 <> 0 /\ rd inv (rd inv 2) = 2.
Proof. apply (inv_is_the_inverse 2 142); [reflexivity | reflexivity | lia]. Defined.

End FieldProps.

(** ** Further properties of the coder *)

Module CoderProps.
Import GF GFLaws RS Matrix RSLoops RSMatrix Lagrange Outcome CodeClaims UpdateClaims.

Lemma rows_ok_entries (m : matrix) (r c : nat) :
  shape m r c ->
  (forall k j, (k < r)%nat -> (j < c)%nat -> is_byte (entry m k j) = true) ->
  rows_ok m = true.
Proof.
  intros Hm H. unfold rows_ok, bytes_ok. apply forallb_forall. intros row Hrow.
  apply list_elem_of_In, list_elem_of_lookup in Hrow as [k Hk].
  apply forallb_forall. intros x Hx.
  apply list_elem_of_In, list_elem_of_lookup in Hx as [j Hj].
  assert (Hkr : (k < r)%nat) by (rewrite <- (proj1 Hm); eapply lookup_lt_Some, Hk).
  assert (Hjc : (j < c)%nat) by (rewrite <- (proj2 Hm k row Hk); eapply lookup_lt_Some, Hj).
  specialize (H k j Hkr Hjc).
  rewrite (entry_lookup _ _ _ _ Hk), (nth_lookup_Some _ _ _ _ Hj) in H. exact H.
Qed.

Lemma u8_le (n : nat) : u8 (Z.of_nat n) <= Z.of_nat n.
Proof. unfold u8. apply Z.mod_le; lia. Qed.

(** X7. The coder built from [in_x] and [out_x] has degree [len(in_x)] and
    a matrix of [len(in_x)] rows of [len(out_x)] bytes; [NumOutputs]
    returns [len(out_x)], except that it panics on the coder built from
    no input abscissae. *)
Theorem coder_dimensions (in_x out_x : list Z) :
  let p := NewErasureCoder in_x out_x in
  Degree p = length in_x /\
  shaped (interp p) (length in_x) (length out_x) = true /\
  rows_ok (interp p) = true /\
  NumOutputs p = match in_x with
                 | [] => Panic RuntimeIndex
                 | _ :: _ => Ok (length out_x)
                 end.
Proof.
  cbv zeta. pose proof (NewErasureCoder_shape in_x out_x) as Hp.
  split; [apply Degree_NewErasureCoder|].
  split; [apply shaped_shape, Hp|]. split.
  - apply (rows_ok_entries _ _ _ Hp). intros k j Hk Hj.
    rewrite NewErasureCoder_entry by assumption. apply lagrange_byte.
  - destruct in_x as [| x in_x]; [reflexivity|].
    apply NumOutputs_NewErasureCoder. discriminate.
Qed.

(** X8. The effect of [Update] when its three checks pass: every element
    [out[k][j]] is XORed with [mult(delta[j], M[idx][k])], and nothing
    else changes. *)
Theorem Update_effect (in_x out_x : list Z) (idx : Z) (d : list Z) (out : matrix) :
  let p := NewErasureCoder in_x out_x in
  0 <= idx < u8 (Z.of_nat (Degree p)) ->
  shaped out (length out_x) (length d) = true ->
  exists out',
    Update p idx d out = (out', None) /\
    shaped out' (length out_x) (length d) = true /\
    forall k j, (k < length out_x)%nat -> (j < length d)%nat ->
      entry out' k j =
      Z.lxor (entry out k j)
        (mult (nth j d 0) (lagrange in_x (Z.to_nat idx) (nth k out_x 0))).
Proof.
  intros p Hidx Hout. subst p. rewrite Degree_NewErasureCoder in Hidx.
  apply shaped_shape in Hout.
  pose proof (u8_le (length in_x)) as Hu.
  destruct (Update_closed _ idx d out _ _ (length d)
              (NewErasureCoder_shape in_x out_x) Hidx Hout eq_refl)
    as (out' & Hrun & Hsh & Hent).
  exists out'. split; [exact Hrun|]. split; [apply shaped_shape, Hsh|].
  intros k j Hk Hj. rewrite Hent by assumption.
  rewrite NewErasureCoder_entry by (assumption || lia). reflexivity.
Qed.

Lemma Update_effect_witness :
  exists out',
    Update (NewErasureCoder [0; 1; 2] [3; 4]) 1 [7; 9] [[1; 2]; [3; 4]] = (out', None) /\
    shaped out' 2 2 = true.
Proof.
  destruct (Update_effect [0; 1; 2] [3; 4] 1 [7; 9] [[1; 2]; [3; 4]])
    as (out' & Hrun & Hsh & _).
  - vm_compute. split; [discriminate | reflexivity].
  - reflexivity.
  - exists out'. split; [exact Hrun | exact Hsh].
Defined.

(** X9. XOR is its own inverse: a second [Update] with the same index and
    delta restores [out]. *)
Theorem Update_twice_restores (in_x out_x : list Z) (idx : Z) (d : list Z)
    (out : matrix) :
  let p := NewErasureCoder in_x out_x in
  0 <= idx < u8 (Z.of_nat (Degree p)) ->
  shaped out (length out_x) (length d) = true ->
  exists out',
    Update p idx d out = (out', None) /\ Update p idx d out' = (out, None).
Proof.
  intros p Hidx Hout. subst p. rewrite Degree_NewErasureCoder in Hidx.
  apply shaped_shape in Hout.
  pose proof (NewErasureCoder_shape in_x out_x) as Hp.
  destruct (Update_closed _ idx d out _ _ (length d) Hp Hidx Hout eq_refl)
    as (o1 & Hrun1 & Hsh1 & Hent1).
  destruct (Update_closed _ idx d o1 _ _ (length d) Hp Hidx Hsh1 eq_refl)
    as (o2 & Hrun2 & Hsh2 & Hent2).
  exists o1. split; [exact Hrun1|]. rewrite Hrun2. f_equal.
  apply (matrix_ext _ _ _ _ Hsh2 Hout). intros k j Hk Hj.
  rewrite Hent2, Hent1 by assumption.
  rewrite Z.lxor_assoc, Z.lxor_nilpotent. apply Z.lxor_0_r.
Qed.

Lemma Update_twice_restores_witness :
  exists out',
    Update (NewErasureCoder [0; 1; 2] [3; 4]) 1 [7; 9] [[1; 2]; [3; 4]] = (out', None) /\
    Update (NewErasureCoder [0; 1; 2] [3; 4]) 1 [7; 9] out' = ([[1; 2]; [3; 4]], None).
Proof.
  apply (Update_twice_restores [0; 1; 2] [3; 4] 1 [7; 9] [[1; 2]; [3; 4]]).
  - vm_compute. split; [discriminate | reflexivity].
  - reflexivity.
Defined.

(** X10. Updates of two input rows can be applied in either order. *)
Theorem Updates_commute (in_x out_x : list Z) (i1 i2 : Z) (d1 d2 : list Z)
    (out : matrix) :
  let p := NewErasureCoder in_x out_x in
  0 <= i1 < u8 (Z.of_nat (Degree p)) ->
  0 <= i2 < u8 (Z.of_nat (Degree p)) ->
  length d2 = length d1 ->
  shaped out (length out_x) (length d1) = true ->
  exists o1 o2 o,
    Update p i1 d1 out = (o1, None) /\ Update p i2 d2 o1 = (o, None) /\
    Update p i2 d2 out = (o2, None) /\ Update p i1 d1 o2 = (o, None).
Proof.
  intros p H1 H2 Hd Hout. subst p. rewrite Degree_NewErasureCoder in H1, H2.
  apply shaped_shape in Hout.
  pose proof (NewErasureCoder_shape in_x out_x) as Hp.
  set (c := length d1) in *.
  destruct (Update_closed _ i1 d1 out _ _ c Hp H1 Hout eq_refl) as (o1 & R1 & S1 & E1).
  destruct (Update_closed _ i2 d2 o1 _ _ c Hp H2 S1 Hd) as (o & R & S & E).
  destruct (Update_closed _ i2 d2 out _ _ c Hp H2 Hout Hd) as (o2 & R2 & S2 & E2).
  destruct (Update_closed _ i1 d1 o2 _ _ c Hp H1 S2 eq_refl) as (o' & R' & S' & E').
  exists o1, o2, o. split; [exact R1|]. split; [exact R|]. split; [exact R2|].
  rewrite R'. f_equal. apply (matrix_ext _ _ _ _ S' S). intros k j Hk Hj.
  rewrite E', E2, E, E1 by assumption.
  rewrite !Z.lxor_assoc. f_equal. apply Z.lxor_comm.
Qed.

Lemma Updates_commute_witness :
  exists o1 o2 o,
    Update (NewErasureCoder [0; 1; 2] [3; 4]) 0 [7; 9] [[1; 2]; [3; 4]] = (o1, None) /\
    Update (NewErasureCoder [0; 1; 2] [3; 4]) 2 [5; 6] o1 = (o, None) /\
    Update (NewErasureCoder [0; 1; 2] [3; 4]) 2 [5; 6] [[1; 2]; [3; 4]] = (o2, None) /\
    Update (NewErasureCoder [0; 1; 2] [3; 4]) 0 [7; 9] o2 = (o, None).
Proof.
  apply (Updates_commute [0; 1; 2] [3; 4] 0 2 [7; 9] [5; 6] [[1; 2]; [3; 4]]);
    try reflexivity; vm_compute; split; (discriminate || reflexivity).
Defined.

(** A caller's loop over the input rows: one [Update] per row, in order. *)
Definition update_all (p : ErasureCoder) (inp : matrix) (out : matrix)
  : matrix * option fault :=
  for_each (seq 0 (length inp))
    (fun i out => Update p (Z.of_nat i) (nth i inp []) out) out.

(** X11. For a coder of degree below 256, accumulating one [Update] per
    input row into a zero matrix gives what [Code] returns. *)
Theorem Code_by_updates (in_x out_x : list Z) (inp : matrix) (c : nat) :
  let p := NewErasureCoder in_x out_x in
  (Degree p < 256)%nat -> (0 < length inp)%nat ->
  shaped inp (Degree p) c = true ->
  exists out,
    Code p inp = Ok out /\
    update_all p inp (makeMatrix (length out_x) c) = (out, None).
Proof.
  intros p Hdeg Hrows Hin. subst p. rewrite Degree_NewErasureCoder in *.
  apply shaped_shape in Hin.
  pose proof (NewErasureCoder_shape in_x out_x) as Hp.
  set (n := length in_x) in *. set (r := length out_x) in *.
  assert (Hn : (0 < n)%nat) by (rewrite <- (proj1 Hin); exact Hrows).
  destruct (Code_closed _ inp _ _ c Hp Hin Hn) as (out & Hrun & Hsh & Hent).
  exists out. split; [exact Hrun|].
  unfold update_all. rewrite (proj1 Hin).
  destruct (for_each_seq_inv
    (fun i st => shape st r c /\
       forall k j, (k < r)%nat -> (j < c)%nat ->
         entry st k j =
         xor_sum (fun i => mult (entry inp i j) (entry (interp (NewErasureCoder in_x out_x)) i k)) i)
    (fun i out => Update (NewErasureCoder in_x out_x) (Z.of_nat i) (nth i inp []) out)
    n (makeMatrix r c)) as (st & Hst & Hshst & Hentst).
  - split; [apply shape_makeMatrix|]. intros k j _ _. apply entry_makeMatrix.
  - intros i st Hi [Hs He].
    assert (Hlen : length (nth i inp []) = c).
    { destruct (shape_row _ _ _ _ Hin Hi) as (row & Hrow & Hl).
      rewrite (nth_lookup_Some _ _ _ _ Hrow). exact Hl. }
    destruct (Update_closed _ (Z.of_nat i) (nth i inp []) st _ _ c Hp) as (st' & R & S' & E');
      auto.
    { unfold u8. rewrite Z.mod_small; lia. }
    exists st'. split; [exact R|]. split; [exact S'|].
    intros k j Hk Hj. rewrite E', He, xor_sum_S, Nat2Z.id by assumption. reflexivity.
  - rewrite Hst. f_equal. apply (matrix_ext _ _ _ _ Hshst Hsh).
    intros k j Hk Hj. rewrite Hentst, Hent by assumption. reflexivity.
Qed.

Lemma Code_by_updates_witness :
  exists out,
    Code (NewErasureCoder [0; 1; 2] [3; 4]) [[1; 2]; [3; 4]; [5; 6]] = Ok out /\
    update_all (NewErasureCoder [0; 1; 2] [3; 4]) [[1; 2]; [3; 4]; [5; 6]]
      (makeMatrix 2 2) = (out, None).
Proof.
  apply (Code_by_updates [0; 1; 2] [3; 4] [[1; 2]; [3; 4]; [5; 6]] 2);
    [vm_compute; lia | simpl; lia | reflexivity].
Defined.

(** A matrix is XORed into another element by element. *)
Definition xor_matrix (a b : matrix) : matrix := zip_with (zip_with Z.lxor) a b.

Lemma xor_matrix_shape (a b : matrix) (r c : nat) :
  shape a r c -> shape b r c -> shape (xor_matrix a b) r c.
Proof.
  intros Ha Hb. unfold xor_matrix. split.
  - rewrite length_zip_with, (proj1 Ha), (proj1 Hb). lia.
  - intros k row Hk. rewrite lookup_zip_with in Hk.
    destruct (a !! k) as [ra |] eqn:Ea; [|discriminate].
    destruct (b !! k) as [rb |] eqn:Eb; [|discriminate].
    simpl in Hk. injection Hk as <-.
    rewrite length_zip_with, (proj2 Ha _ _ Ea), (proj2 Hb _ _ Eb). lia.
Qed.

Lemma xor_matrix_entry (a b : matrix) (r c k j : nat) :
  shape a r c -> shape b r c -> (k < r)%nat ->
  entry (xor_matrix a b) k j = Z.lxor (entry a k j) (entry b k j).
Proof.
  intros Ha Hb Hk.
  destruct (shape_row _ _ _ _ Ha Hk) as (ra & Era & Hla).
  destruct (shape_row _ _ _ _ Hb Hk) as (rb & Erb & Hlb).
  rewrite (entry_lookup _ _ _ _ Era), (entry_lookup _ _ _ _ Erb).
  rewrite (entry_lookup (xor_matrix a b) k j (zip_with Z.lxor ra rb)).
  - apply nth_zip_lxor. congruence.
  - unfold xor_matrix. rewrite lookup_zip_with, Era, Erb. reflexivity.
Qed.

Lemma xor_sum_lxor (f g : nat -> Z) (n : nat) :
  xor_sum (fun i => Z.lxor (f i) (g i)) n = Z.lxor (xor_sum f n) (xor_sum g n).
Proof.
  induction n as [| n IH]; [reflexivity|].
  rewrite !xor_sum_S, IH. apply lxor_swap4.
Qed.

(** X12. [Code] is additive: the code of the XOR of two input matrices is the
    XOR of their codes. *)
Theorem Code_additive (in_x out_x : list Z) (a b : matrix) (c : nat) :
  let p := NewErasureCoder in_x out_x in
  (0 < length a)%nat ->
  shaped a (Degree p) c = true -> shaped b (Degree p) c = true ->
  rows_ok a = true -> rows_ok b = true ->
  exists oa ob,
    Code p a = Ok oa /\ Code p b = Ok ob /\
    Code p (xor_matrix a b) = Ok (xor_matrix oa ob).
Proof.
  intros p Hrows Ha Hb Hab Hbb. subst p. rewrite Degree_NewErasureCoder in *.
  apply shaped_shape in Ha, Hb.
  pose proof (NewErasureCoder_shape in_x out_x) as Hp.
  set (n := length in_x) in *. set (r := length out_x) in *.
  assert (Hn : (0 < n)%nat) by (rewrite <- (proj1 Ha); exact Hrows).
  destruct (Code_closed _ a _ _ c Hp Ha Hn) as (oa & Ra & Sa & Ea).
  destruct (Code_closed _ b _ _ c Hp Hb Hn) as (ob & Rb & Sb & Eb).
  destruct (Code_closed _ (xor_matrix a b) _ _ c Hp (xor_matrix_shape _ _ _ _ Ha Hb) Hn)
    as (o & R & S & E).
  exists oa, ob. split; [exact Ra|]. split; [exact Rb|].
  rewrite R. f_equal.
  apply (matrix_ext _ _ _ _ S (xor_matrix_shape _ _ _ _ Sa Sb)).
  intros k j Hk Hj.
  rewrite E, (xor_matrix_entry _ _ _ _ _ _ Sa Sb Hk), Ea, Eb by assumption.
  rewrite <- xor_sum_lxor. apply xor_sum_ext. intros i Hi.
  rewrite (xor_matrix_entry _ _ _ _ _ _ Ha Hb Hi).
  apply mult_lxor_l; try (apply entry_byte; assumption).
  rewrite NewErasureCoder_entry by assumption. apply lagrange_byte.
Qed.

Lemma Code_additive_witness :
  exists oa ob,
    Code (NewErasureCoder [0; 1; 2] [3; 4]) [[1; 2]; [3; 4]; [5; 6]] = Ok oa /\
    Code (NewErasureCoder [0; 1; 2] [3; 4]) [[9; 8]; [7; 6]; [5; 4]] = Ok ob /\
    Code (NewErasureCoder [0; 1; 2] [3; 4])
      (xor_matrix [[1; 2]; [3; 4]; [5; 6]] [[9; 8]; [7; 6]; [5; 4]]) =
    Ok (xor_matrix oa ob).
Proof.
  apply (Code_additive [0; 1; 2] [3; 4] [[1; 2]; [3; 4]; [5; 6]]
           [[9; 8]; [7; 6]; [5; 4]] 2); try reflexivity.
  simpl. lia.
Defined.

Ltac settle :=
  repeat match goal with
         | |- _ /\ _ => split
         | |- _ <-> _ => split
         | |- _ -> _ => intro
         | |- _ <> _ => intro
         | H : _ /\ _ |- _ => destruct H
         | H : exists _, _ |- _ => destruct H
         end;
  subst; cbn [length] in *;
  try discriminate; try congruence; try lia; try tauto; eauto.

(** X13. Every outcome of [Code] on a built coder, for every degree: the row
    count is checked first, then the row lengths against the first row;
    the only remaining panic is the read of [in[0]] when the coder and
    the input are both empty; otherwise [Code] returns. *)
Theorem Code_faults (in_x out_x : list Z) (inp : matrix) :
  let p := NewErasureCoder in_x out_x in
  (Code p inp = Panic ShapeMismatch <-> length inp <> Degree p) /\
  (Code p inp = Panic RaggedInput <->
     length inp = Degree p /\ ragged inp (length (nth 0 inp [])) = true) /\
  (Code p inp = Panic RuntimeIndex <-> inp = [] /\ in_x = []) /\
  Code p inp <> Panic IndexOutOfRange /\
  ((exists out, Code p inp = Ok out) <->
     inp <> [] /\ length inp = Degree p /\
     ragged inp (length (nth 0 inp [])) = false).
Proof.
  intros p. subst p. rewrite Degree_NewErasureCoder.
  pose proof (NewErasureCoder_shape in_x out_x) as Hp.
  set (p := NewErasureCoder in_x out_x) in *.
  rewrite (Code_outcome p inp _ _ Hp).
  destruct (Nat.eqb_spec (length inp) (length in_x)) as [Hlen | Hlen]; simpl.
  2: { settle. }
  destruct (ragged inp _) eqn:Hr.
  { settle. }
  destruct (Nat.eqb_spec (length in_x) 0) as [Hn | Hn].
  { assert (Hi : inp = []) by (destruct inp; [reflexivity | simpl in Hlen; lia]).
    assert (Hx : in_x = []) by (destruct in_x; [reflexivity | discriminate]).
    settle. }
  apply ragged_shape in Hr. rewrite Hlen in Hr.
  destruct (Code_closed p inp _ _ _ Hp Hr ltac:(lia)) as (o & Ho & _).
  rewrite Ho. settle.
Qed.

(** X14. Every outcome of [Update] on a built coder, for every degree, with
    the index compared against the degree truncated to [uint8] as the
    code does: the checks are made in the order index, row count, row
    lengths; a panicking call leaves [out] untouched, and once the
    checks pass no read or write is out of bounds. *)
Theorem Update_faults (in_x out_x : list Z) (idx : Z) (d : list Z) (out : matrix) :
  let p := NewErasureCoder in_x out_x in
  let n8 := u8 (Z.of_nat (Degree p)) in
  is_byte idx = true ->
  (snd (Update p idx d out) = Some IndexOutOfRange <-> n8 <= idx) /\
  (snd (Update p idx d out) = Some ShapeMismatch <->
     idx < n8 /\ length out <> length out_x) /\
  (snd (Update p idx d out) = Some RaggedInput <->
     idx < n8 /\ length out = length out_x /\ ragged out (length d) = true) /\
  (snd (Update p idx d out) = None <->
     idx < n8 /\ shaped out (length out_x) (length d) = true) /\
  snd (Update p idx d out) <> Some RuntimeIndex /\
  (snd (Update p idx d out) <> None -> fst (Update p idx d out) = out).
Proof.
  intros p n8 Hidx. subst p n8. apply is_byte_range in Hidx.
  rewrite Degree_NewErasureCoder.
  pose proof (NewErasureCoder_shape in_x out_x) as Hp.
  set (p := NewErasureCoder in_x out_x) in *.
  set (n := length in_x) in *. set (r := length out_x) in *.
  rewrite (Update_outcome p idx d out n r Hp) by lia.
  destruct (Z.geb_spec idx (u8 (Z.of_nat n))) as [Hge | Hlt]; simpl.
  { settle. }
  destruct (Nat.eqb_spec (length out) r) as [Hlen | Hlen]; simpl.
  2: { settle. exfalso. apply Hlen. eapply shaped_shape; eauto. }
  destruct (ragged out (length d)) eqn:Hr; simpl.
  { settle. exfalso.
    match goal with H : shaped _ _ _ = true |- _ => apply shaped_shape in H; rename H into Hs end.
    rewrite <- Hlen in Hs. apply ragged_shape in Hs. congruence. }
  apply ragged_shape in Hr. rewrite Hlen in Hr.
  destruct (Update_closed p idx d out n r _ Hp ltac:(lia) Hr eq_refl)
    as (o & Ho & _).
  rewrite Ho. simpl. settle.
  apply shaped_shape, Hr.
Qed.

Lemma Update_faults_witness :
  snd (Update (NewErasureCoder [0; 1; 2] [3; 4]) 3 [7; 9] [[1; 2]; [3; 4]])
    = Some IndexOutOfRange /\
  snd (Update (NewErasureCoder [0; 1; 2] [3; 4]) 3 [7; 9] [[1; 2]; [3; 4]])
    <> Some RuntimeIndex.
Proof.
  destruct (Update_faults [0; 1; 2] [3; 4] 3 [7; 9] [[1; 2]; [3; 4]] eq_refl)
    as (H1 & _ & _ & _ & H5 & _).
  split; [apply H1; vm_compute; discriminate | exact H5].
Defined.

(** X15. After an [Update] of row [i], the systematic rows of the output are
    the input rows with the delta applied to row [i]: a coder whose
    first outputs are its inputs keeps that property under updates. *)
Theorem Update_keeps_systematic (in_x out_x : list Z) (inp : matrix) (i : nat)
    (d : list Z) :
  let p := NewErasureCoder in_x out_x in
  (Degree p < 256)%nat ->
  bytes_ok in_x = true -> distinct in_x = true ->
  take (Degree p) out_x = in_x ->
  shaped inp (Degree p) (length d) = true -> rows_ok inp = true ->
  bytes_ok d = true ->
  (i < Degree p)%nat ->
  exists out out',
    Code p inp = Ok out /\
    Update p (Z.of_nat i) d out = (out', None) /\
    take (Degree p) out' = xor_row inp i d.
Proof.
  intros p Hdeg Hb Hd Htake Hin Hbytes Hdb Hi. subst p.
  rewrite Degree_NewErasureCoder in *. apply shaped_shape in Hin.
  pose proof (NewErasureCoder_shape in_x out_x) as Hp.
  set (n := length in_x) in *. set (c := length d) in *.
  assert (Hn : (0 < n)%nat) by lia.
  assert (Hle : (n <= length out_x)%nat).
  { pose proof (f_equal length Htake) as H. rewrite length_take in H. fold n in H. lia. }
  destruct (Code_first_rows in_x out_x inp c Hb Hd Htake Hn Hin Hbytes)
    as (out & Hrun & Hfirst).
  fold n in Hfirst.
  destruct (Code_closed _ inp _ _ c Hp Hin Hn) as (out0 & Hrun0 & Hsh & _).
  assert (out0 = out) by congruence. subst out0.
  destruct (Update_closed _ (Z.of_nat i) d out _ _ c Hp) as (out' & Hup & Hsh' & Hent');
    auto.
  { unfold u8. rewrite Z.mod_small; lia. }
  exists out, out'. split; [exact Hrun|]. split; [exact Hup|].
  apply (matrix_ext _ _ n c);
    [eapply shape_take; eauto | apply xor_row_shape; auto |].
  intros k j Hk Hj.
  rewrite entry_take, Hent' by (assumption || lia).
  rewrite (xor_row_entry _ n c) by auto.
  rewrite <- (entry_take out n k j Hk), Hfirst.
  rewrite Nat2Z.id, NewErasureCoder_entry by (fold n; lia).
  rewrite <- (nth_take out_x n k Hk), Htake.
  rewrite lagrange_at_node by auto.
  destruct (decide (i = k)) as [-> | Hne].
  - rewrite decide_True by reflexivity.
    rewrite mult_1_r by (apply bytes_ok_nth, Hdb). reflexivity.
  - rewrite decide_False by congruence.
    rewrite mult_0_r. apply Z.lxor_0_r.
Qed.

Lemma Update_keeps_systematic_witness :
  exists out out',
    Code (NewErasureCoder [0; 1; 2] [0; 1; 2; 3; 4]) [[1; 2]; [3; 4]; [5; 6]] = Ok out /\
    Update (NewErasureCoder [0; 1; 2] [0; 1; 2; 3; 4]) (Z.of_nat 1) [7; 9] out
      = (out', None) /\
    take 3 out' = xor_row [[1; 2]; [3; 4]; [5; 6]] 1 [7; 9].
Proof.
  apply (Update_keeps_systematic [0; 1; 2] [0; 1; 2; 3; 4] [[1; 2]; [3; 4]; [5; 6]] 1 [7; 9]);
    try reflexivity; vm_compute; lia.
Defined.

Lemma Update_is_linear_witness :
  exists out out',
    Code (NewErasureCoder [0; 1; 2] [0; 1; 2; 3; 4])
      [[1; 2; 3; 4; 5]; [41; 42; 43; 44; 45]; [11; 22; 33; 44; 55]] = Ok out /\
    Update (NewErasureCoder [0; 1; 2] [0; 1; 2; 3; 4]) (Z.of_nat 1)
      [40; 40; 40; 40; 40] out = (out', None) /\
    Code (NewErasureCoder [0; 1; 2] [0; 1; 2; 3; 4])
      (xor_row [[1; 2; 3; 4; 5]; [41; 42; 43; 44; 45]; [11; 22; 33; 44; 55]] 1
         [40; 40; 40; 40; 40]) = Ok out'.
Proof.
  apply (Update_is_linear [0; 1; 2] [0; 1; 2; 3; 4]
           [[1; 2; 3; 4; 5]; [41; 42; 43; 44; 45]; [11; 22; 33; 44; 55]] 1
           [40; 40; 40; 40; 40]);
    try reflexivity; vm_compute; lia.
Defined.

(** X17. The code of the all-zero input is all zero, for every coder with at
    least one input and every row length, zero included. *)
Theorem Code_zero (in_x out_x : list Z) (c : nat) :
  let p := NewErasureCoder in_x out_x in
  (0 < Degree p)%nat ->
  Code p (makeMatrix (Degree p) c) = Ok (makeMatrix (length out_x) c).
Proof.
  intros p Hn. subst p. rewrite Degree_NewErasureCoder in *.
  destruct (Code_closed _ (makeMatrix (length in_x) c) _ _ c
              (NewErasureCoder_shape in_x out_x) (shape_makeMatrix _ _) Hn)
    as (out & Hrun & Hsh & Hent).
  rewrite Hrun. f_equal.
  apply (matrix_ext _ _ _ _ Hsh (shape_makeMatrix _ _)). intros k j Hk Hj.
  rewrite Hent, entry_makeMatrix by assumption.
  apply xor_sum_zero. intros i _. rewrite entry_makeMatrix. apply mult_0_l.
Qed.

Lemma Code_zero_witness :
  Code (NewErasureCoder [5; 6] [1; 2; 3])
    (makeMatrix (Degree (NewErasureCoder [5; 6] [1; 2; 3])) 0) = Ok (makeMatrix 3 0).
Proof. apply (Code_zero [5; 6] [1; 2; 3] 0). vm_compute. lia. Defined.

(** X18. The other use the comment of [Update] describes: applied to a zero
    matrix, [Update] gives a matrix that, XORed into an earlier output of
    [Code], gives the code of the updated input. *)
Theorem Update_on_zero_matrix (in_x out_x : list Z) (inp : matrix) (i : nat)
    (d : list Z) :
  let p := NewErasureCoder in_x out_x in
  (Degree p < 256)%nat ->
  shaped inp (Degree p) (length d) = true -> rows_ok inp = true ->
  (i < Degree p)%nat -> bytes_ok d = true ->
  exists out upd,
    Code p inp = Ok out /\
    Update p (Z.of_nat i) d (makeMatrix (length out_x) (length d)) = (upd, None) /\
    Code p (xor_row inp i d) = Ok (xor_matrix out upd).
Proof.
  intros p Hdeg Hin Hbytes Hi Hdb. subst p.
  rewrite Degree_NewErasureCoder in *. apply shaped_shape in Hin.
  set (n := length in_x) in *. set (c := length d) in *.
  assert (Hn : (0 < n)%nat) by lia.
  pose proof (NewErasureCoder_shape in_x out_x) as Hp. fold n in Hp.
  destruct (Code_closed _ inp _ _ c Hp Hin Hn) as (out & Hrun & Hsh & Hent).
  destruct (Update_closed _ (Z.of_nat i) d (makeMatrix (length out_x) c) _ _ c Hp)
    as (upd & Hup & Hshu & Hentu); auto using shape_makeMatrix.
  { unfold u8. rewrite Z.mod_small; lia. }
  destruct (Code_closed _ (xor_row inp i d) _ _ c Hp
              (xor_row_shape _ _ _ _ _ Hin Hi eq_refl) Hn)
    as (out2 & Hrun2 & Hsh2 & Hent2).
  exists out, upd. split; [exact Hrun|]. split; [exact Hup|].
  rewrite Hrun2. f_equal.
  apply (matrix_ext _ _ _ c Hsh2 (xor_matrix_shape _ _ _ _ Hsh Hshu)).
  intros k j Hk Hj.
  rewrite Hent2, (xor_matrix_entry _ _ _ _ _ _ Hsh Hshu Hk), Hentu, Hent by assumption.
  rewrite entry_makeMatrix, Z.lxor_0_l, Nat2Z.id.
  apply (xor_sum_update _ _ n i); [exact Hi | |].
  - intros i' Hi' Hne. rewrite (xor_row_entry _ n c) by auto.
    rewrite decide_False by exact Hne. reflexivity.
  - rewrite (xor_row_entry _ n c) by auto. rewrite decide_True by reflexivity.
    apply mult_lxor_l.
    + apply entry_byte, Hbytes.
    + apply bytes_ok_nth, Hdb.
    + rewrite NewErasureCoder_entry by (fold n; lia). apply lagrange_byte.
Qed.

Lemma Update_on_zero_matrix_witness :
  exists out upd,
    Code (NewErasureCoder [0; 1; 2] [3; 4]) [[1; 2]; [3; 4]; [5; 6]] = Ok out /\
    Update (NewErasureCoder [0; 1; 2] [3; 4]) (Z.of_nat 2) [7; 9]
      (makeMatrix 2 2) = (upd, None) /\
    Code (NewErasureCoder [0; 1; 2] [3; 4]) (xor_row [[1; 2]; [3; 4]; [5; 6]] 2 [7; 9])
      = Ok (xor_matrix out upd).
Proof.
  apply (Update_on_zero_matrix [0; 1; 2] [3; 4] [[1; 2]; [3; 4]; [5; 6]] 2 [7; 9]);
    try reflexivity; vm_compute; lia.
Defined.

End CoderProps.

(** ** Polynomials over GF(2^8) *)

Module Poly.
Import GF GFLaws GFField RS Lagrange.

(** A byte as a field element. *)
Lemma to_gf_ok (z : Z) : is_byte (if is_byte z then z else 0) = true.
Proof. destruct (is_byte z) eqn:E; [exact E | reflexivity]. Qed.

Definition to_gf (z : Z) : gf := Gf (if is_byte z then z else 0) (to_gf_ok z).

Lemma gval_to_gf (z : Z) : is_byte z = true -> gval (to_gf z) = z.
Proof. intros H. simpl. rewrite H. reflexivity. Qed.

Lemma to_gf_gval (a : gf) : to_gf (gval a) = a.
Proof. apply gf_eq, gval_to_gf, gval_ok. Qed.

(** A polynomial is the list of its coefficients, constant term first. *)
Fixpoint peval (p : list gf) (x : gf) : gf :=
  match p with
  | [] => gzero
  | c :: p' => gadd c (gmul x (peval p' x))
  end.

Definition pscale (c : gf) (p : list gf) : list gf := map (gmul c) p.

Fixpoint padd (p q : list gf) : list gf :=
  match p, q with
  | [], _ => q
  | _, [] => p
  | a :: p', b :: q' => gadd a b :: padd p' q'
  end.

(** [(x - r) * p] *)
Definition pmul_lin (r : gf) (p : list gf) : list gf :=
  padd (gzero :: p) (pscale (gopp r) p).

(** The quotient of [p] by [x - r]. *)
Fixpoint pdiv_lin (r : gf) (p : list gf) : list gf :=
  match p with
  | [] => []
  | _ :: p' =>
      match p' with
      | [] => []
      | _ :: _ => peval p' r :: pdiv_lin r p'
      end
  end.

Definition gsum (f : nat -> gf) (n : nat) : gf :=
  fold_left (fun acc i => gadd acc (f i)) (seq 0 n) gzero.

Definition psum (f : nat -> list gf) (n : nat) : list gf :=
  fold_left (fun acc i => padd acc (f i)) (seq 0 n) [].

Lemma peval_pscale (c : gf) (p : list gf) (x : gf) :
  peval (pscale c p) x = gmul c (peval p x).
Proof.
  induction p as [| a p IH]; cbn [pscale map peval].
  - ring.
  - fold (pscale c p). rewrite IH. ring.
Qed.

Lemma peval_padd (p q : list gf) (x : gf) :
  peval (padd p q) x = gadd (peval p x) (peval q x).
Proof.
  revert q. induction p as [| a p IH]; intros [| b q]; cbn [padd peval]; try ring.
  rewrite IH. ring.
Qed.

Lemma peval_pmul_lin (r : gf) (p : list gf) (x : gf) :
  peval (pmul_lin r p) x = gmul (gsub x r) (peval p x).
Proof.
  unfold pmul_lin. rewrite peval_padd, peval_pscale. cbn [peval]. ring.
Qed.

Lemma length_pscale (c : gf) (p : list gf) : length (pscale c p) = length p.
Proof. apply length_map. Qed.

Lemma length_padd (p q : list gf) :
  length (padd p q) = Nat.max (length p) (length q).
Proof.
  revert q. induction p as [| a p IH]; intros [| b q]; cbn [padd length Nat.max];
    try reflexivity.
  rewrite IH. reflexivity.
Qed.

Lemma length_pmul_lin (r : gf) (p : list gf) : length (pmul_lin r p) = S (length p).
Proof. unfold pmul_lin. rewrite length_padd, length_pscale. cbn [length]. lia. Qed.

Lemma length_pdiv_lin (r : gf) (p : list gf) :
  length (pdiv_lin r p) = Nat.pred (length p).
Proof.
  induction p as [| c p IH]; [reflexivity|].
  destruct p as [| c' p]; [reflexivity|].
  cbn [pdiv_lin length Nat.pred] in *. rewrite IH. reflexivity.
Qed.

(** Division by [x - r] leaves the value at [r] as remainder. *)
Lemma pdiv_lin_spec (r : gf) (p : list gf) (x : gf) :
  peval p x = gadd (gmul (gsub x r) (peval (pdiv_lin r p) x)) (peval p r).
Proof.
  induction p as [| c p IH]; [cbn [pdiv_lin peval]; ring|].
  destruct p as [| c' p]; [cbn [pdiv_lin peval]; ring|].
  change (peval (c :: c' :: p) x) with (gadd c (gmul x (peval (c' :: p) x))).
  change (peval (c :: c' :: p) r) with (gadd c (gmul r (peval (c' :: p) r))).
  change (pdiv_lin r (c :: c' :: p)) with (peval (c' :: p) r :: pdiv_lin r (c' :: p)).
  change (peval (peval (c' :: p) r :: pdiv_lin r (c' :: p)) x)
    with (gadd (peval (c' :: p) r) (gmul x (peval (pdiv_lin r (c' :: p)) x))).
  rewrite IH at 1.
  generalize (peval (pdiv_lin r (c' :: p)) x) (peval (c' :: p) r). intros D E.
  ring.
Qed.

Lemma gmul_eq_0 (a b : gf) : gmul a b = gzero -> a <> gzero -> b = gzero.
Proof.
  intros H Ha. apply gf_eq. apply (f_equal gval) in H. cbn [gval gmul gzero] in *.
  destruct (Z.eq_dec (gval b) 0) as [Hb | Hb]; [exact Hb|]. exfalso.
  apply (mult_nz_neq_0 (gval a) (gval b)); auto using gval_ok.
  intros Hz. apply Ha, gf_eq, Hz.
Qed.

(** A polynomial with more distinct roots than coefficients vanishes
    everywhere. *)
Lemma poly_roots (rs : list gf) (p : list gf) :
  NoDup rs -> (length p <= length rs)%nat ->
  (forall r, In r rs -> peval p r = gzero) ->
  forall x, peval p x = gzero.
Proof.
  revert p. induction rs as [| r rs IH]; intros p Hnd Hlen Hroots x.
  - destruct p; [reflexivity | cbn [length] in Hlen; lia].
  - inversion Hnd as [| r' rs' Hnotin Hnd']. subst.
    rewrite (pdiv_lin_spec r p x), (Hroots r) by (left; reflexivity).
    rewrite (IH (pdiv_lin r p)).
    + ring.
    + exact Hnd'.
    + rewrite length_pdiv_lin. cbn [length] in Hlen. lia.
    + intros r' Hin.
      assert (Hp : peval p r' = gzero) by (apply Hroots; right; exact Hin).
      rewrite (pdiv_lin_spec r p r'), (Hroots r) in Hp by (left; reflexivity).
      apply (gmul_eq_0 (gsub r' r)).
      * rewrite <- Hp. ring.
      * apply gsub_neq_0. intros ->. apply Hnotin, list_elem_of_In, Hin.
Qed.

Lemma gsum_S (f : nat -> gf) (n : nat) : gsum f (S n) = gadd (gsum f n) (f n).
Proof. unfold gsum. rewrite seq_S, fold_left_app. reflexivity. Qed.

Lemma psum_S (f : nat -> list gf) (n : nat) : psum f (S n) = padd (psum f n) (f n).
Proof. unfold psum. rewrite seq_S, fold_left_app. reflexivity. Qed.

Lemma gval_gsum (f : nat -> gf) (n : nat) :
  gval (gsum f n) = xor_sum (fun i => gval (f i)) n.
Proof.
  induction n as [| n IH]; [reflexivity|].
  rewrite gsum_S, RSLoops.xor_sum_S, <- IH. reflexivity.
Qed.

Lemma peval_psum (f : nat -> list gf) (n : nat) (x : gf) :
  peval (psum f n) x = gsum (fun k => peval (f k) x) n.
Proof.
  induction n as [| n IH]; [reflexivity|].
  rewrite psum_S, gsum_S, peval_padd, IH. reflexivity.
Qed.

Lemma length_psum (f : nat -> list gf) (n m : nat) :
  (forall k, (k < n)%nat -> (length (f k) <= m)%nat) -> (length (psum f n) <= m)%nat.
Proof.
  induction n as [| n IH]; intros H; [cbn; lia|].
  rewrite psum_S, length_padd.
  apply Nat.max_lub; [apply IH; intros; apply H; lia | apply H; lia].
Qed.

(** The basis polynomial that [lagrange] evaluates, built with the
    factors taken in the order of the loop. *)
Definition lagrange_poly (in_x : list Z) (i : nat) : list gf :=
  fold_left
    (fun P k =>
       if (k =? i)%nat then P
       else pscale (ginv (gsub (to_gf (nth i in_x 0)) (to_gf (nth k in_x 0))))
              (pmul_lin (to_gf (nth k in_x 0)) P))
    (seq 0 (length in_x)) [gone].

Lemma lagrange_poly_eval (in_x : list Z) (i : nat) (x : Z) :
  bytes_ok in_x = true -> is_byte x = true ->
  gval (peval (lagrange_poly in_x i) (to_gf x)) = lagrange in_x i x.
Proof.
  intros Hb Hx. rewrite lagrange_indices. unfold lagrange_poly.
  assert (H : forall ks P,
    gval (peval
      (fold_left
         (fun P k =>
            if (k =? i)%nat then P
            else pscale (ginv (gsub (to_gf (nth i in_x 0)) (to_gf (nth k in_x 0))))
                   (pmul_lin (to_gf (nth k in_x 0)) P)) ks P) (to_gf x)) =
    fold_left (fun r k => if (k =? i)%nat then r else mult r (factor in_x i x k))
      ks (gval (peval P (to_gf x)))).
  { induction ks as [| k ks IH]; intros P; cbn [fold_left]; [reflexivity|].
    rewrite IH. f_equal. destruct (k =? i)%nat; [reflexivity|].
    rewrite peval_pscale, peval_pmul_lin. unfold factor.
    cbn [gval gmul gsub gadd ginv].
    rewrite !gval_to_gf by (assumption || apply bytes_ok_nth, Hb).
    generalize (gval_ok (peval P (to_gf x))). generalize (gval (peval P (to_gf x))).
    intros r Hr.
    rewrite (mult_comm (rd inv _)), (mult_comm _ r).
    symmetry. apply mult_assoc; auto using rd_inv_byte.
    apply lxor_byte; [exact Hx | apply bytes_ok_nth, Hb]. }
  rewrite H. cbn [peval gval gadd gmul gone gzero].
  rewrite mult_0_r. reflexivity.
Qed.

Lemma lagrange_poly_length (in_x : list Z) (i : nat) :
  (i < length in_x)%nat -> length (lagrange_poly in_x i) = length in_x.
Proof.
  intros Hi. unfold lagrange_poly.
  pose proof (fold_seq_inv
    (fun m (P : list gf) => length P = if (i <? m)%nat then m else S m)
    (fun P k =>
       if (k =? i)%nat then P
       else pscale (ginv (gsub (to_gf (nth i in_x 0)) (to_gf (nth k in_x 0))))
              (pmul_lin (to_gf (nth k in_x 0)) P))
    (length in_x) [gone]) as H.
  cbv beta in H. rewrite H.
  - destruct (Nat.ltb_spec i (length in_x)); [reflexivity | lia].
  - reflexivity.
  - intros m P Hm HP.
    destruct (Nat.eqb_spec m i) as [-> | Hne].
    + rewrite HP, Nat.ltb_irrefl.
      destruct (Nat.ltb_spec i (S i)); [reflexivity | lia].
    + rewrite length_pscale, length_pmul_lin, HP.
      destruct (Nat.ltb_spec i m), (Nat.ltb_spec i (S m)); lia.
Qed.

Lemma gsum_single (f : nat -> gf) (n k : nat) :
  (k < n)%nat -> (forall i, (i < n)%nat -> i <> k -> f i = gzero) -> gsum f n = f k.
Proof.
  intros Hk H. apply gf_eq. rewrite gval_gsum.
  apply (xor_sum_single (fun i => gval (f i)) n k Hk).
  intros i Hi Hne. rewrite (H i Hi Hne). reflexivity.
Qed.

Lemma NoDup_to_gf (bs : list Z) :
  bytes_ok bs = true -> distinct bs = true -> NoDup (map to_gf bs).
Proof.
  intros Hb Hd. apply distinct_NoDup in Hd.
  induction bs as [| b bs IH]; [constructor|].
  cbn [bytes_ok forallb] in Hb. apply andb_true_iff in Hb as [Hb0 Hb].
  inversion Hd as [| b' bs' Hnotin Hd']. subst.
  cbn [map]. constructor; [|apply IH; assumption].
  intros Hin. apply Hnotin.
  apply list_elem_of_In, in_map_iff in Hin as (b' & Heq & Hin').
  apply list_elem_of_In.
  assert (Hb' : is_byte b' = true).
  { unfold bytes_ok in Hb. rewrite forallb_forall in Hb. apply Hb, Hin'. }
  apply (f_equal gval) in Heq. rewrite !gval_to_gf in Heq by assumption.
  subst b'. exact Hin'.
Qed.

(** Lagrange interpolation through as many distinct nodes as the
    polynomial has coefficients gives the polynomial back. *)
Lemma interpolation_exact (bs : list Z) (P : list gf) (y : gf) :
  bytes_ok bs = true -> distinct bs = true ->
  (length P <= length bs)%nat ->
  gsum (fun k => gmul (peval P (to_gf (nth k bs 0))) (peval (lagrange_poly bs k) y))
    (length bs) = peval P y.
Proof.
  intros Hb Hd Hlen. set (n := length bs).
  set (E := padd (psum (fun k => pscale (peval P (to_gf (nth k bs 0)))
                                   (lagrange_poly bs k)) n)
                 (pscale (gopp gone) P)).
  assert (HE : forall x, peval E x =
    gsub (gsum (fun k => gmul (peval P (to_gf (nth k bs 0)))
                           (peval (lagrange_poly bs k) x)) n) (peval P x)).
  { intros x. unfold E. rewrite peval_padd, peval_psum, peval_pscale.
    replace (gsum (fun k => peval (pscale (peval P (to_gf (nth k bs 0)))
                                     (lagrange_poly bs k)) x) n)
      with (gsum (fun k => gmul (peval P (to_gf (nth k bs 0)))
                             (peval (lagrange_poly bs k) x)) n).
    - ring.
    - unfold gsum. generalize gzero. induction (seq 0 n) as [| k ks IH]; intros a;
        cbn [fold_left]; [reflexivity|].
      rewrite peval_pscale. apply IH. }
  assert (Hzero : forall x, peval E x = gzero).
  { apply (poly_roots (map to_gf bs)).
    - apply NoDup_to_gf; assumption.
    - rewrite length_map. fold n. unfold E. rewrite length_padd, length_pscale.
      apply Nat.max_lub; [|exact Hlen].
      apply length_psum. intros k Hk.
      rewrite length_pscale, lagrange_poly_length by exact Hk. fold n. lia.
    - intros r Hin. apply in_map_iff in Hin as (b & <- & Hin).
      apply list_elem_of_In, list_elem_of_lookup in Hin as [j Hj].
      assert (Hjn : (j < n)%nat) by (eapply lookup_lt_Some, Hj).
      rewrite <- (nth_lookup_Some _ _ 0 _ Hj).
      rewrite HE, (gsum_single _ n j Hjn).
      + replace (peval (lagrange_poly bs j) (to_gf (nth j bs 0))) with gone; [ring|].
        apply gf_eq. rewrite lagrange_poly_eval by (auto using bytes_ok_nth).
        rewrite lagrange_at_node, decide_True by auto. reflexivity.
      + intros k Hk Hne.
        replace (peval (lagrange_poly bs k) (to_gf (nth j bs 0))) with gzero; [ring|].
        apply gf_eq. rewrite lagrange_poly_eval by (auto using bytes_ok_nth).
        rewrite lagrange_at_node, decide_False by auto. reflexivity. }
  specialize (Hzero y). rewrite HE in Hzero.
  apply gf_eq, lxor_eq_0. exact (f_equal gval Hzero).
Qed.

(** The same on bytes, for the basis polynomials of any [in_x]: their
    values at the nodes [bs] determine their value everywhere. *)
Lemma lagrange_reinterp (xs bs : list Z) (i : nat) (y : Z) :
  bytes_ok xs = true -> bytes_ok bs = true -> distinct bs = true ->
  length bs = length xs -> (i < length xs)%nat -> is_byte y = true ->
  xor_sum (fun k => mult (lagrange xs i (nth k bs 0)) (lagrange bs k y)) (length bs)
  = lagrange xs i y.
Proof.
  intros Hx Hb Hd Hlen Hi Hy.
  pose proof (interpolation_exact bs (lagrange_poly xs i) (to_gf y) Hb Hd) as H.
  rewrite lagrange_poly_length in H by exact Hi.
  specialize (H ltac:(lia)). apply (f_equal gval) in H.
  rewrite gval_gsum, lagrange_poly_eval in H by assumption.
  rewrite <- H. apply xor_sum_ext. intros k Hk. cbn [gval gmul].
  rewrite !lagrange_poly_eval by (auto using bytes_ok_nth). reflexivity.
Qed.

End Poly.

(** ** Recovery from any rows, at every degree *)

Module Recovery.
Import GF GFLaws RS Matrix RSLoops RSMatrix Lagrange Outcome CodeClaims CoderProps Poly.

(** The abscissae, and the rows, at the positions [sel]. *)
Definition select_x (sel : list nat) (ys : list Z) : list Z :=
  map (fun s => nth s ys 0) sel.

Definition select_rows (sel : list nat) (m : matrix) : matrix :=
  map (fun s => nth s m []) sel.

Lemma nth_select_x (sel : list nat) (ys : list Z) (k : nat) :
  (k < length sel)%nat -> nth k (select_x sel ys) 0 = nth (nth k sel 0%nat) ys 0.
Proof.
  intros Hk. unfold select_x.
  destruct (lookup_lt_is_Some_2 sel k Hk) as [s Hs].
  rewrite (nth_lookup_Some sel k 0%nat s Hs).
  apply nth_lookup_Some. rewrite list_lookup_fmap, Hs. reflexivity.
Qed.

Lemma bytes_ok_select_x (sel : list nat) (ys : list Z) :
  bytes_ok ys = true -> bytes_ok (select_x sel ys) = true.
Proof.
  intros Hy. unfold bytes_ok, select_x. apply forallb_forall.
  intros x Hin. apply in_map_iff in Hin as (s & <- & _). apply bytes_ok_nth, Hy.
Qed.

Lemma select_rows_shape (sel : list nat) (m : matrix) (r c : nat) :
  shape m r c -> (forall s, In s sel -> (s < r)%nat) ->
  shape (select_rows sel m) (length sel) c.
Proof.
  intros Hm Hsel. unfold select_rows. split; [apply length_map|].
  intros k row Hk. rewrite list_lookup_fmap in Hk.
  destruct (sel !! k) as [s |] eqn:Es; [|discriminate]. injection Hk as <-.
  assert (Hs : (s < r)%nat).
  { apply Hsel, list_elem_of_In, list_elem_of_lookup. eauto. }
  destruct (shape_row _ _ _ _ Hm Hs) as (row & Hrow & Hl).
  rewrite (nth_lookup_Some _ _ _ _ Hrow). exact Hl.
Qed.

Lemma select_rows_entry (sel : list nat) (m : matrix) (k j : nat) :
  (k < length sel)%nat ->
  entry (select_rows sel m) k j = entry m (nth k sel 0%nat) j.
Proof.
  intros Hk. destruct (lookup_lt_is_Some_2 sel k Hk) as [s Hs].
  rewrite (nth_lookup_Some sel k 0%nat s Hs).
  apply entry_lookup. unfold select_rows. rewrite list_lookup_fmap, Hs. reflexivity.
Qed.

Lemma nth_sel_In (sel : list nat) (k : nat) :
  (k < length sel)%nat -> In (nth k sel 0%nat) sel.
Proof. intros Hk. apply nth_In, Hk. Qed.

Lemma xor_sum_byte (f : nat -> Z) (n : nat) :
  (forall i, is_byte (f i) = true) -> is_byte (xor_sum f n) = true.
Proof.
  intros Hf. induction n as [| n IH]; [reflexivity|].
  rewrite xor_sum_S. apply lxor_byte; auto.
Qed.

Lemma mult_xor_sum_l (f : nat -> Z) (n : nat) (c : Z) :
  (forall i, is_byte (f i) = true) -> is_byte c = true ->
  mult (xor_sum f n) c = xor_sum (fun i => mult (f i) c) n.
Proof.
  intros Hf Hc. induction n as [| n IH]; [apply mult_0_l|].
  rewrite !xor_sum_S, mult_lxor_l, IH by auto using xor_sum_byte. reflexivity.
Qed.

Lemma mult_xor_sum_r (f : nat -> Z) (n : nat) (c : Z) :
  (forall i, is_byte (f i) = true) -> is_byte c = true ->
  mult c (xor_sum f n) = xor_sum (fun i => mult c (f i)) n.
Proof.
  intros Hf Hc. rewrite mult_comm, mult_xor_sum_l by assumption.
  apply xor_sum_ext. intros i _. apply mult_comm.
Qed.

Lemma xor_sum_swap (f : nat -> nat -> Z) (n m : nat) :
  xor_sum (fun k => xor_sum (fun i => f i k) n) m =
  xor_sum (fun i => xor_sum (fun k => f i k) m) n.
Proof.
  induction m as [| m IH].
  - symmetry. apply xor_sum_zero. reflexivity.
  - rewrite xor_sum_S, IH, <- xor_sum_lxor.
    apply xor_sum_ext. intros i _. rewrite xor_sum_S. reflexivity.
Qed.

(** Re-encoding any [length xs] rows of the output whose abscissae are
    pairwise distinct, at the abscissae [zs], gives what the original
    coder gives at [zs]. *)
Lemma recode_closed (xs ys zs : list Z) (inp : matrix) (sel : list nat) (c : nat) :
  bytes_ok xs = true -> bytes_ok ys = true -> bytes_ok zs = true ->
  rows_ok inp = true ->
  (0 < length xs)%nat -> shape inp (length xs) c ->
  length sel = length xs -> (forall s, In s sel -> (s < length ys)%nat) ->
  distinct (select_x sel ys) = true ->
  exists outA outZ,
    Code (NewErasureCoder xs ys) inp = Ok outA /\
    shape outA (length ys) c /\
    Code (NewErasureCoder xs zs) inp = Ok outZ /\
    shape outZ (length zs) c /\
    Code (NewErasureCoder (select_x sel ys) zs) (select_rows sel outA) = Ok outZ.
Proof.
  intros Hxs Hys Hzs Hrows Hn Hin Hsel Hrange Hdist.
  set (n := length xs) in *. set (bs := select_x sel ys) in *.
  assert (Hbs : bytes_ok bs = true) by (apply bytes_ok_select_x, Hys).
  assert (Hlb : length bs = n) by (unfold bs, select_x; rewrite length_map; exact Hsel).
  destruct (Code_closed _ inp _ _ c (NewErasureCoder_shape xs ys) Hin Hn)
    as (outA & RA & SA & EA).
  destruct (Code_closed _ inp _ _ c (NewErasureCoder_shape xs zs) Hin Hn)
    as (outZ & RZ & SZ & EZ).
  assert (SB : shape (select_rows sel outA) (length bs) c).
  { rewrite Hlb, <- Hsel. apply (select_rows_shape _ _ _ _ SA Hrange). }
  destruct (Code_closed _ (select_rows sel outA) _ _ c (NewErasureCoder_shape bs zs) SB
              ltac:(lia)) as (outB & RB & SBo & EB).
  exists outA, outZ. split; [exact RA|]. split; [exact SA|].
  split; [exact RZ|]. split; [exact SZ|].
  rewrite RB. f_equal. apply (matrix_ext _ _ _ _ SBo SZ). intros t j Ht Hj.
  rewrite EB, EZ by assumption. rewrite Hlb.
  assert (Hd : forall i, is_byte (entry inp i j) = true)
    by (intros i; apply entry_byte, Hrows).
  assert (Hz : is_byte (nth t zs 0) = true) by (apply bytes_ok_nth, Hzs).
  transitivity
    (xor_sum (fun k =>
       mult (xor_sum (fun i => mult (entry inp i j) (lagrange xs i (nth k bs 0))) n)
            (lagrange bs k (nth t zs 0))) n).
  { apply xor_sum_ext. intros k Hk.
    assert (Hks : (k < length sel)%nat) by lia.
    rewrite NewErasureCoder_entry by (assumption || lia).
    rewrite (select_rows_entry _ _ _ _ Hks).
    rewrite EA by (assumption || apply Hrange, nth_sel_In, Hks).
    f_equal. apply xor_sum_ext. intros i Hi.
    rewrite NewErasureCoder_entry by (assumption || apply Hrange, nth_sel_In, Hks).
    unfold bs. rewrite (nth_select_x _ _ _ Hks). reflexivity. }
  transitivity
    (xor_sum (fun i =>
       mult (entry inp i j)
            (xor_sum (fun k => mult (lagrange xs i (nth k bs 0))
                                 (lagrange bs k (nth t zs 0))) n)) n).
  { transitivity
      (xor_sum (fun k =>
         xor_sum (fun i => mult (mult (entry inp i j) (lagrange xs i (nth k bs 0)))
                             (lagrange bs k (nth t zs 0))) n) n).
    { apply xor_sum_ext. intros k _.
      apply mult_xor_sum_l; [intros i; apply mult_byte | apply lagrange_byte]. }
    rewrite (xor_sum_swap
      (fun i k => mult (mult (entry inp i j) (lagrange xs i (nth k bs 0)))
                    (lagrange bs k (nth t zs 0)))).
    apply xor_sum_ext. intros i _.
    rewrite mult_xor_sum_r by (auto using mult_byte).
    apply xor_sum_ext. intros k _. symmetry.
    apply mult_assoc; auto using lagrange_byte. }
  apply xor_sum_ext. intros i Hi.
  rewrite NewErasureCoder_entry by assumption. f_equal.
  rewrite <- Hlb. apply lagrange_reinterp; auto.
Qed.

(** The rows at the positions [tgt] from those at the positions [sel]. *)
Lemma rest_closed (xs ys : list Z) (inp : matrix) (sel tgt : list nat) (c : nat) :
  bytes_ok xs = true -> bytes_ok ys = true -> rows_ok inp = true ->
  (0 < length xs)%nat -> shape inp (length xs) c ->
  length sel = length xs ->
  (forall s, In s sel -> (s < length ys)%nat) ->
  (forall s, In s tgt -> (s < length ys)%nat) ->
  distinct (select_x sel ys) = true ->
  exists outA,
    Code (NewErasureCoder xs ys) inp = Ok outA /\
    Code (NewErasureCoder (select_x sel ys) (select_x tgt ys)) (select_rows sel outA)
      = Ok (select_rows tgt outA).
Proof.
  intros Hxs Hys Hrows Hn Hin Hsel Hrange Hranget Hdist.
  destruct (recode_closed xs ys (select_x tgt ys) inp sel c)
    as (outA & outZ & RA & SA & RZ & SZ & RB); auto using bytes_ok_select_x.
  exists outA. split; [exact RA|]. rewrite RB. f_equal.
  destruct (Code_closed _ inp _ _ c (NewErasureCoder_shape xs ys) Hin Hn)
    as (outA' & RA' & _ & EA).
  assert (outA' = outA) by congruence. subst outA'.
  destruct (Code_closed _ inp _ _ c (NewErasureCoder_shape xs (select_x tgt ys)) Hin Hn)
    as (outZ' & RZ' & _ & EZ).
  assert (outZ' = outZ) by congruence. subst outZ'.
  unfold select_x in SZ at 1. rewrite length_map in SZ.
  apply (matrix_ext _ _ _ _ SZ (select_rows_shape _ _ _ _ SA Hranget)).
  intros t j Ht Hj.
  rewrite (select_rows_entry _ _ _ _ Ht).
  rewrite EZ by (unfold select_x; rewrite ?length_map; assumption).
  rewrite EA by (assumption || apply Hranget, nth_sel_In, Ht).
  apply xor_sum_ext. intros i Hi.
  rewrite !NewErasureCoder_entry
    by (unfold select_x; rewrite ?length_map;
        first [assumption | apply Hranget, nth_sel_In, Ht]).
  rewrite (nth_select_x _ _ _ Ht). reflexivity.
Qed.

Lemma forallb_below (sel : list nat) (r : nat) :
  forallb (fun s => (s <? r)%nat) sel = true -> forall s, In s sel -> (s < r)%nat.
Proof. rewrite forallb_forall. intros H s Hs. apply Nat.ltb_lt, H, Hs. Qed.

(** X19. Any [Degree] rows of the output with pairwise distinct abscissae
    determine every other row: the coder built from their abscissae,
    fed those rows, returns the rows at the target positions, for every
    degree and every row length. *)
Theorem any_rows_give_the_rest (xs ys : list Z) (inp : matrix) (sel tgt : list nat)
    (c : nat) :
  let A := NewErasureCoder xs ys in
  let B := NewErasureCoder (select_x sel ys) (select_x tgt ys) in
  bytes_ok xs = true -> bytes_ok ys = true -> rows_ok inp = true ->
  (0 < length inp)%nat -> shaped inp (Degree A) c = true ->
  length sel = Degree A ->
  forallb (fun s => (s <? length ys)%nat) sel = true ->
  forallb (fun s => (s <? length ys)%nat) tgt = true ->
  distinct (select_x sel ys) = true ->
  exists outA,
    Code A inp = Ok outA /\
    Code B (select_rows sel outA) = Ok (select_rows tgt outA).
Proof.
  intros A B Hxs Hys Hrows Hpos Hin Hsel Hrs Hrt Hdist. subst A B.
  rewrite Degree_NewErasureCoder in *. apply shaped_shape in Hin.
  apply (rest_closed xs ys inp sel tgt c Hxs Hys Hrows);
    [ | exact Hin | exact Hsel | exact (forallb_below _ _ Hrs)
      | exact (forallb_below _ _ Hrt) | exact Hdist].
  rewrite <- (proj1 Hin). exact Hpos.
Qed.

Lemma any_rows_give_the_rest_witness :
  exists outA,
    Code (NewErasureCoder [0; 1; 2; 3] [0; 1; 2; 3; 4; 5; 6])
      [[1; 2]; [41; 42]; [11; 22]; [7; 8]] = Ok outA /\
    Code (NewErasureCoder (select_x [6; 1; 4; 5]%nat [0; 1; 2; 3; 4; 5; 6])
                          (select_x [0; 2; 3]%nat [0; 1; 2; 3; 4; 5; 6]))
      (select_rows [6; 1; 4; 5]%nat outA) = Ok (select_rows [0; 2; 3]%nat outA).
Proof.
  apply (any_rows_give_the_rest [0; 1; 2; 3] [0; 1; 2; 3; 4; 5; 6]
           [[1; 2]; [41; 42]; [11; 22]; [7; 8]] [6; 1; 4; 5]%nat [0; 2; 3]%nat 2);
    try reflexivity.
  simpl. lia.
Defined.

(** Decoding from any [length xs] rows with distinct abscissae. *)
Lemma decode_closed (xs ys : list Z) (inp : matrix) (sel : list nat) (c : nat) :
  bytes_ok xs = true -> distinct xs = true -> bytes_ok ys = true ->
  rows_ok inp = true ->
  (0 < length xs)%nat -> shape inp (length xs) c ->
  length sel = length xs -> (forall s, In s sel -> (s < length ys)%nat) ->
  distinct (select_x sel ys) = true ->
  exists outA,
    Code (NewErasureCoder xs ys) inp = Ok outA /\
    Code (NewErasureCoder (select_x sel ys) xs) (select_rows sel outA) = Ok inp.
Proof.
  intros Hxs Hdx Hys Hrows Hn Hin Hsel Hrange Hdist.
  destruct (recode_closed xs ys xs inp sel c)
    as (outA & outZ & RA & SA & RZ & SZ & RB); auto.
  exists outA. split; [exact RA|]. rewrite RB. f_equal.
  destruct (Code_first_rows xs xs inp c Hxs Hdx) as (out & Hrun & Htake); auto.
  { apply firstn_all. }
  assert (out = outZ) by congruence. subst out.
  rewrite <- Htake. symmetry. apply firstn_all2. rewrite (proj1 SZ). lia.
Qed.

(** X20. Decoding: when the input abscissae are pairwise distinct, the coder
    from the abscissae of any [Degree] output rows (pairwise distinct)
    to the input abscissae returns the original input from those rows,
    whether or not the output abscissae include the input ones. *)
Theorem decode_recovers_input (xs ys : list Z) (inp : matrix) (sel : list nat)
    (c : nat) :
  let A := NewErasureCoder xs ys in
  let B := NewErasureCoder (select_x sel ys) xs in
  bytes_ok xs = true -> distinct xs = true -> bytes_ok ys = true ->
  rows_ok inp = true ->
  (0 < length inp)%nat -> shaped inp (Degree A) c = true ->
  length sel = Degree A ->
  forallb (fun s => (s <? length ys)%nat) sel = true ->
  distinct (select_x sel ys) = true ->
  exists outA,
    Code A inp = Ok outA /\ Code B (select_rows sel outA) = Ok inp.
Proof.
  intros A B Hxs Hdx Hys Hrows Hpos Hin Hsel Hrs Hdist. subst A B.
  rewrite Degree_NewErasureCoder in *. apply shaped_shape in Hin.
  apply (decode_closed xs ys inp sel c Hxs Hdx Hys Hrows);
    [ | exact Hin | exact Hsel | exact (forallb_below _ _ Hrs) | exact Hdist].
  rewrite <- (proj1 Hin). exact Hpos.
Qed.

Lemma decode_recovers_input_witness :
  exists outA,
    Code (NewErasureCoder [10; 20; 30] [1; 2; 3; 4; 5])
      [[1; 2]; [41; 42]; [11; 22]] = Ok outA /\
    Code (NewErasureCoder (select_x [4; 0; 2]%nat [1; 2; 3; 4; 5]) [10; 20; 30])
      (select_rows [4; 0; 2]%nat outA) = Ok [[1; 2]; [41; 42]; [11; 22]].
Proof.
  apply (decode_recovers_input [10; 20; 30] [1; 2; 3; 4; 5]
           [[1; 2]; [41; 42]; [11; 22]] [4; 0; 2]%nat 2);
    try reflexivity.
  simpl. lia.
Defined.

Lemma shape_replicate (n : nat) (row : list Z) : shape (replicate n row) n (length row).
Proof.
  split; [apply length_replicate|].
  intros k r H. apply lookup_replicate in H as [-> _]. reflexivity.
Qed.

Lemma entry_replicate (n : nat) (row : list Z) (k j : nat) :
  (k < n)%nat -> entry (replicate n row) k j = nth j row 0.
Proof. intros Hk. apply entry_lookup, lookup_replicate. auto. Qed.

(** The basis polynomials of distinct nodes sum to 1 everywhere. *)
Lemma lagrange_partition (xs : list Z) (y : Z) :
  bytes_ok xs = true -> distinct xs = true -> (0 < length xs)%nat ->
  is_byte y = true ->
  xor_sum (fun i => lagrange xs i y) (length xs) = 1.
Proof.
  intros Hb Hd Hn Hy.
  pose proof (interpolation_exact xs [GFField.gone] (to_gf y) Hb Hd) as H.
  cbn [length] in H. specialize (H ltac:(lia)). apply (f_equal GFField.gval) in H.
  rewrite gval_gsum in H.
  cbn [peval GFField.gval GFField.gadd GFField.gmul GFField.gone GFField.gzero] in H.
  rewrite mult_0_r in H. change (Z.lxor 1 0) with 1 in H. rewrite <- H.
  apply xor_sum_ext. intros i _. rewrite mult_0_r.
  change (Z.lxor 1 0) with 1.
  rewrite lagrange_poly_eval by assumption.
  symmetry. apply mult_1_l, lagrange_byte.
Qed.

(** X21. When every input row is the same row, every output row is that
    row: the interpolating polynomial is constant. *)
Theorem Code_constant_rows (xs ys : list Z) (row : list Z) :
  let p := NewErasureCoder xs ys in
  bytes_ok xs = true -> distinct xs = true -> bytes_ok ys = true ->
  bytes_ok row = true -> (0 < Degree p)%nat ->
  Code p (replicate (Degree p) row) = Ok (replicate (length ys) row).
Proof.
  intros p Hxs Hdx Hys Hrow Hn. subst p. rewrite Degree_NewErasureCoder in *.
  destruct (Code_closed _ (replicate (length xs) row) _ _ _
              (NewErasureCoder_shape xs ys) (shape_replicate _ row) Hn)
    as (out & Hrun & Hsh & Hent).
  rewrite Hrun. f_equal.
  apply (matrix_ext _ _ _ _ Hsh (shape_replicate _ row)). intros k j Hk Hj.
  rewrite Hent, (entry_replicate _ _ _ _ Hk) by assumption.
  transitivity (xor_sum (fun i => mult (nth j row 0) (lagrange xs i (nth k ys 0)))
                  (length xs)).
  { apply xor_sum_ext. intros i Hi.
    rewrite (entry_replicate _ _ _ _ Hi), NewErasureCoder_entry by assumption.
    reflexivity. }
  rewrite <- mult_xor_sum_r by (auto using lagrange_byte, bytes_ok_nth).
  rewrite lagrange_partition by (auto using bytes_ok_nth).
  apply mult_1_r, bytes_ok_nth, Hrow.
Qed.

Lemma Code_constant_rows_witness :
  Code (NewErasureCoder [9; 4; 200] [1; 2; 3; 4])
    (replicate (Degree (NewErasureCoder [9; 4; 200] [1; 2; 3; 4])) [7; 8]) =
  Ok (replicate 4 [7; 8]).
Proof.
  apply (Code_constant_rows [9; 4; 200] [1; 2; 3; 4] [7; 8]); try reflexivity.
  vm_compute. lia.
Defined.

(** X22. Where the output abscissae begin with the distinct input abscissae,
    the coder's matrix begins with the identity. *)
Theorem systematic_block_is_identity (xs ys : list Z) (i k : nat) :
  let p := NewErasureCoder xs ys in
  bytes_ok xs = true -> distinct xs = true ->
  take (Degree p) ys = xs ->
  (i < Degree p)%nat -> (k < Degree p)%nat ->
  entry (interp p) i k = if (i =? k)%nat then 1 else 0.
Proof.
  intros p Hxs Hdx Htake Hi Hk. subst p. rewrite Degree_NewErasureCoder in *.
  assert (Hle : (length xs <= length ys)%nat).
  { pose proof (f_equal length Htake) as H. rewrite length_take in H. lia. }
  rewrite NewErasureCoder_entry by lia.
  rewrite <- (nth_take ys (length xs) k Hk), Htake.
  rewrite lagrange_at_node by assumption.
  destruct (Nat.eqb_spec i k); [apply decide_True | apply decide_False]; assumption.
Qed.

Lemma systematic_block_is_identity_witness :
  entry (interp (NewErasureCoder [0; 1; 2] [0; 1; 2; 3; 4])) 1 2 = 0.
Proof.
  apply (systematic_block_is_identity [0; 1; 2] [0; 1; 2; 3; 4] 1 2);
    try reflexivity; vm_compute; lia.
Defined.

Lemma rows_ok_xor_row (inp : matrix) (n c i : nat) (d : list Z) :
  shape inp n c -> (i < n)%nat -> length d = c ->
  rows_ok inp = true -> bytes_ok d = true ->
  rows_ok (UpdateClaims.xor_row inp i d) = true.
Proof.
  intros Hin Hi Hd Hrows Hdb.
  apply (rows_ok_entries _ n c); [apply UpdateClaims.xor_row_shape; assumption|].
  intros k j Hk Hj. rewrite (UpdateClaims.xor_row_entry _ n c) by assumption.
  case_decide; [apply lxor_byte|]; auto using entry_byte, bytes_ok_nth.
Qed.

(** [Update] on the code of [inp] gives the code of [inp] with the delta
    applied to row [i]. *)
Lemma Update_linear_closed (xs ys : list Z) (inp : matrix) (i : nat) (d : list Z)
    (c : nat) :
  (length xs < 256)%nat -> shape inp (length xs) c -> rows_ok inp = true ->
  (i < length xs)%nat -> length d = c -> bytes_ok d = true ->
  exists out out',
    Code (NewErasureCoder xs ys) inp = Ok out /\
    Update (NewErasureCoder xs ys) (Z.of_nat i) d out = (out', None) /\
    Code (NewErasureCoder xs ys) (UpdateClaims.xor_row inp i d) = Ok out'.
Proof.
  intros Hdeg Hin Hbytes Hi Hd Hdb.
  set (n := length xs) in *.
  assert (Hn : (0 < n)%nat) by lia.
  pose proof (NewErasureCoder_shape xs ys) as Hp. fold n in Hp.
  destruct (Code_closed _ inp _ _ c Hp Hin Hn) as (out & Hrun & Hsh & Hent).
  destruct (Update_closed _ (Z.of_nat i) d out _ _ c Hp) as (out' & Hup & Hsh' & Hent');
    auto.
  { unfold u8. rewrite Z.mod_small; lia. }
  destruct (Code_closed _ (UpdateClaims.xor_row inp i d) _ _ c Hp
              (UpdateClaims.xor_row_shape _ _ _ _ _ Hin Hi Hd) Hn)
    as (out2 & Hrun2 & Hsh2 & Hent2).
  exists out, out'. split; [exact Hrun|]. split; [exact Hup|].
  rewrite Hrun2. f_equal. apply (matrix_ext _ _ _ c Hsh2 Hsh').
  intros k j Hk Hj. rewrite Hent2, Hent', Hent by assumption.
  rewrite Nat2Z.id.
  apply (xor_sum_update _ _ n i); [exact Hi | |].
  - intros i' Hi' Hne. rewrite (UpdateClaims.xor_row_entry _ n c) by assumption.
    rewrite decide_False by exact Hne. reflexivity.
  - rewrite (UpdateClaims.xor_row_entry _ n c) by assumption.
    rewrite decide_True by reflexivity.
    apply mult_lxor_l.
    + apply entry_byte, Hbytes.
    + apply bytes_ok_nth, Hdb.
    + rewrite NewErasureCoder_entry by (fold n; lia). apply lagrange_byte.
Qed.

(** X23. Encode, update one input row through [Update], decode from any
    [Degree] rows of the updated output: the result is the input with
    the delta applied to that row. *)
Theorem update_then_decode (xs ys : list Z) (inp : matrix) (i : nat) (d : list Z)
    (sel : list nat) :
  let A := NewErasureCoder xs ys in
  let B := NewErasureCoder (select_x sel ys) xs in
  (Degree A < 256)%nat ->
  bytes_ok xs = true -> distinct xs = true -> bytes_ok ys = true ->
  shaped inp (Degree A) (length d) = true -> rows_ok inp = true ->
  bytes_ok d = true -> (i < Degree A)%nat ->
  length sel = Degree A ->
  forallb (fun s => (s <? length ys)%nat) sel = true ->
  distinct (select_x sel ys) = true ->
  exists outA outA',
    Code A inp = Ok outA /\
    Update A (Z.of_nat i) d outA = (outA', None) /\
    Code B (select_rows sel outA') = Ok (UpdateClaims.xor_row inp i d).
Proof.
  intros A B Hdeg Hxs Hdx Hys Hin Hrows Hdb Hi Hsel Hrs Hdist. subst A B.
  rewrite Degree_NewErasureCoder in *. apply shaped_shape in Hin.
  destruct (Update_linear_closed xs ys inp i d (length d))
    as (outA & outA' & RA & RU & RA'); auto.
  exists outA, outA'. split; [exact RA|]. split; [exact RU|].
  destruct (decode_closed xs ys (UpdateClaims.xor_row inp i d) sel (length d)
              Hxs Hdx Hys)
    as (o & Ro & RB);
    [ | | | exact Hsel | exact (forallb_below _ _ Hrs) | exact Hdist | ].
  - apply (rows_ok_xor_row _ (length xs) (length d)); auto.
  - lia.
  - apply UpdateClaims.xor_row_shape; auto.
  - assert (o = outA') by congruence. subst o. exact RB.
Qed.

Lemma update_then_decode_witness :
  exists outA outA',
    Code (NewErasureCoder [0; 1; 2] [0; 1; 2; 3; 4])
      [[1; 2; 3; 4; 5]; [41; 42; 43; 44; 45]; [11; 22; 33; 44; 55]] = Ok outA /\
    Update (NewErasureCoder [0; 1; 2] [0; 1; 2; 3; 4]) (Z.of_nat 1)
      [40; 40; 40; 40; 40] outA = (outA', None) /\
    Code (NewErasureCoder (select_x [0; 3; 4]%nat [0; 1; 2; 3; 4]) [0; 1; 2])
      (select_rows [0; 3; 4]%nat outA') =
    Ok (UpdateClaims.xor_row
          [[1; 2; 3; 4; 5]; [41; 42; 43; 44; 45]; [11; 22; 33; 44; 55]] 1
          [40; 40; 40; 40; 40]).
Proof.
  apply (update_then_decode [0; 1; 2] [0; 1; 2; 3; 4]
           [[1; 2; 3; 4; 5]; [41; 42; 43; 44; 45]; [11; 22; 33; 44; 55]] 1
           [40; 40; 40; 40; 40] [0; 3; 4]%nat);
    try reflexivity; vm_compute; lia.
Defined.

Lemma entry_app_l (a b : matrix) (k j : nat) :
  (k < length a)%nat -> entry (a ++ b) k j = entry a k j.
Proof. intros Hk. unfold entry. rewrite app_nth1 by exact Hk. reflexivity. Qed.

Lemma entry_app_r (a b : matrix) (k j : nat) :
  (length a <= k)%nat -> entry (a ++ b) k j = entry b (k - length a) j.
Proof. intros Hk. unfold entry. rewrite app_nth2 by lia. reflexivity. Qed.

Lemma shape_app (a b : matrix) (r1 r2 c : nat) :
  shape a r1 c -> shape b r2 c -> shape (a ++ b) (r1 + r2) c.
Proof.
  intros [Ha1 Ha2] [Hb1 Hb2]. split; [rewrite length_app; lia|].
  intros k row Hk. apply lookup_app_Some in Hk as [Hk | [_ Hk]]; eauto.
Qed.

(** Each output row depends on its own abscissa only. *)
Lemma Code_app_closed (xs ys1 ys2 : list Z) (inp : matrix) (c : nat) :
  (0 < length xs)%nat -> shape inp (length xs) c ->
  exists o1 o2,
    Code (NewErasureCoder xs ys1) inp = Ok o1 /\
    Code (NewErasureCoder xs ys2) inp = Ok o2 /\
    shape o1 (length ys1) c /\ shape o2 (length ys2) c /\
    Code (NewErasureCoder xs (ys1 ++ ys2)) inp = Ok (o1 ++ o2).
Proof.
  intros Hn Hin.
  destruct (Code_closed _ inp _ _ c (NewErasureCoder_shape xs ys1) Hin Hn)
    as (o1 & R1 & S1 & E1).
  destruct (Code_closed _ inp _ _ c (NewErasureCoder_shape xs ys2) Hin Hn)
    as (o2 & R2 & S2 & E2).
  destruct (Code_closed _ inp _ _ c (NewErasureCoder_shape xs (ys1 ++ ys2)) Hin Hn)
    as (o & R & S & E).
  exists o1, o2. split; [exact R1|]. split; [exact R2|].
  split; [exact S1|]. split; [exact S2|].
  rewrite R. f_equal. rewrite length_app in S, E.
  apply (matrix_ext _ _ _ _ S (shape_app _ _ _ _ _ S1 S2)). intros k j Hk Hj.
  rewrite E by assumption.
  destruct (Nat.lt_ge_cases k (length ys1)) as [Hlt | Hge].
  - rewrite entry_app_l, E1 by (rewrite ?(proj1 S1); assumption).
    apply xor_sum_ext. intros i Hi.
    rewrite !NewErasureCoder_entry by (rewrite ?length_app; lia).
    rewrite app_nth1 by exact Hlt. reflexivity.
  - rewrite entry_app_r, (proj1 S1), E2 by (rewrite ?(proj1 S1); lia).
    apply xor_sum_ext. intros i Hi.
    rewrite !NewErasureCoder_entry by (rewrite ?length_app; lia).
    rewrite app_nth2 by lia. reflexivity.
Qed.

(** X24. Output abscissae are coded independently of each other: the code
    for two lists of output abscissae put together is the code for the
    first followed by the code for the second. *)
Theorem Code_outputs_independent (xs ys1 ys2 : list Z) (inp : matrix) (c : nat) :
  (0 < length inp)%nat ->
  shaped inp (Degree (NewErasureCoder xs (ys1 ++ ys2))) c = true ->
  exists o1 o2,
    Code (NewErasureCoder xs ys1) inp = Ok o1 /\
    Code (NewErasureCoder xs ys2) inp = Ok o2 /\
    Code (NewErasureCoder xs (ys1 ++ ys2)) inp = Ok (o1 ++ o2).
Proof.
  intros Hpos Hin. rewrite Degree_NewErasureCoder in Hin. apply shaped_shape in Hin.
  destruct (Code_app_closed xs ys1 ys2 inp c) as (o1 & o2 & R1 & R2 & _ & _ & R);
    [rewrite <- (proj1 Hin); exact Hpos | exact Hin |].
  exists o1, o2. auto.
Qed.

Lemma Code_outputs_independent_witness :
  exists o1 o2,
    Code (NewErasureCoder [0; 1; 2] [3; 4]) [[1; 2]; [41; 42]; [11; 22]] = Ok o1 /\
    Code (NewErasureCoder [0; 1; 2] [5]) [[1; 2]; [41; 42]; [11; 22]] = Ok o2 /\
    Code (NewErasureCoder [0; 1; 2] ([3; 4] ++ [5])) [[1; 2]; [41; 42]; [11; 22]]
      = Ok (o1 ++ o2).
Proof.
  apply (Code_outputs_independent [0; 1; 2] [3; 4] [5] [[1; 2]; [41; 42]; [11; 22]] 2);
    [simpl; lia | reflexivity].
Defined.

(** X25. The promise of the command-line tool: of the input blocks and the
    code blocks taken together, any [Degree] blocks with pairwise
    distinct abscissae give back all the others. *)
Theorem any_blocks_give_the_rest (xs ys : list Z) (inp : matrix) (sel tgt : list nat)
    (c : nat) :
  let A := NewErasureCoder xs ys in
  let all_x := xs ++ ys in
  let B := NewErasureCoder (select_x sel all_x) (select_x tgt all_x) in
  bytes_ok xs = true -> distinct xs = true -> bytes_ok ys = true ->
  rows_ok inp = true ->
  (0 < length inp)%nat -> shaped inp (Degree A) c = true ->
  length sel = Degree A ->
  forallb (fun s => (s <? length all_x)%nat) sel = true ->
  forallb (fun s => (s <? length all_x)%nat) tgt = true ->
  distinct (select_x sel all_x) = true ->
  exists outA,
    Code A inp = Ok outA /\
    Code B (select_rows sel (inp ++ outA)) = Ok (select_rows tgt (inp ++ outA)).
Proof.
  intros A all_x B Hxs Hdx Hys Hrows Hpos Hin Hsel Hrs Hrt Hdist. subst A B all_x.
  rewrite Degree_NewErasureCoder in *. apply shaped_shape in Hin.
  assert (Hn : (0 < length xs)%nat) by (rewrite <- (proj1 Hin); exact Hpos).
  destruct (Code_app_closed xs xs ys inp c Hn Hin)
    as (o1 & outA & R1 & RA & S1 & SA & Rall).
  assert (o1 = inp).
  { destruct (Code_first_rows xs xs inp c Hxs Hdx) as (out & Hrun & Htake); auto.
    { apply firstn_all. }
    assert (out = o1) by congruence. subst out.
    rewrite <- Htake. symmetry. apply firstn_all2. rewrite (proj1 S1). lia. }
  subst o1. exists outA. split; [exact RA|].
  assert (Hall : bytes_ok (xs ++ ys) = true).
  { unfold bytes_ok in *. rewrite forallb_app, Hxs, Hys. reflexivity. }
  destruct (rest_closed xs (xs ++ ys) inp sel tgt c Hxs Hall Hrows Hn Hin Hsel
              (forallb_below _ _ Hrs) (forallb_below _ _ Hrt) Hdist) as (o & Ro & RB).
  assert (o = inp ++ outA) by congruence. subst o. exact RB.
Qed.

Lemma any_blocks_give_the_rest_witness :
  exists outA,
    Code (NewErasureCoder [0; 1; 2] [3; 4; 5]) [[1; 2]; [41; 42]; [11; 22]] = Ok outA /\
    Code (NewErasureCoder (select_x [0; 3; 5]%nat ([0; 1; 2] ++ [3; 4; 5]))
                          (select_x [1; 2; 4]%nat ([0; 1; 2] ++ [3; 4; 5])))
      (select_rows [0; 3; 5]%nat ([[1; 2]; [41; 42]; [11; 22]] ++ outA)) =
    Ok (select_rows [1; 2; 4]%nat ([[1; 2]; [41; 42]; [11; 22]] ++ outA)).
Proof.
  apply (any_blocks_give_the_rest [0; 1; 2] [3; 4; 5] [[1; 2]; [41; 42]; [11; 22]]
           [0; 3; 5]%nat [1; 2; 4]%nat 2);
    try reflexivity.
  simpl. lia.
Defined.

End Recovery.

(** ** The constructor with every access checked *)

Module BuildSafety.
Import GF GFLaws RS Matrix RSLoops RSMatrix Lagrange.

(** [m[i][j] = v] with both indices checked. *)
Definition set_at_checked (m : matrix) (i j : nat) (v : Z) : res matrix :=
  match m !! i with
  | None => Panic RuntimeIndex
  | Some row =>
      if (j <? length row)%nat then Ok (<[i := <[j := v]> row]> m)
      else Panic RuntimeIndex
  end.

(** [p.interp[i][j] = lagrange(in_x, i, out_x[j])], a failed read or
    store being a runtime panic. *)
Definition fill_checked (in_x out_x : list Z) (i : nat) (rm : res matrix) (j : nat)
  : res matrix :=
  do m <- rm;
  match out_x !! j with
  | None => Panic RuntimeIndex
  | Some xj =>
      match lagrange_checked in_x i xj with
      | None => Panic RuntimeIndex
      | Some v => set_at_checked m i j v
      end
  end.

(** [NewErasureCoder] with the bounds checks of the Go runtime. *)
Definition NewErasureCoder_checked (in_x out_x : list Z) : res ErasureCoder :=
  do m <- fold_left
            (fun rm i => fold_left (fill_checked in_x out_x i) (seq 0 (length out_x)) rm)
            (seq 0 (length in_x))
            (Ok (makeMatrix (length in_x) (length out_x)));
  Ok {| interp := m |}.

Lemma fill_checked_row (in_x out_x : list Z) (i : nat) (js : list nat) (st : matrix) :
  bytes_ok in_x = true -> bytes_ok out_x = true ->
  (i < length in_x)%nat -> (forall j, In j js -> (j < length out_x)%nat) ->
  shape st (length in_x) (length out_x) ->
  fold_left (fill_checked in_x out_x i) js (Ok st) =
  Ok (fold_left (fun m j => set_at m i j (lagrange in_x i (nth j out_x 0))) js st) /\
  shape (fold_left (fun m j => set_at m i j (lagrange in_x i (nth j out_x 0))) js st)
    (length in_x) (length out_x).
Proof.
  intros Hin Hout Hi Hjs. revert st.
  induction js as [| j js IH]; intros st Hst; [split; [reflexivity | exact Hst]|].
  cbn [fold_left].
  assert (Hj : (j < length out_x)%nat) by (apply Hjs; left; reflexivity).
  destruct (lookup_lt_is_Some_2 out_x j Hj) as [xj Hxj].
  destruct (shape_row _ _ _ _ Hst Hi) as (row & Hrow & Hlen).
  assert (Hstep : fill_checked in_x out_x i (Ok st) j =
                  Ok (set_at st i j (lagrange in_x i (nth j out_x 0)))).
  { unfold fill_checked. cbn [rbind]. rewrite Hxj, (nth_lookup_Some _ _ _ _ Hxj).
    rewrite BuildClaims.lagrange_checked_ok
      by (try assumption; eapply bytes_ok_lookup; eauto).
    unfold set_at_checked. rewrite Hrow, Hlen.
    destruct (Nat.ltb_spec j (length out_x)); [|lia].
    rewrite (set_at_store _ _ _ _ _ Hrow). reflexivity. }
  rewrite Hstep. apply IH.
  - intros j' Hj'. apply Hjs. right. exact Hj'.
  - rewrite (set_at_store _ _ _ _ _ Hrow). eapply store_shape; eauto.
Qed.

(** X29. Building a coder never panics: for all byte slices [in_x] and
    [out_x], empty ones and ones with repeated abscissae included,
    every read of [in_x], [out_x] and the field tables and every store
    into the matrix is within bounds. *)
Theorem NewErasureCoder_never_panics (in_x out_x : list Z) :
  bytes_ok in_x = true -> bytes_ok out_x = true ->
  NewErasureCoder_checked in_x out_x = Ok (NewErasureCoder in_x out_x).
Proof.
  intros Hin Hout. unfold NewErasureCoder_checked, NewErasureCoder.
  assert (H : forall ns st,
    (forall i, In i ns -> (i < length in_x)%nat) ->
    shape st (length in_x) (length out_x) ->
    fold_left
      (fun rm i => fold_left (fill_checked in_x out_x i) (seq 0 (length out_x)) rm)
      ns (Ok st) =
    Ok (fold_left
          (fun m i =>
             fold_left (fun m j => set_at m i j (lagrange in_x i (nth j out_x 0)))
               (seq 0 (length out_x)) m) ns st)).
  { induction ns as [| i ns IH]; intros st Hns Hst; [reflexivity|].
    cbn [fold_left].
    destruct (fill_checked_row in_x out_x i (seq 0 (length out_x)) st Hin Hout)
      as [Hrow Hshape]; auto.
    { apply Hns. left. reflexivity. }
    { intros j Hj. apply in_seq in Hj. lia. }
    rewrite Hrow. apply IH; [|exact Hshape].
    intros i' Hi'. apply Hns. right. exact Hi'. }
  rewrite H.
  - reflexivity.
  - intros i Hi. apply in_seq in Hi. lia.
  - apply shape_makeMatrix.
Qed.

Lemma NewErasureCoder_never_panics_witness :
  NewErasureCoder_checked [1; 1; 2] [] = Ok (NewErasureCoder [1; 1; 2] []).
Proof. apply (NewErasureCoder_never_panics [1; 1; 2] []); reflexivity. Defined.

End BuildSafety.

(** ** The abscissa flags of the command-line tool *)

From Stdlib Require Ascii String DecimalString.

Module Flags.
Import Ascii String.

(** [strings.Count(s, ",")] *)
Fixpoint count_commas (s : string) : nat :=
  match s with
  | EmptyString => 0%nat
  | String ch s' => ((if Ascii.eqb ch ","%char then 1 else 0) + count_commas s')%nat
  end.

(** [strings.SplitN(s, ",", -1)]: the pieces between the commas, none
    left out. *)
Fixpoint split_commas (s : string) : list string :=
  match s with
  | EmptyString => [EmptyString]
  | String ch s' =>
      if Ascii.eqb ch ","%char then EmptyString :: split_commas s'
      else
        match split_commas s' with
        | [] => [String ch EmptyString]
        | piece :: pieces => String ch piece :: pieces
        end
  end.

(** [strings.Join(l, ",")] *)
Fixpoint join_commas (l : list string) : string :=
  match l with
  | [] => EmptyString
  | x :: l' =>
      match l' with
      | [] => x
      | _ :: _ => (x ++ String ","%char (join_commas l'))%string
      end
  end.

(** What a call returns: the [error] value, or a runtime panic. *)
Inductive outcome (error : Type) : Type :=
  | Returned (e : option error)
  | Panicked (f : fault).
Arguments Returned {error} e.
Arguments Panicked {error} f.

Record byteArrayFlag : Type := { values : list Z }.

Section ByteArrayFlag.

(** [strconv.Atoi] and [strconv.Itoa] belong to the Go library:
    [Atoi] gives the [int] or the error. *)
Variable error : Type.
Variable Atoi : string -> Z + error.
Variable Itoa : Z -> string.

Definition byteArrayFlag_String (p : byteArrayFlag) : string :=
  join_commas (map Itoa (values p)).

(** [for i, v := range pieces { b, err := Atoi(v); if err != nil { return err };
    p.values[i] = byte(b) }] from index [i] on. *)
Fixpoint set_pieces (i : nat) (pieces : list string) (vs : list Z)
  : list Z * outcome error :=
  match pieces with
  | [] => (vs, Returned None)
  | v :: rest =>
      match Atoi v with
      | inr e => (vs, Returned (Some e))
      | inl b =>
          if (i <? List.length vs)%nat then set_pieces (S i) rest (<[i := u8 b]> vs)
          else (vs, Panicked RuntimeIndex)
      end
  end.

Definition byteArrayFlag_Set (p : byteArrayFlag) (s : string)
  : byteArrayFlag * outcome error :=
  if (String.length s =? 0)%nat then (p, Returned None)
  else
    let '(vs, r) :=
      set_pieces 0 (split_commas s) (replicate (count_commas s + 1) 0) in
    ({| values := vs |}, r).

Lemma split_commas_length (s : string) :
  List.length (split_commas s) = (count_commas s + 1)%nat.
Proof.
  induction s as [| ch s IH]; [reflexivity|].
  cbn [split_commas count_commas]. destruct (Ascii.eqb ch ","%char).
  - cbn [List.length]. rewrite IH. lia.
  - destruct (split_commas s) as [| piece pieces]; cbn [List.length] in *; lia.
Qed.

(** The loop, run from index [length done] on a slice that holds the
    values converted so far followed by zeros. *)
Lemma set_pieces_run (pieces : list string) (done : list Z) :
  exists bs e,
    set_pieces (List.length done) pieces (done ++ replicate (List.length pieces) 0) =
      (done ++ map u8 bs ++ replicate (List.length pieces - List.length bs) 0,
       Returned e) /\
    (List.length bs <= List.length pieces)%nat /\
    (forall k b, bs !! k = Some b -> exists v, pieces !! k = Some v /\ Atoi v = inl b) /\
    match e with
    | None => List.length bs = List.length pieces
    | Some err => exists v, pieces !! List.length bs = Some v /\ Atoi v = inr err
    end.
Proof.
  revert done. induction pieces as [| v rest IH]; intros done.
  - exists [], None. cbn. repeat split; try lia.
    intros k b H. discriminate.
  - cbn [set_pieces]. destruct (Atoi v) as [b | err] eqn:Ev.
    + rewrite length_app, length_replicate. cbn [List.length].
      destruct (Nat.ltb_spec (List.length done) (List.length done + S (List.length rest)));
        [|lia].
      replace (<[List.length done := u8 b]> (done ++ replicate (S (List.length rest)) 0))
        with ((done ++ [u8 b]) ++ replicate (List.length rest) 0).
      2: { rewrite insert_app_r_alt, Nat.sub_diag by lia. cbn.
           rewrite <- app_assoc. reflexivity. }
      destruct (IH (done ++ [u8 b])) as (bs & e & Hrun & Hlen & Hbs & He).
      rewrite length_app in Hrun. cbn [List.length] in Hrun.
      rewrite Nat.add_1_r in Hrun. rewrite Hrun.
      exists (b :: bs), e. split; [|split; [|split]].
      * cbn [map List.length app Nat.sub]. rewrite <- app_assoc. reflexivity.
      * cbn [List.length]. lia.
      * intros [| k] b' Hkb; cbn in Hkb.
        -- injection Hkb as <-. exists v. split; [reflexivity | exact Ev].
        -- apply Hbs, Hkb.
      * destruct e as [err |]; cbn [List.length]; [|lia]. exact He.
    + exists [], (Some err). cbn [map app List.length Nat.sub].
      split; [reflexivity|]. split; [lia|]. split.
      * intros k b H. discriminate.
      * exists v. split; [reflexivity | exact Ev].
Qed.

Lemma set_pieces_all (pieces : list string) (bs done : list Z) :
  Forall2 (fun v b => Atoi v = inl b) pieces bs ->
  set_pieces (List.length done) pieces (done ++ replicate (List.length pieces) 0) =
  (done ++ map u8 bs, Returned None).
Proof.
  intros Hall. revert done. induction Hall as [| v b rest bs Hv Hall IH]; intros done.
  - cbn. reflexivity.
  - cbn [set_pieces]. rewrite Hv, length_app, length_replicate. cbn [List.length].
    destruct (Nat.ltb_spec (List.length done) (List.length done + S (List.length rest)));
      [|lia].
    replace (<[List.length done := u8 b]> (done ++ replicate (S (List.length rest)) 0))
      with ((done ++ [u8 b]) ++ replicate (List.length rest) 0).
    2: { rewrite insert_app_r_alt, Nat.sub_diag by lia. cbn.
         rewrite <- app_assoc. reflexivity. }
    specialize (IH (done ++ [u8 b])).
    rewrite length_app in IH. cbn [List.length] in IH. rewrite Nat.add_1_r in IH.
    rewrite IH, <- app_assoc. reflexivity.
Qed.

Lemma Set_all (p : byteArrayFlag) (s : string) (bs : list Z) :
  s <> EmptyString ->
  Forall2 (fun v b => Atoi v = inl b) (split_commas s) bs ->
  byteArrayFlag_Set p s = ({| values := map u8 bs |}, Returned None).
Proof.
  intros Hs Hall. unfold byteArrayFlag_Set.
  destruct s as [| ch s]; [congruence|]. cbn [String.length Nat.eqb].
  pose proof (set_pieces_all _ _ [] Hall) as H.
  rewrite split_commas_length in H. cbn [List.length app] in H.
  rewrite H. reflexivity.
Qed.

(** [Atoi] reads the byte [v] back from [Itoa v], which is not empty
    and holds no comma. *)
Definition reads_back (v : Z) : bool :=
  match Atoi (Itoa v) with inl b => b =? v | inr _ => false end
  && (count_commas (Itoa v) =? 0)%nat
  && negb (String.length (Itoa v) =? 0)%nat.

End ByteArrayFlag.

Arguments byteArrayFlag_Set {error} Atoi p s.
Arguments reads_back {error} Atoi Itoa v.

Lemma split_commas_piece (x : string) :
  count_commas x = 0%nat -> split_commas x = [x].
Proof.
  induction x as [| ch x IH]; [reflexivity|].
  cbn [count_commas split_commas]. destruct (Ascii.eqb ch ","%char); [discriminate|].
  intros H. rewrite IH by exact H. reflexivity.
Qed.

Lemma split_commas_app (x rest : string) :
  count_commas x = 0%nat ->
  split_commas (x ++ String ","%char rest) = x :: split_commas rest.
Proof.
  induction x as [| ch x IH]; [reflexivity|].
  cbn [count_commas]. intros H.
  change (String ch x ++ String ","%char rest)%string
    with (String ch (x ++ String ","%char rest)).
  cbn [split_commas]. destruct (Ascii.eqb ch ","%char); [discriminate|].
  rewrite IH by exact H. reflexivity.
Qed.

Lemma split_join (l : list string) :
  l <> [] -> Forall (fun x => count_commas x = 0%nat) l ->
  split_commas (join_commas l) = l.
Proof.
  induction l as [| x l IH]; [congruence|]. intros _ Hall.
  inversion Hall as [| x' l' Hx Hl]. subst.
  destruct l as [| y l]; [apply split_commas_piece, Hx|].
  change (join_commas (x :: y :: l))
    with (x ++ String ","%char (join_commas (y :: l)))%string.
  rewrite split_commas_app by exact Hx. rewrite IH; [reflexivity | discriminate | exact Hl].
Qed.

Lemma join_commas_nonempty (l : list string) :
  l <> [] -> Forall (fun x => x <> EmptyString) l -> join_commas l <> EmptyString.
Proof.
  destruct l as [| x l]; [congruence|]. intros _ Hall.
  inversion Hall as [| x' l' Hx Hl]. subst.
  destruct l as [| y l]; [exact Hx|].
  change (join_commas (x :: y :: l))
    with (x ++ String ","%char (join_commas (y :: l)))%string.
  destruct x; [contradiction | discriminate].
Qed.

(** X26. [Set] never indexes [p.values] out of range: [SplitN] gives exactly
    [Count + 1] pieces. On the empty string it returns [nil] and leaves
    the flag as it was. Otherwise the flag is replaced by a slice of
    [Count + 1] bytes: the values read before the first piece [Atoi]
    rejects, each truncated to a byte, then zeros; the error returned
    is that of the first rejected piece, or [nil] when every piece is
    read. *)
Theorem Set_outcome (error : Type) (Atoi : string -> Z + error)
    (p : byteArrayFlag) (s : string) :
  exists p' e,
    byteArrayFlag_Set Atoi p s = (p', Returned e) /\
    (s = EmptyString -> p' = p /\ e = None) /\
    (s <> EmptyString ->
       exists bs,
         values p' =
           map u8 bs ++ replicate (count_commas s + 1 - List.length bs) 0 /\
         (List.length bs <= count_commas s + 1)%nat /\
         (forall k b, bs !! k = Some b ->
            exists v, split_commas s !! k = Some v /\ Atoi v = inl b) /\
         match e with
         | None => List.length bs = (count_commas s + 1)%nat
         | Some err =>
             exists v, split_commas s !! List.length bs = Some v /\ Atoi v = inr err
         end).
Proof.
  unfold byteArrayFlag_Set. destruct s as [| ch s].
  - exists p, None. cbn. split; [reflexivity|]. split; [auto | congruence].
  - cbn [String.length Nat.eqb].
    destruct (set_pieces_run error Atoi (split_commas (String ch s)) [])
      as (bs & e & Hrun & Hlen & Hbs & He).
    rewrite split_commas_length in Hrun, Hlen, He.
    cbn [List.length app] in Hrun. rewrite Hrun.
    eexists _, e. split; [reflexivity|]. split; [discriminate|].
    intros _. exists bs. cbn [values]. auto.
Qed.

(** X27. When [Atoi] reads every piece, the flag holds the values read, each
    truncated to a byte: a value outside 0..255 is taken modulo 256. *)
Theorem Set_reads_all (error : Type) (Atoi : string -> Z + error)
    (p : byteArrayFlag) (s : string) (bs : list Z) :
  s <> EmptyString ->
  Forall2 (fun v b => Atoi v = inl b) (split_commas s) bs ->
  byteArrayFlag_Set Atoi p s = ({| values := map u8 bs |}, Returned None).
Proof.
  intros Hs Hall. unfold byteArrayFlag_Set.
  destruct s as [| ch s]; [congruence|]. cbn [String.length Nat.eqb].
  pose proof (set_pieces_all error Atoi _ _ [] Hall) as H.
  rewrite split_commas_length in H. cbn [List.length app] in H.
  rewrite H. reflexivity.
Qed.

(** A decimal [Itoa] and [Atoi], to run the flag code on. *)
Definition decimal_Itoa (z : Z) : string :=
  DecimalString.NilEmpty.string_of_int (Z.to_int z).

Definition decimal_Atoi (s : string) : Z + unit :=
  match s with
  | EmptyString => inr tt
  | String _ _ =>
      match DecimalString.NilEmpty.int_of_string s with
      | Some d => inl (Z.of_int d)
      | None => inr tt
      end
  end.

Lemma Set_reads_all_witness :
  byteArrayFlag_Set decimal_Atoi {| values := [] |} "0,256,-1,77"%string =
  ({| values := [0; 0; 255; 77] |}, Returned None).
Proof.
  apply (Set_reads_all unit decimal_Atoi {| values := [] |} "0,256,-1,77"%string
           [0; 256; -1; 77]).
  - discriminate.
  - repeat constructor.
Defined.

(** X28. [String] then [Set]: a flag holding at least one byte is read back
    from its own text, whatever the flag held before. *)
Theorem String_then_Set (error : Type) (Atoi : string -> Z + error)
    (Itoa : Z -> string) (p : byteArrayFlag) (vs : list Z) :
  vs <> [] -> bytes_ok vs = true ->
  forallb (reads_back Atoi Itoa) vs = true ->
  byteArrayFlag_Set Atoi p (byteArrayFlag_String Itoa {| values := vs |}) =
  ({| values := vs |}, Returned None).
Proof.
  intros Hne Hb Hrb. unfold byteArrayFlag_String. cbn [values].
  rewrite forallb_forall in Hrb.
  assert (Hv : forall v, In v vs ->
            Atoi (Itoa v) = inl v /\ count_commas (Itoa v) = 0%nat /\
            Itoa v <> EmptyString).
  { intros v Hin. specialize (Hrb v Hin). unfold reads_back in Hrb.
    rewrite !andb_true_iff in Hrb. destruct Hrb as [[H1 H2] H3].
    split; [|split].
    - destruct (Atoi (Itoa v)) as [b |]; [|discriminate].
      apply Z.eqb_eq in H1. congruence.
    - apply Nat.eqb_eq, H2.
    - intros E. rewrite E in H3. discriminate. }
  replace ({| values := vs |}) with ({| values := map u8 vs |}).
  2: { f_equal. rewrite <- (map_id vs) at 2. apply map_ext_in. intros v Hin.
       unfold bytes_ok in Hb. rewrite forallb_forall in Hb.
       apply Hb, is_byte_range in Hin. unfold u8. apply Z.mod_small. lia. }
  apply Set_all.
  - apply join_commas_nonempty.
    + destruct vs; [congruence | discriminate].
    + apply Forall_forall. intros x Hx. apply list_elem_of_In, in_map_iff in Hx as (v & <- & Hin).
      apply Hv, Hin.
  - rewrite split_join.
    + apply Forall2_fmap_l, Forall_Forall2_diag, Forall_forall.
      intros v Hin. apply Hv, list_elem_of_In, Hin.
    + destruct vs; [congruence | discriminate].
    + apply Forall_forall. intros x Hx. apply list_elem_of_In, in_map_iff in Hx as (v & <- & Hin).
      apply Hv, Hin.
Qed.

Lemma String_then_Set_witness :
  byteArrayFlag_Set decimal_Atoi {| values := [9] |}
    (byteArrayFlag_String decimal_Itoa {| values := [0; 3; 255] |}) =
  ({| values := [0; 3; 255] |}, Returned None).
Proof.
  apply (String_then_Set unit decimal_Atoi decimal_Itoa {| values := [9] |} [0; 3; 255]);
    [discriminate | reflexivity | reflexivity].
Defined.

End Flags.
